(** * Shoot Manager: record store, API facade and monthly statistics

    A shallow embedding of [server/storage.ts], [server/routes.ts] and
    [computeMonthlyStats] of [app/(tabs)/stats.tsx], with the properties of
    the record lifecycle stated and proved over it.

    The server is embedded twice.

    The first embedding takes every value at the type shared/schema.ts
    declares for it: a modelName is a string, a price a number.  The data
    file is kept as the document [JSON.parse] gives back, with three more
    states for a file that is absent, that cannot be read, or that does
    not parse; a write succeeds and leaves the document it was given.
    This is the server on a working file system and on the documents JSON
    holds exactly, and the life of a record is studied there.

    The second embedding, [Runtime], is the same code with the types
    erased, as it runs: a field of a request body is any JSON value,
    [writeData] stores what [JSON.stringify] writes (null for NaN and the
    infinities, 0 for -0), and [fs.writeFileSync] can throw.  What the
    facade lets through, what happens on a file that cannot be read or
    written, and which answers a request can get are studied there.

    Conventions of both.
    - A JavaScript [number] is a binary64 float ([PrimFloat.float]).
    - [randomUUID()] and [new Date().toISOString()] are calls into the
      runtime.  The world counts them, and two functions of the call
      number, fixed for a whole run, give what each call returned. *)

From Stdlib Require Import ZArith Ascii String List Sorted Lia PrimFloat.
From stdpp Require Import base option list strings pretty.
Import ListNotations.

Local Open Scope string_scope.
Local Open Scope list_scope.

(** ** shared/schema.ts *)

Module Shoot.
Record t : Type := mk {
  id : string;
  modelName : string;
  salonName : string;
  date : string;
  price : float;
  createdAt : string;
  updatedAt : string;
}.
End Shoot.

Module EditedShoot.
Record t : Type := mk {
  id : string;
  originalShootId : string;
  modelName : string;
  salonName : string;
  date : string;
  price : float;
  createdAt : string;
  editedAt : string;
}.
End EditedShoot.

Module ShootFormData.
Record t : Type := mk {
  modelName : string;
  salonName : string;
  date : string;
  price : float;
}.
End ShootFormData.

(** ** server/storage.ts: the document and the file *)

Record DataStore : Type := mkData {
  shoots : list Shoot.t;
  editedShoots : list EditedShoot.t;
}.

Definition emptyData : DataStore := mkData [] [].

(** What [DATA_FILE] holds when [readData] looks at it. *)
Inductive FileState : Type :=
| NoFile                      (* fs.existsSync gives false *)
| ReadFails                   (* fs.readFileSync throws *)
| ParseFails                  (* JSON.parse throws *)
| Stored (d : DataStore).     (* the file parses to the document d *)

Inductive FsEvent : Type :=
| EvRead
| EvWrite (d : DataStore).

Record World : Type := mkWorld {
  file : FileState;
  fsLog : list FsEvent;       (* file accesses so far, oldest first *)
  uuidCalls : nat;            (* calls of randomUUID() so far *)
  clockReads : nat;           (* evaluations of new Date() so far *)
}.

Definition initialWorld : World := mkWorld NoFile [] 0 0.

(** A computation of the server: it reads and changes the world. *)
Definition IO (A : Type) : Type := World -> A * World.

Definition ret {A} (a : A) : IO A := fun w => (a, w).

Definition bind {A B} (m : IO A) (k : A -> IO B) : IO B :=
  fun w => let (a, w') := m w in k a w'.

Declare Scope io_scope.
Delimit Scope io_scope with io.
Notation "x <- m ;; k" := (bind m (fun x => k))
  (at level 100, m at next level, right associativity) : io_scope.
Notation "m ;;; k" := (bind m (fun _ => k))
  (at level 100, right associativity) : io_scope.
Local Open Scope io_scope.

Definition readData : IO DataStore := fun w =>
  let w' := mkWorld (file w) (fsLog w ++ [EvRead]) (uuidCalls w) (clockReads w) in
  match file w with
  | Stored d => (d, w')
  | NoFile | ReadFails | ParseFails => (emptyData, w')
  end.

(** The write on a file system where it succeeds, and of a document
    that JSON holds exactly: the file then holds the document.
    [Runtime.writeData] below is the write that can throw and that stores
    what [JSON.stringify] makes of the document. *)
Definition writeData (data : DataStore) : IO unit := fun w =>
  (tt, mkWorld (Stored data) (fsLog w ++ [EvWrite data]) (uuidCalls w) (clockReads w)).

(** Array helpers: [findIndex] gives [None] for -1; on a hit it also hands
    back the element at that index, which the source reads as [arr[idx]]. *)
Definition findIndex {A} (p : A -> bool) (l : list A) : option (nat * A) :=
  list_find (fun x => p x = true) l.

Definition find {A} (p : A -> bool) (l : list A) : option A :=
  snd <$> findIndex p l.

Definition splice1 {A} (idx : nat) (l : list A) : list A := delete idx l.

Definition push {A} (l : list A) (x : A) : list A := l ++ [x].

Definition hasId (i : string) (s : Shoot.t) : bool :=
  bool_decide (Shoot.id s = i).

Definition editedHasId (i : string) (e : EditedShoot.t) : bool :=
  bool_decide (EditedShoot.id e = i).

Section Store.

(** [uuidAt k] is what the k-th call of [randomUUID()] returned, and
    [nowAt k] what the k-th [new Date().toISOString()] returned. *)
Variable uuidAt : nat -> string.
Variable nowAt : nat -> string.

Definition randomUUID : IO string := fun w =>
  (uuidAt (uuidCalls w),
   mkWorld (file w) (fsLog w) (S (uuidCalls w)) (clockReads w)).

Definition nowISO : IO string := fun w =>
  (nowAt (clockReads w),
   mkWorld (file w) (fsLog w) (uuidCalls w) (S (clockReads w))).

Definition getShoots : IO (list Shoot.t) :=
  data <- readData ;; ret (shoots data).

Definition getShootById (i : string) : IO (option Shoot.t) :=
  data <- readData ;; ret (find (hasId i) (shoots data)).

Definition createShoot (form : ShootFormData.t) : IO Shoot.t :=
  data <- readData ;;
  now <- nowISO ;;
  u <- randomUUID ;;
  let shoot := Shoot.mk u
                 (ShootFormData.modelName form) (ShootFormData.salonName form)
                 (ShootFormData.date form) (ShootFormData.price form)
                 now now in
  writeData (mkData (push (shoots data) shoot) (editedShoots data)) ;;;
  ret shoot.

Definition updateShoot (i : string) (form : ShootFormData.t)
  : IO (option Shoot.t) :=
  data <- readData ;;
  match findIndex (hasId i) (shoots data) with
  | None => ret None
  | Some (idx, old) =>
      now <- nowISO ;;
      let upd := Shoot.mk (Shoot.id old)
                   (ShootFormData.modelName form) (ShootFormData.salonName form)
                   (ShootFormData.date form) (ShootFormData.price form)
                   (Shoot.createdAt old) now in
      writeData (mkData (<[idx := upd]> (shoots data)) (editedShoots data)) ;;;
      ret (Some upd)
  end.

Definition deleteShoot (i : string) : IO bool :=
  data <- readData ;;
  match findIndex (hasId i) (shoots data) with
  | None => ret false
  | Some (idx, _) =>
      writeData (mkData (splice1 idx (shoots data)) (editedShoots data)) ;;;
      ret true
  end.

Definition moveShootToEdited (i : string) : IO (option EditedShoot.t) :=
  data <- readData ;;
  match findIndex (hasId i) (shoots data) with
  | None => ret None
  | Some (idx, shoot) =>
      let rest := splice1 idx (shoots data) in
      u <- randomUUID ;;
      now <- nowISO ;;
      let editedShoot := EditedShoot.mk u (Shoot.id shoot)
                           (Shoot.modelName shoot) (Shoot.salonName shoot)
                           (Shoot.date shoot) (Shoot.price shoot)
                           (Shoot.createdAt shoot) now in
      writeData (mkData rest (push (editedShoots data) editedShoot)) ;;;
      ret (Some editedShoot)
  end.

Definition getEditedShoots : IO (list EditedShoot.t) :=
  data <- readData ;; ret (editedShoots data).

Definition getEditedShootById (i : string) : IO (option EditedShoot.t) :=
  data <- readData ;; ret (find (editedHasId i) (editedShoots data)).

Definition updateEditedShoot (i : string) (form : ShootFormData.t)
  : IO (option EditedShoot.t) :=
  data <- readData ;;
  match findIndex (editedHasId i) (editedShoots data) with
  | None => ret None
  | Some (idx, old) =>
      now <- nowISO ;;
      let upd := EditedShoot.mk (EditedShoot.id old)
                   (EditedShoot.originalShootId old)
                   (ShootFormData.modelName form) (ShootFormData.salonName form)
                   (ShootFormData.date form) (ShootFormData.price form)
                   (EditedShoot.createdAt old) now in
      writeData (mkData (shoots data) (<[idx := upd]> (editedShoots data))) ;;;
      ret (Some upd)
  end.

Definition moveEditedShootBack (i : string) : IO (option Shoot.t) :=
  data <- readData ;;
  match findIndex (editedHasId i) (editedShoots data) with
  | None => ret None
  | Some (idx, edited) =>
      let rest := splice1 idx (editedShoots data) in
      u <- randomUUID ;;
      now <- nowISO ;;
      let shoot := Shoot.mk u
                     (EditedShoot.modelName edited) (EditedShoot.salonName edited)
                     (EditedShoot.date edited) (EditedShoot.price edited)
                     (EditedShoot.createdAt edited) now in
      writeData (mkData (push (shoots data) shoot) rest) ;;;
      ret (Some shoot)
  end.

Definition deleteEditedShoot (i : string) : IO bool :=
  data <- readData ;;
  match findIndex (editedHasId i) (editedShoots data) with
  | None => ret false
  | Some (idx, _) =>
      writeData (mkData (shoots data) (splice1 idx (editedShoots data))) ;;;
      ret true
  end.

End Store.

(** ** server/routes.ts *)

(** A value of a parsed JSON request body.  An array or object is kept as
    the number that [Number] converts it to, the only thing the routes ask
    of it. *)
Inductive JsValue : Type :=
| JUndefined
| JNull
| JBool (b : bool)
| JNumber (x : float)
| JString (s : string)
| JObject (toNumber : float).

(** [req.body] after destructuring.  The three text fields are what a
    client of the declared [ShootFormData] type can send: a string, or
    nothing ([None] stands for an absent or null property).  A body whose
    fields are JSON values of any kind is [Runtime.Body] below. *)
Record Body : Type := mkBody {
  body_modelName : option string;
  body_salonName : option string;
  body_date : option string;
  body_price : JsValue;
}.

Inductive Payload : Type :=
| PMessage (message : string)
| PShoot (s : Shoot.t)
| PEdited (e : EditedShoot.t)
| PShoots (l : list Shoot.t)
| PEditedShoots (l : list EditedShoot.t).

Record Response : Type := mkResponse {
  status : nat;
  payload : Payload;
}.

(** [!x] on a text field: absent, null and the empty string are falsy.
    [Runtime.falsy] below is [!x] on any value. *)
Definition notText (x : option string) : bool :=
  match x with
  | None => true
  | Some s => bool_decide (s = "")
  end.

(** [price == null] *)
Definition looseNull (v : JsValue) : bool :=
  match v with
  | JUndefined | JNull => true
  | _ => false
  end.

(** The text read from a field that passed [notText]. *)
Definition textOf (x : option string) : string := default "" x.

Definition fieldsMissing (b : Body) : bool :=
  notText (body_modelName b) || notText (body_salonName b)
  || notText (body_date b) || looseNull (body_price b).

Section Routes.

Variable uuidAt : nat -> string.
Variable nowAt : nat -> string.

(** [Number(s)] on a string, as the runtime computes it. *)
Variable StringToNumber : string -> float.

Definition Number (v : JsValue) : float :=
  match v with
  | JUndefined => nan
  | JNull => zero
  | JBool true => one
  | JBool false => zero
  | JNumber x => x
  | JString s => StringToNumber s
  | JObject n => n
  end.

Definition formOf (b : Body) : ShootFormData.t :=
  ShootFormData.mk (textOf (body_modelName b)) (textOf (body_salonName b))
    (textOf (body_date b)) (Number (body_price b)).

Definition json (p : Payload) : Response := mkResponse 200 p.

Definition listShootsRoute : IO Response :=
  l <- getShoots ;; ret (json (PShoots l)).

Definition getShootRoute (i : string) : IO Response :=
  shoot <- getShootById i ;;
  match shoot with
  | None => ret (mkResponse 404 (PMessage "Shoot not found"))
  | Some s => ret (json (PShoot s))
  end.

Definition postShootRoute (b : Body) : IO Response :=
  if fieldsMissing b
  then ret (mkResponse 400 (PMessage "All fields are required"))
  else shoot <- createShoot uuidAt nowAt (formOf b) ;;
       ret (mkResponse 201 (PShoot shoot)).

Definition putShootRoute (i : string) (b : Body) : IO Response :=
  if fieldsMissing b
  then ret (mkResponse 400 (PMessage "All fields are required"))
  else shoot <- updateShoot nowAt i (formOf b) ;;
       match shoot with
       | None => ret (mkResponse 404 (PMessage "Shoot not found"))
       | Some s => ret (json (PShoot s))
       end.

Definition deleteShootRoute (i : string) : IO Response :=
  ok <- deleteShoot i ;;
  if ok : bool then ret (json (PMessage "Shoot deleted"))
  else ret (mkResponse 404 (PMessage "Shoot not found")).

Definition moveToEditedRoute (i : string) : IO Response :=
  edited <- moveShootToEdited uuidAt nowAt i ;;
  match edited with
  | None => ret (mkResponse 404 (PMessage "Shoot not found"))
  | Some e => ret (mkResponse 201 (PEdited e))
  end.

Definition listEditedRoute : IO Response :=
  l <- getEditedShoots ;; ret (json (PEditedShoots l)).

Definition putEditedRoute (i : string) (b : Body) : IO Response :=
  if fieldsMissing b
  then ret (mkResponse 400 (PMessage "All fields are required"))
  else edited <- updateEditedShoot nowAt i (formOf b) ;;
       match edited with
       | None => ret (mkResponse 404 (PMessage "Edited shoot not found"))
       | Some e => ret (json (PEdited e))
       end.

Definition moveBackRoute (i : string) : IO Response :=
  shoot <- moveEditedShootBack uuidAt nowAt i ;;
  match shoot with
  | None => ret (mkResponse 404 (PMessage "Edited shoot not found"))
  | Some s => ret (mkResponse 201 (PShoot s))
  end.

Definition deleteEditedRoute (i : string) : IO Response :=
  ok <- deleteEditedShoot i ;;
  if ok : bool then ret (json (PMessage "Edited shoot deleted"))
  else ret (mkResponse 404 (PMessage "Edited shoot not found")).

End Routes.

(** ** app/(tabs)/stats.tsx: computeMonthlyStats *)

(** A number that is an integer or NaN ([None]): what [getFullYear()],
    [getMonth()] and their differences are. *)
Definition JsInt : Type := option Z.

Record MonthlyStats : Type := mkStats {
  month : option string;      (* MONTHS[monthNumber], undefined out of range *)
  year : JsInt;
  monthNumber : JsInt;
  shootCount : nat;
  totalEarnings : float;
}.

Definition MONTHS : list string :=
  [ "January"; "February"; "March"; "April"; "May"; "June";
    "July"; "August"; "September"; "October"; "November"; "December" ].

(** [MONTHS[n]] *)
Definition monthName (n : JsInt) : option string :=
  match n with
  | Some z => if (0 <=? z)%Z then MONTHS !! Z.to_nat z else None
  | None => None
  end.

(** A number inside a template literal. *)
Definition numberToString (n : JsInt) : string :=
  match n with
  | Some z => pretty z
  | None => "NaN"
  end.

(** [a !== b] on numbers: NaN differs from everything. *)
Definition strictNeq (a b : JsInt) : bool :=
  match a, b with
  | Some x, Some y => negb (x =? y)%Z
  | _, _ => true
  end.

(** [a - b] *)
Definition minus (a b : JsInt) : JsInt :=
  match a, b with
  | Some x, Some y => Some (x - y)%Z
  | _, _ => None
  end.

(** A [Map<string, V>]: the entries in insertion order. *)
Definition JsMap (V : Type) : Type := list (string * V).

Definition mapHas {V} (key : string) (m : JsMap V) : bool :=
  existsb (fun kv => bool_decide (fst kv = key)) m.

(** [map.set(key, v)]: a present key keeps its place. *)
Fixpoint mapSet {V} (key : string) (v : V) (m : JsMap V) : JsMap V :=
  match m with
  | [] => [(key, v)]
  | (k, x) :: rest =>
      if bool_decide (k = key) then (k, v) :: rest
      else (k, x) :: mapSet key v rest
  end.

(** [f] applied to the object [map.get(key)] holds, in place. *)
Fixpoint mapUpdate {V} (key : string) (f : V -> V) (m : JsMap V) : JsMap V :=
  match m with
  | [] => []
  | (k, x) :: rest =>
      if bool_decide (k = key) then (k, f x) :: rest
      else (k, x) :: mapUpdate key f rest
  end.

Definition mapValues {V} (m : JsMap V) : list V := map snd m.

(** [Array.prototype.sort(cmp)], a stable sort.  Each element in turn is
    placed before the first one already placed that compares greater than
    it.  For a comparator that is a consistent order on the elements
    every stable sort gives this same array, so this is the array the
    engine gives.  Where a comparison is NaN it counts as 0, as the
    language has it, but the comparator is then no consistent order and
    the language leaves the order of the result to the engine: there the
    result below is one rearrangement among those an engine may give,
    and nothing is proved from its order. *)
Definition comesAfter {A} (cmp : A -> A -> JsInt) (y x : A) : bool :=
  match cmp y x with
  | Some v => (0 <? v)%Z
  | None => false
  end.

Fixpoint insertSorted {A} (cmp : A -> A -> JsInt) (x : A) (l : list A) : list A :=
  match l with
  | [] => [x]
  | y :: rest =>
      if comesAfter cmp y x then x :: y :: rest
      else y :: insertSorted cmp x rest
  end.

Definition sortBy {A} (cmp : A -> A -> JsInt) (l : list A) : list A :=
  fold_left (fun acc x => insertSorted cmp x acc) l [].

Definition compareStats (a b : MonthlyStats) : JsInt :=
  if strictNeq (year a) (year b) then minus (year b) (year a)
  else minus (monthNumber b) (monthNumber a).

Section Stats.

(** [new Date(s)] seen through [getFullYear()] and [getMonth()], in the
    time zone of the device: [None] for an Invalid Date, else the year
    and the month, 0 to 11. *)
Variable localYearMonth : string -> option (Z * nat).

Definition getFullYear (s : string) : JsInt :=
  fst <$> localYearMonth s.

Definition getMonth (s : string) : JsInt :=
  (fun ym => Z.of_nat (snd ym)) <$> localYearMonth s.

Definition keyOf (shoot : Shoot.t) : string :=
  numberToString (getFullYear (Shoot.date shoot)) ++ "-"
  ++ numberToString (getMonth (Shoot.date shoot)).

Definition addShoot (m : JsMap MonthlyStats) (shoot : Shoot.t)
  : JsMap MonthlyStats :=
  let y := getFullYear (Shoot.date shoot) in
  let mn := getMonth (Shoot.date shoot) in
  let key := keyOf shoot in
  let m1 := if mapHas key m then m
            else mapSet key (mkStats (monthName mn) y mn 0 zero) m in
  mapUpdate key
    (fun stat => mkStats (month stat) (year stat) (monthNumber stat)
                   (shootCount stat + 1)
                   (totalEarnings stat + Shoot.price shoot)%float)
    m1.

Definition computeMonthlyStats (l : list Shoot.t) : list MonthlyStats :=
  sortBy compareStats (mapValues (fold_left addShoot l [])).

(** The year and month a shoot falls in, and the shoots of a list that
    fall in a given year and month, in the order of the list. *)
Definition shootYM (s : Shoot.t) : JsInt * JsInt :=
  (getFullYear (Shoot.date s), getMonth (Shoot.date s)).

Definition group (l : list Shoot.t) (ym : JsInt * JsInt) : list Shoot.t :=
  filter (fun s => shootYM s = ym) l.

(** The entry under [k] sums up the shoots of [l] whose key is [k]. *)
Definition Summarises (l : list Shoot.t) (k : string) (st : MonthlyStats) : Prop :=
  exists s0, s0 ∈ l /\ keyOf s0 = k
    /\ (year st, monthNumber st) = shootYM s0
    /\ month st = monthName (monthNumber st)
    /\ shootCount st = length (filter (fun s => keyOf s = k) l)
    /\ totalEarnings st
       = fold_left (fun acc s => (acc + Shoot.price s)%float)
           (filter (fun s => keyOf s = k) l) zero.

(** The map after the loop has gone through [l]. *)
Definition Aggregated (l : list Shoot.t) (m : JsMap MonthlyStats) : Prop :=
  NoDup (map fst m)
  /\ (forall s, s ∈ l -> keyOf s ∈ map fst m)
  /\ (forall k st, (k, st) ∈ m -> Summarises l k st).

End Stats.

Definition statYM (st : MonthlyStats) : JsInt * JsInt :=
  (year st, monthNumber st).

(** A bucket that holds a year and a month, not NaN. *)
Definition validStat (st : MonthlyStats) : Prop :=
  exists y mn, year st = Some y /\ monthNumber st = Some mn.

(** The prices of a list of shoots added up from 0, one after the other. *)
Definition sumPrices (l : list Shoot.t) : float :=
  fold_left (fun acc s => (acc + Shoot.price s)%float) l zero.

(** [a] is of a later month than [b]. *)
Definition laterMonth (a b : MonthlyStats) : Prop :=
  match year a, monthNumber a, year b, monthNumber b with
  | Some ya, Some ma, Some yb, Some mb =>
      (yb < ya)%Z \/ (ya = yb /\ (mb < ma)%Z)
  | _, _, _, _ => False
  end.

(** Every character of a string satisfies [p]. *)
Fixpoint allChars (p : Ascii.ascii -> bool) (s : string) : bool :=
  match s with
  | EmptyString => true
  | String c rest => p c && allChars p rest
  end.

Definition isDigit (c : Ascii.ascii) : bool :=
  Nat.leb 48 (Ascii.nat_of_ascii c) && Nat.leb (Ascii.nat_of_ascii c) 57.

(** A stand-in for the runtime's [Date] in worked examples: the year and
    month written at the head of an ISO 8601 date, as a device whose time
    zone is UTC reads them. *)
Definition digitValue (c : Ascii.ascii) : option nat :=
  if isDigit c then Some (Ascii.nat_of_ascii c - 48) else None.

Definition isoYearMonth (s : string) : option (Z * nat) :=
  match s with
  | String y1 (String y2 (String y3 (String y4
      (String "-" (String m1 (String m2 _)))))) =>
      match digitValue y1, digitValue y2, digitValue y3, digitValue y4,
            digitValue m1, digitValue m2 with
      | Some a, Some b, Some c, Some d, Some e, Some f =>
          let mon := 10 * e + f in
          if Nat.leb 1 mon && Nat.leb mon 12
          then Some (Z.of_nat (1000 * a + 100 * b + 10 * c + d), mon - 1)
          else None
      | _, _, _, _, _, _ => None
      end
  | _ => None
  end.

Definition noDash (c : Ascii.ascii) : bool :=
  negb (Ascii.eqb c "-"%char).

Definition digitOrDash (c : Ascii.ascii) : bool :=
  isDigit c || Ascii.eqb c "-"%char.

(** ** Runs of the store *)

(** The document the store works from in a world: what [readData] gives. *)
Definition docOf (w : World) : DataStore :=
  match file w with
  | Stored d => d
  | NoFile | ReadFails | ParseFails => emptyData
  end.

(** The world after an operation that only read the file, and after one
    that read it, called [randomUUID()] and [new Date()] so many times, and
    wrote [d'] back. *)
Definition afterRead (w : World) : World :=
  mkWorld (file w) (fsLog w ++ [EvRead]) (uuidCalls w) (clockReads w).

Definition afterWrite (d' : DataStore) (uuids clocks : nat) (w : World) : World :=
  mkWorld (Stored d') (fsLog w ++ [EvRead; EvWrite d'])
    (uuids + uuidCalls w) (clocks + clockReads w).

Definition pendingIds (d : DataStore) : list string := map Shoot.id (shoots d).
Definition editedIds (d : DataStore) : list string :=
  map EditedShoot.id (editedShoots d).
Definition idsOf (d : DataStore) : list string := pendingIds d ++ editedIds d.

(** The exported operations of storage.ts, as calls. *)
Inductive Op : Type :=
| GetShoots
| GetShootById (i : string)
| CreateShoot (form : ShootFormData.t)
| UpdateShoot (i : string) (form : ShootFormData.t)
| DeleteShoot (i : string)
| MoveShootToEdited (i : string)
| GetEditedShoots
| GetEditedShootById (i : string)
| UpdateEditedShoot (i : string) (form : ShootFormData.t)
| MoveEditedShootBack (i : string)
| DeleteEditedShoot (i : string).

Inductive Outcome : Type :=
| OShoots (l : list Shoot.t)
| OShoot (r : option Shoot.t)
| OCreated (s : Shoot.t)
| OFlag (ok : bool)
| OEditedShoots (l : list EditedShoot.t)
| OEdited (r : option EditedShoot.t).

Definition mutating (op : Op) : bool :=
  match op with
  | GetShoots | GetShootById _ | GetEditedShoots | GetEditedShootById _ => false
  | _ => true
  end.

(** Not-found: [null], [undefined] or [false]. *)
Definition notFound (out : Outcome) : bool :=
  match out with
  | OShoot None | OEdited None | OFlag false => true
  | _ => false
  end.

(** The bucket an operation looks its id up in. *)
Definition targetIds (op : Op) (d : DataStore) : option (string * list string) :=
  match op with
  | GetShootById i | UpdateShoot i _ | DeleteShoot i | MoveShootToEdited i =>
      Some (i, pendingIds d)
  | GetEditedShootById i | UpdateEditedShoot i _ | MoveEditedShootBack i
  | DeleteEditedShoot i =>
      Some (i, editedIds d)
  | GetShoots | GetEditedShoots | CreateShoot _ => None
  end.

Section Runs.

Variable uuidAt : nat -> string.
Variable nowAt : nat -> string.

Definition exec (op : Op) : IO Outcome :=
  match op with
  | GetShoots => l <- getShoots ;; ret (OShoots l)
  | GetShootById i => r <- getShootById i ;; ret (OShoot r)
  | CreateShoot form => s <- createShoot uuidAt nowAt form ;; ret (OCreated s)
  | UpdateShoot i form => r <- updateShoot nowAt i form ;; ret (OShoot r)
  | DeleteShoot i => ok <- deleteShoot i ;; ret (OFlag ok)
  | MoveShootToEdited i => r <- moveShootToEdited uuidAt nowAt i ;; ret (OEdited r)
  | GetEditedShoots => l <- getEditedShoots ;; ret (OEditedShoots l)
  | GetEditedShootById i => r <- getEditedShootById i ;; ret (OEdited r)
  | UpdateEditedShoot i form => r <- updateEditedShoot nowAt i form ;; ret (OEdited r)
  | MoveEditedShootBack i => r <- moveEditedShootBack uuidAt nowAt i ;; ret (OShoot r)
  | DeleteEditedShoot i => ok <- deleteEditedShoot i ;; ret (OFlag ok)
  end.

Fixpoint run (ops : list Op) (w : World) : World :=
  match ops with
  | [] => w
  | op :: rest => run rest (snd (exec op w))
  end.

(** An identifier that one of the first [n] calls of [randomUUID()] gave. *)
Definition issuedBefore (n : nat) (i : string) : Prop :=
  exists k, k < n /\ uuidAt k = i.

(** Identifiers in the document are pairwise different, across both
    buckets, and each came from an earlier [randomUUID()]. *)
Definition WellFormed (w : World) : Prop :=
  NoDup (idsOf (docOf w))
  /\ forall i, i ∈ idsOf (docOf w) -> issuedBefore (uuidCalls w) i.

End Runs.

(** ** Logical bookings

    A booking is born by [createShoot] and keeps its number while its
    record changes bucket and identifier.  The ledger is the bookkeeping of
    an observer of the calls and their results: entry [b] is where booking
    [b] is now, or [None] once it has been deleted. *)

Inductive Bucket : Type := Pending | Edited.

#[global] Instance Bucket_eq_dec : EqDecision Bucket.
Proof. solve_decision. Defined.

Definition Place : Type := Bucket * string.

Definition Ledger : Type := list (option Place).

(** The booking found at [from] goes to [to]. *)
Definition relocate (from : Place) (to : option Place) (L : Ledger) : Ledger :=
  map (fun e => if bool_decide (e = Some from) then to else e) L.

Definition track (op : Op) (out : Outcome) (L : Ledger) : Ledger :=
  match op, out with
  | CreateShoot _, OCreated s => L ++ [Some (Pending, Shoot.id s)]
  | DeleteShoot i, OFlag true => relocate (Pending, i) None L
  | MoveShootToEdited i, OEdited (Some e) =>
      relocate (Pending, i) (Some (Edited, EditedShoot.id e)) L
  | MoveEditedShootBack i, OShoot (Some s) =>
      relocate (Edited, i) (Some (Pending, Shoot.id s)) L
  | DeleteEditedShoot i, OFlag true => relocate (Edited, i) None L
  | _, _ => L
  end.

(** Where the bookings that still exist are. *)
Definition live (L : Ledger) : list Place := omap (fun e => e) L.

(** The records of a document, each as bucket and identifier. *)
Definition places (d : DataStore) : list Place :=
  map (fun i => (Pending, i)) (pendingIds d)
  ++ map (fun i => (Edited, i)) (editedIds d).

Section Tracked.

Variable uuidAt : nat -> string.
Variable nowAt : nat -> string.

Fixpoint runTracked (ops : list Op) (w : World) (L : Ledger) : World * Ledger :=
  match ops with
  | [] => (w, L)
  | op :: rest =>
      let (out, w') := exec uuidAt nowAt op w in
      runTracked rest w' (track op out L)
  end.

End Tracked.

(** [y], or [to] in its place when [y] is [from]. *)
Definition replaced {A} `{EqDecision A} (from to : A) (y : A) : A :=
  if bool_decide (y = from) then to else y.

(** ** Timestamps and prices *)

(** ISO 8601 timestamps of equal length order as text. *)
Definition laterThan (a b : string) : Prop := String.ltb b a = true.

(** A price that is a finite number and not negative. *)
Definition validPrice (p : float) : bool :=
  is_finite p && (zero <=? p)%float.

(** A price that the file holds as it is.  [JSON.stringify] writes NaN
    and the infinities as null and -0 as 0; every other number is written
    in digits that [JSON.parse] reads back as the same number. *)
Definition jsonExact (p : float) : bool :=
  is_finite p && negb (is_zero p && get_sign p).

(** Every price in the document is one the file holds as it is. *)
Definition exactPrices (d : DataStore) : bool :=
  forallb (fun s => jsonExact (Shoot.price s)) (shoots d)
  && forallb (fun e => jsonExact (EditedShoot.price e)) (editedShoots d).

(** ** The document an operation writes *)

(** The document an operation that succeeded leaves behind: the one it
    read, with the one change that the call and its result tell. *)
Definition nextDocument (op : Op) (out : Outcome) (d : DataStore)
  : option DataStore :=
  match op, out with
  | CreateShoot _, OCreated s =>
      Some (mkData (shoots d ++ [s]) (editedShoots d))
  | UpdateShoot i _, OShoot (Some upd) =>
      (fun hit : nat * Shoot.t =>
         mkData (<[fst hit := upd]> (shoots d)) (editedShoots d))
      <$> findIndex (hasId i) (shoots d)
  | DeleteShoot i, OFlag true =>
      (fun hit : nat * Shoot.t =>
         mkData (delete (fst hit) (shoots d)) (editedShoots d))
      <$> findIndex (hasId i) (shoots d)
  | MoveShootToEdited i, OEdited (Some e) =>
      (fun hit : nat * Shoot.t =>
         mkData (delete (fst hit) (shoots d)) (editedShoots d ++ [e]))
      <$> findIndex (hasId i) (shoots d)
  | UpdateEditedShoot i _, OEdited (Some upd) =>
      (fun hit : nat * EditedShoot.t =>
         mkData (shoots d) (<[fst hit := upd]> (editedShoots d)))
      <$> findIndex (editedHasId i) (editedShoots d)
  | MoveEditedShootBack i, OShoot (Some s) =>
      (fun hit : nat * EditedShoot.t =>
         mkData (shoots d ++ [s]) (delete (fst hit) (editedShoots d)))
      <$> findIndex (editedHasId i) (editedShoots d)
  | DeleteEditedShoot i, OFlag true =>
      (fun hit : nat * EditedShoot.t =>
         mkData (shoots d) (delete (fst hit) (editedShoots d)))
      <$> findIndex (editedHasId i) (editedShoots d)
  | _, _ => None
  end.

(** ** server/routes.ts: registerRoutes

    The ten routes that [registerRoutes] registers, each with the
    parameter and the body its handler reads. *)
Inductive Request : Type :=
| GET_shoots
| GET_shoot (i : string)
| POST_shoots (b : Body)
| PUT_shoot (i : string) (b : Body)
| DELETE_shoot (i : string)
| POST_shoot_move_to_edited (i : string)
| GET_edited_shoots
| PUT_edited_shoot (i : string) (b : Body)
| POST_edited_shoot_move_back (i : string)
| DELETE_edited_shoot (i : string).

Definition isGet (r : Request) : bool :=
  match r with
  | GET_shoots | GET_shoot _ | GET_edited_shoots => true
  | _ => false
  end.

Section Server.

Variable uuidAt : nat -> string.
Variable nowAt : nat -> string.
Variable StringToNumber : string -> float.

Definition registerRoutes (r : Request) : IO Response :=
  match r with
  | GET_shoots => listShootsRoute
  | GET_shoot i => getShootRoute i
  | POST_shoots b => postShootRoute uuidAt nowAt StringToNumber b
  | PUT_shoot i b => putShootRoute nowAt StringToNumber i b
  | DELETE_shoot i => deleteShootRoute i
  | POST_shoot_move_to_edited i => moveToEditedRoute uuidAt nowAt i
  | GET_edited_shoots => listEditedRoute
  | PUT_edited_shoot i b => putEditedRoute nowAt StringToNumber i b
  | POST_edited_shoot_move_back i => moveBackRoute uuidAt nowAt i
  | DELETE_edited_shoot i => deleteEditedRoute i
  end.

End Server.

(** The createdAt stamps in a document. *)
Definition createdAts (d : DataStore) : list string :=
  map Shoot.createdAt (shoots d) ++ map EditedShoot.createdAt (editedShoots d).

Definition originalIds (d : DataStore) : list string :=
  map EditedShoot.originalShootId (editedShoots d).

(** What a call did to the buckets, read off the call and its result. *)
Inductive Effect : Type :=
| Created | DeletedPending | DeletedEdited | MovedToEdited | MovedBack | NoChange.

#[global] Instance Effect_eq_dec : EqDecision Effect.
Proof. solve_decision. Defined.

Definition effectOf (op : Op) (out : Outcome) : Effect :=
  match op, out with
  | CreateShoot _, _ => Created
  | DeleteShoot _, OFlag true => DeletedPending
  | DeleteEditedShoot _, OFlag true => DeletedEdited
  | MoveShootToEdited _, OEdited (Some _) => MovedToEdited
  | MoveEditedShootBack _, OShoot (Some _) => MovedBack
  | _, _ => NoChange
  end.

Section Traces.

Variable uuidAt : nat -> string.
Variable nowAt : nat -> string.

(** The effects of a sequence of calls, in order. *)
Fixpoint effects (ops : list Op) (w : World) : list Effect :=
  match ops with
  | [] => []
  | op :: rest =>
      let (out, w') := exec uuidAt nowAt op w in
      effectOf op out :: effects rest w'
  end.

End Traces.

(** How often [e] occurs. *)
Definition tally (e : Effect) (l : list Effect) : nat :=
  length (filter (fun x => x = e) l).

Section BackReferences.

Variable uuidAt : nat -> string.

(** Every originalShootId was handed out by an earlier [randomUUID()] and
    is the identifier of no record. *)
Definition Abandoned (w : World) : Prop :=
  forall o, o ∈ originalIds (docOf w) ->
    issuedBefore uuidAt (uuidCalls w) o /\ o ∉ idsOf (docOf w).

End BackReferences.

(** ** The list screens: sortedShoots and sortedEdits *)

Section Screens.

(** [new Date(s).getTime()]: milliseconds since the epoch, NaN ([None])
    for an Invalid Date. *)
Variable getTime : string -> JsInt.

(** [(a, b) => new Date(b.stamp).getTime() - new Date(a.stamp).getTime()] *)
Definition byNewest {A} (stamp : A -> string) (a b : A) : JsInt :=
  minus (getTime (stamp b)) (getTime (stamp a)).

Definition sortedShoots (l : list Shoot.t) : list Shoot.t :=
  sortBy (byNewest Shoot.date) l.

Definition sortedEdits (l : list EditedShoot.t) : list EditedShoot.t :=
  sortBy (byNewest EditedShoot.editedAt) l.

(** The stamp of [x] is a valid date. *)
Definition hasDate {A} (stamp : A -> string) (x : A) : Prop :=
  getTime (stamp x) <> None.

(** [a]'s stamp is not older than [b]'s, both being valid dates. *)
Definition notOlder {A} (stamp : A -> string) (a b : A) : Prop :=
  match getTime (stamp a), getTime (stamp b) with
  | Some ta, Some tb => (tb <= ta)%Z
  | _, _ => False
  end.

End Screens.

(** ** app/(tabs)/stats.tsx: the numbers of StatsScreen *)

Module StatsScreen.

Definition totalEarnings (l : list Shoot.t) : float :=
  fold_left (fun sum s => (sum + Shoot.price s)%float) l zero.

Definition totalShoots (l : list Shoot.t) : nat := length l.

End StatsScreen.

Module MonthRow.

(** The first line of a row, [`${stat.month.substring(0, 3)} ${stat.year}`]:
    [None] when [stat.month] is undefined, where [substring] throws. *)
Definition label (stat : MonthlyStats) : option string :=
  match month stat with
  | Some name =>
      Some (String.substring 0 3 name +:+ (" " +:+ numberToString (year stat)))
  | None => None
  end.

End MonthRow.

(** * The server at run time

    In the model above every value has the type schema.ts declares for
    it, the file system works, and what is written to the file is read
    back unchanged.  TypeScript's types are erased before the server
    runs, and neither storage.ts nor routes.ts checks any of the three.
    Here the two files are embedded once more without them: a field of a
    request body, and of a record made from it, is any JSON value;
    [writeData] stores what [JSON.stringify] writes; and
    [fs.writeFileSync] can throw.  A file that holds a document is taken
    to be one the store wrote. *)

Module Runtime.

(** A value as [JSON.parse] gives it. *)
#[local] Unset Elimination Schemes.
Inductive Json : Type :=
| VNull
| VBool (b : bool)
| VNum (x : float)
| VStr (s : string)
| VArr (items : list Json)
| VObj (fields : list (string * Json)).
#[local] Set Elimination Schemes.

(** A number written by [JSON.stringify] and read back by [JSON.parse]:
    NaN and the infinities are written as null, -0 as 0, and every other
    number in digits that read back as the same number. *)
Definition keptNumber (x : float) : Json :=
  if is_finite x
  then (if is_zero x && get_sign x then VNum zero else VNum x)
  else VNull.

(** [JSON.parse(JSON.stringify(v))] *)
Fixpoint throughJson (v : Json) : Json :=
  match v with
  | VNum x => keptNumber x
  | VArr items => VArr (map throughJson items)
  | VObj fields => VObj (map (fun kv => (fst kv, throughJson (snd kv))) fields)
  | VNull | VBool _ | VStr _ => v
  end.

(** The records of shared/schema.ts as the server holds them.  An id and
    a stamp are strings, made by [randomUUID()] and [toISOString()]; the
    other fields hold what the request body held. *)
Module Shoot.
Record t : Type := mk {
  id : string;
  modelName : Json;
  salonName : Json;
  date : Json;
  price : Json;
  createdAt : string;
  updatedAt : string;
}.
End Shoot.

Module EditedShoot.
Record t : Type := mk {
  id : string;
  originalShootId : string;
  modelName : Json;
  salonName : Json;
  date : Json;
  price : Json;
  createdAt : string;
  editedAt : string;
}.
End EditedShoot.

(** The object the routes build: its price is [Number(price)], a number. *)
Module ShootFormData.
Record t : Type := mk {
  modelName : Json;
  salonName : Json;
  date : Json;
  price : float;
}.
End ShootFormData.

Record DataStore : Type := mkData {
  shoots : list Shoot.t;
  editedShoots : list EditedShoot.t;
}.

Definition emptyData : DataStore := mkData [] [].

Definition shootThroughJson (s : Shoot.t) : Shoot.t :=
  Shoot.mk (Shoot.id s)
    (throughJson (Shoot.modelName s)) (throughJson (Shoot.salonName s))
    (throughJson (Shoot.date s)) (throughJson (Shoot.price s))
    (Shoot.createdAt s) (Shoot.updatedAt s).

Definition editedThroughJson (e : EditedShoot.t) : EditedShoot.t :=
  EditedShoot.mk (EditedShoot.id e) (EditedShoot.originalShootId e)
    (throughJson (EditedShoot.modelName e)) (throughJson (EditedShoot.salonName e))
    (throughJson (EditedShoot.date e)) (throughJson (EditedShoot.price e))
    (EditedShoot.createdAt e) (EditedShoot.editedAt e).

(** The document that [JSON.stringify(data, null, 2)] leaves in the file,
    as [JSON.parse] reads it. *)
Definition dataThroughJson (d : DataStore) : DataStore :=
  mkData (map shootThroughJson (shoots d)) (map editedThroughJson (editedShoots d)).

(** What is at [DATA_FILE]. *)
Inductive Content : Type :=
| NoFile                      (* fs.existsSync gives false *)
| Unparsable                  (* a text that JSON.parse rejects *)
| Holds (d : DataStore).      (* a text that parses to the document d *)

(** What a call of [fs.writeFileSync] on [DATA_FILE] does. *)
Inductive WriteOutcome : Type :=
| WriteOk                     (* it returns, the text is in the file *)
| WriteRefused                (* it throws, the file is as before *)
| WriteTorn.                  (* it throws, the file is left cut short *)

Inductive FsEvent : Type :=
| EvRead                      (* a call of readData *)
| EvWrite (d : DataStore).    (* a call of writeData, with its argument *)

(** [readable] and [writes] say what the file system does with a read
    and with a write of the file; no operation of the store changes
    them. *)
Record World : Type := mkWorld {
  content : Content;
  readable : bool;            (* fs.readFileSync returns the text *)
  writes : WriteOutcome;
  fsLog : list FsEvent;       (* calls of readData and writeData, oldest first *)
  uuidCalls : nat;            (* calls of randomUUID() so far *)
  clockReads : nat;           (* evaluations of new Date() so far *)
}.

Definition initialWorld : World := mkWorld NoFile true WriteOk [] 0 0.

Inductive Error : Type :=
| WriteFailed                 (* thrown by fs.writeFileSync *)
| NotPrimitive.               (* the TypeError of Number(v) on an object *)

Inductive Result (A : Type) : Type :=
| Returns (a : A)
| Throws (e : Error).

Arguments Returns {A} a.
Arguments Throws {A} e.

(** A computation of the server: it returns or throws, and changes the
    world as far as it got. *)
Definition IO (A : Type) : Type := World -> Result A * World.

Definition ret {A} (a : A) : IO A := fun w => (Returns a, w).

(** A value or an exception computed without touching the world. *)
Definition lift {A} (r : Result A) : IO A := fun w => (r, w).

Definition bind {A B} (m : IO A) (k : A -> IO B) : IO B :=
  fun w =>
    match m w with
    | (Returns a, w') => k a w'
    | (Throws e, w') => (Throws e, w')
    end.

Declare Scope rt_scope.
Delimit Scope rt_scope with rt.
Notation "x <- m ;; k" := (bind m (fun x => k))
  (at level 100, m at next level, right associativity) : rt_scope.
Notation "m ;;; k" := (bind m (fun _ => k))
  (at level 100, right associativity) : rt_scope.
#[local] Open Scope rt_scope.

Definition logged (ev : FsEvent) (w : World) : World :=
  mkWorld (content w) (readable w) (writes w) (fsLog w ++ [ev])
    (uuidCalls w) (clockReads w).

(** [existsSync] gives false; or [readFileSync] or [JSON.parse] throws
    and the exception is caught; or the document is returned. *)
Definition readData : IO DataStore := fun w =>
  let w' := logged EvRead w in
  match content w with
  | NoFile => (Returns emptyData, w')
  | Unparsable => (Returns emptyData, w')
  | Holds d =>
      if readable w then (Returns d, w')
      else (Returns emptyData, w')
  end.

(** The document the store works from in a world: what [readData] gives. *)
Definition docOf (w : World) : DataStore :=
  match content w with
  | NoFile => emptyData
  | Unparsable => emptyData
  | Holds d => if readable w then d else emptyData
  end.

(** The file after a call of [writeFileSync] with the text of [data]. *)
Definition contentAfterWrite (data : DataStore) (w : World) : Content :=
  match writes w with
  | WriteOk => Holds (dataThroughJson data)
  | WriteRefused => content w
  | WriteTorn => Unparsable
  end.

Definition writeData (data : DataStore) : IO unit := fun w =>
  let w' := mkWorld (contentAfterWrite data w) (readable w) (writes w)
              (fsLog w ++ [EvWrite data]) (uuidCalls w) (clockReads w) in
  match writes w with
  | WriteOk => (Returns tt, w')
  | WriteRefused | WriteTorn => (Throws WriteFailed, w')
  end.

(** The world after an operation that read the file, called
    [randomUUID()] and [new Date()] so many times and then called
    [writeData] with [d']; and what the operation gives: [a] when the
    write returned, the exception of the write when it threw. *)
Definition afterWrite (d' : DataStore) (uuids clocks : nat) (w : World) : World :=
  mkWorld (contentAfterWrite d' w) (readable w) (writes w)
    (fsLog w ++ [EvRead; EvWrite d']) (uuids + uuidCalls w) (clocks + clockReads w).

Definition whenWritten {A} (a : A) (w : World) : Result A :=
  match writes w with
  | WriteOk => Returns a
  | WriteRefused | WriteTorn => Throws WriteFailed
  end.

Definition hasId (i : string) (s : Shoot.t) : bool :=
  bool_decide (Shoot.id s = i).

Definition editedHasId (i : string) (e : EditedShoot.t) : bool :=
  bool_decide (EditedShoot.id e = i).

Section Store.

Variable uuidAt : nat -> string.
Variable nowAt : nat -> string.

Definition randomUUID : IO string := fun w =>
  (Returns (uuidAt (uuidCalls w)),
   mkWorld (content w) (readable w) (writes w) (fsLog w)
     (S (uuidCalls w)) (clockReads w)).

Definition nowISO : IO string := fun w =>
  (Returns (nowAt (clockReads w)),
   mkWorld (content w) (readable w) (writes w) (fsLog w)
     (uuidCalls w) (S (clockReads w))).

Definition getShoots : IO (list Shoot.t) :=
  data <- readData ;; ret (shoots data).

Definition getShootById (i : string) : IO (option Shoot.t) :=
  data <- readData ;; ret (find (hasId i) (shoots data)).

Definition createShoot (form : ShootFormData.t) : IO Shoot.t :=
  data <- readData ;;
  now <- nowISO ;;
  u <- randomUUID ;;
  let shoot := Shoot.mk u
                 (ShootFormData.modelName form) (ShootFormData.salonName form)
                 (ShootFormData.date form) (VNum (ShootFormData.price form))
                 now now in
  writeData (mkData (push (shoots data) shoot) (editedShoots data)) ;;;
  ret shoot.

Definition updateShoot (i : string) (form : ShootFormData.t)
  : IO (option Shoot.t) :=
  data <- readData ;;
  match findIndex (hasId i) (shoots data) with
  | None => ret None
  | Some (idx, old) =>
      now <- nowISO ;;
      let upd := Shoot.mk (Shoot.id old)
                   (ShootFormData.modelName form) (ShootFormData.salonName form)
                   (ShootFormData.date form) (VNum (ShootFormData.price form))
                   (Shoot.createdAt old) now in
      writeData (mkData (<[idx := upd]> (shoots data)) (editedShoots data)) ;;;
      ret (Some upd)
  end.

Definition deleteShoot (i : string) : IO bool :=
  data <- readData ;;
  match findIndex (hasId i) (shoots data) with
  | None => ret false
  | Some (idx, _) =>
      writeData (mkData (splice1 idx (shoots data)) (editedShoots data)) ;;;
      ret true
  end.

Definition moveShootToEdited (i : string) : IO (option EditedShoot.t) :=
  data <- readData ;;
  match findIndex (hasId i) (shoots data) with
  | None => ret None
  | Some (idx, shoot) =>
      let rest := splice1 idx (shoots data) in
      u <- randomUUID ;;
      now <- nowISO ;;
      let editedShoot := EditedShoot.mk u (Shoot.id shoot)
                           (Shoot.modelName shoot) (Shoot.salonName shoot)
                           (Shoot.date shoot) (Shoot.price shoot)
                           (Shoot.createdAt shoot) now in
      writeData (mkData rest (push (editedShoots data) editedShoot)) ;;;
      ret (Some editedShoot)
  end.

Definition getEditedShoots : IO (list EditedShoot.t) :=
  data <- readData ;; ret (editedShoots data).

Definition getEditedShootById (i : string) : IO (option EditedShoot.t) :=
  data <- readData ;; ret (find (editedHasId i) (editedShoots data)).

Definition updateEditedShoot (i : string) (form : ShootFormData.t)
  : IO (option EditedShoot.t) :=
  data <- readData ;;
  match findIndex (editedHasId i) (editedShoots data) with
  | None => ret None
  | Some (idx, old) =>
      now <- nowISO ;;
      let upd := EditedShoot.mk (EditedShoot.id old)
                   (EditedShoot.originalShootId old)
                   (ShootFormData.modelName form) (ShootFormData.salonName form)
                   (ShootFormData.date form) (VNum (ShootFormData.price form))
                   (EditedShoot.createdAt old) now in
      writeData (mkData (shoots data) (<[idx := upd]> (editedShoots data))) ;;;
      ret (Some upd)
  end.

Definition moveEditedShootBack (i : string) : IO (option Shoot.t) :=
  data <- readData ;;
  match findIndex (editedHasId i) (editedShoots data) with
  | None => ret None
  | Some (idx, edited) =>
      let rest := splice1 idx (editedShoots data) in
      u <- randomUUID ;;
      now <- nowISO ;;
      let shoot := Shoot.mk u
                     (EditedShoot.modelName edited) (EditedShoot.salonName edited)
                     (EditedShoot.date edited) (EditedShoot.price edited)
                     (EditedShoot.createdAt edited) now in
      writeData (mkData (push (shoots data) shoot) rest) ;;;
      ret (Some shoot)
  end.

Definition deleteEditedShoot (i : string) : IO bool :=
  data <- readData ;;
  match findIndex (editedHasId i) (editedShoots data) with
  | None => ret false
  | Some (idx, _) =>
      writeData (mkData (shoots data) (splice1 idx (editedShoots data))) ;;;
      ret true
  end.

End Store.

(** [req.body] after destructuring: each of the four properties is a JSON
    value, or undefined ([None]) when the body has no such property. *)
Record Body : Type := mkBody {
  body_modelName : option Json;
  body_salonName : option Json;
  body_date : option Json;
  body_price : option Json;
}.

Inductive Payload : Type :=
| PMessage (message : string)
| PShoot (s : Shoot.t)
| PEdited (e : EditedShoot.t)
| PShoots (l : list Shoot.t)
| PEditedShoots (l : list EditedShoot.t).

(** A status and the value handed to [res.json]. *)
Record Response : Type := mkResponse {
  status : nat;
  payload : Payload;
}.

(** [!x]: undefined, null, false, 0, -0, NaN and the empty string are
    falsy; every other value is truthy, an empty array or object too. *)
Definition falsy (x : option Json) : bool :=
  match x with
  | None => true
  | Some VNull => true
  | Some (VBool b) => negb b
  | Some (VNum n) => is_zero n || is_nan n
  | Some (VStr s) => bool_decide (s = "")
  | Some (VArr _) => false
  | Some (VObj _) => false
  end.

(** [x == null] *)
Definition looseNull (x : option Json) : bool :=
  match x with
  | None => true
  | Some VNull => true
  | Some _ => false
  end.

Definition fieldsMissing (b : Body) : bool :=
  falsy (body_modelName b) || falsy (body_salonName b)
  || falsy (body_date b) || looseNull (body_price b).

(** The value of a property that passed the check. *)
Definition present (x : option Json) : Json := default VNull x.

Section Routes.

Variable uuidAt : nat -> string.
Variable nowAt : nat -> string.

(** [Number(s)] on a string, and [Number(v)] on an array or object, as
    the runtime computes them; the second is [None] when the conversion
    to a primitive throws a TypeError. *)
Variable StringToNumber : string -> float.
Variable ObjectToNumber : Json -> option float.

Definition Number (x : option Json) : Result float :=
  match x with
  | None => Returns nan
  | Some VNull => Returns zero
  | Some (VBool true) => Returns one
  | Some (VBool false) => Returns zero
  | Some (VNum n) => Returns n
  | Some (VStr s) => Returns (StringToNumber s)
  | Some (VArr items) =>
      match ObjectToNumber (VArr items) with
      | Some n => Returns n
      | None => Throws NotPrimitive
      end
  | Some (VObj fields) =>
      match ObjectToNumber (VObj fields) with
      | Some n => Returns n
      | None => Throws NotPrimitive
      end
  end.

(** [{ modelName, salonName, date, price: Number(price) }] *)
Definition formOf (b : Body) : IO ShootFormData.t :=
  n <- lift (Number (body_price b)) ;;
  ret (ShootFormData.mk (present (body_modelName b)) (present (body_salonName b))
         (present (body_date b)) n).

Definition json (p : Payload) : Response := mkResponse 200 p.

Definition listShootsRoute : IO Response :=
  l <- getShoots ;; ret (json (PShoots l)).

Definition getShootRoute (i : string) : IO Response :=
  shoot <- getShootById i ;;
  match shoot with
  | None => ret (mkResponse 404 (PMessage "Shoot not found"))
  | Some s => ret (json (PShoot s))
  end.

Definition postShootRoute (b : Body) : IO Response :=
  if fieldsMissing b
  then ret (mkResponse 400 (PMessage "All fields are required"))
  else form <- formOf b ;;
       shoot <- createShoot uuidAt nowAt form ;;
       ret (mkResponse 201 (PShoot shoot)).

Definition putShootRoute (i : string) (b : Body) : IO Response :=
  if fieldsMissing b
  then ret (mkResponse 400 (PMessage "All fields are required"))
  else form <- formOf b ;;
       shoot <- updateShoot nowAt i form ;;
       match shoot with
       | None => ret (mkResponse 404 (PMessage "Shoot not found"))
       | Some s => ret (json (PShoot s))
       end.

Definition deleteShootRoute (i : string) : IO Response :=
  ok <- deleteShoot i ;;
  if ok : bool then ret (json (PMessage "Shoot deleted"))
  else ret (mkResponse 404 (PMessage "Shoot not found")).

Definition moveToEditedRoute (i : string) : IO Response :=
  edited <- moveShootToEdited uuidAt nowAt i ;;
  match edited with
  | None => ret (mkResponse 404 (PMessage "Shoot not found"))
  | Some e => ret (mkResponse 201 (PEdited e))
  end.

Definition listEditedRoute : IO Response :=
  l <- getEditedShoots ;; ret (json (PEditedShoots l)).

Definition putEditedRoute (i : string) (b : Body) : IO Response :=
  if fieldsMissing b
  then ret (mkResponse 400 (PMessage "All fields are required"))
  else form <- formOf b ;;
       edited <- updateEditedShoot nowAt i form ;;
       match edited with
       | None => ret (mkResponse 404 (PMessage "Edited shoot not found"))
       | Some e => ret (json (PEdited e))
       end.

Definition moveBackRoute (i : string) : IO Response :=
  shoot <- moveEditedShootBack uuidAt nowAt i ;;
  match shoot with
  | None => ret (mkResponse 404 (PMessage "Edited shoot not found"))
  | Some s => ret (mkResponse 201 (PShoot s))
  end.

Definition deleteEditedRoute (i : string) : IO Response :=
  ok <- deleteEditedShoot i ;;
  if ok : bool then ret (json (PMessage "Edited shoot deleted"))
  else ret (mkResponse 404 (PMessage "Edited shoot not found")).

End Routes.

Inductive Request : Type :=
| GET_shoots
| GET_shoot (i : string)
| POST_shoots (b : Body)
| PUT_shoot (i : string) (b : Body)
| DELETE_shoot (i : string)
| POST_shoot_move_to_edited (i : string)
| GET_edited_shoots
| PUT_edited_shoot (i : string) (b : Body)
| POST_edited_shoot_move_back (i : string)
| DELETE_edited_shoot (i : string).

Definition isGet (r : Request) : bool :=
  match r with
  | GET_shoots | GET_shoot _ | GET_edited_shoots => true
  | _ => false
  end.

(** The body a request carries. *)
Definition bodyOf (r : Request) : option Body :=
  match r with
  | POST_shoots b | PUT_shoot _ b | PUT_edited_shoot _ b => Some b
  | _ => None
  end.

(** The document a request that changed the store leaves behind: the one
    it read, with the change that the request and its answer tell. *)
Definition nextDocument (r : Request) (resp : Response) (d : DataStore)
  : option DataStore :=
  match r, payload resp with
  | POST_shoots _, PShoot s =>
      Some (mkData (shoots d ++ [s]) (editedShoots d))
  | PUT_shoot i _, PShoot s =>
      (fun hit : nat * Shoot.t =>
         mkData (<[fst hit := s]> (shoots d)) (editedShoots d))
      <$> findIndex (hasId i) (shoots d)
  | DELETE_shoot i, PMessage _ =>
      (fun hit : nat * Shoot.t =>
         mkData (delete (fst hit) (shoots d)) (editedShoots d))
      <$> findIndex (hasId i) (shoots d)
  | POST_shoot_move_to_edited i, PEdited e =>
      (fun hit : nat * Shoot.t =>
         mkData (delete (fst hit) (shoots d)) (editedShoots d ++ [e]))
      <$> findIndex (hasId i) (shoots d)
  | PUT_edited_shoot i _, PEdited e =>
      (fun hit : nat * EditedShoot.t =>
         mkData (shoots d) (<[fst hit := e]> (editedShoots d)))
      <$> findIndex (editedHasId i) (editedShoots d)
  | POST_edited_shoot_move_back i, PShoot s =>
      (fun hit : nat * EditedShoot.t =>
         mkData (shoots d ++ [s]) (delete (fst hit) (editedShoots d)))
      <$> findIndex (editedHasId i) (editedShoots d)
  | DELETE_edited_shoot i, PMessage _ =>
      (fun hit : nat * EditedShoot.t =>
         mkData (shoots d) (delete (fst hit) (editedShoots d)))
      <$> findIndex (editedHasId i) (editedShoots d)
  | _, _ => None
  end.

Section Server.

Variable uuidAt : nat -> string.
Variable nowAt : nat -> string.
Variable StringToNumber : string -> float.
Variable ObjectToNumber : Json -> option float.

Definition registerRoutes (r : Request) : IO Response :=
  match r with
  | GET_shoots => listShootsRoute
  | GET_shoot i => getShootRoute i
  | POST_shoots b => postShootRoute uuidAt nowAt StringToNumber ObjectToNumber b
  | PUT_shoot i b => putShootRoute nowAt StringToNumber ObjectToNumber i b
  | DELETE_shoot i => deleteShootRoute i
  | POST_shoot_move_to_edited i => moveToEditedRoute uuidAt nowAt i
  | GET_edited_shoots => listEditedRoute
  | PUT_edited_shoot i b => putEditedRoute nowAt StringToNumber ObjectToNumber i b
  | POST_edited_shoot_move_back i => moveBackRoute uuidAt nowAt i
  | DELETE_edited_shoot i => deleteEditedRoute i
  end.

End Server.

End Runtime.

(** ** The typed values among the run-time values

    A record, a form, a document and a world of the first embedding,
    taken as what they are at run time: a text is a JSON string, a price
    a JSON number, and every write succeeds.  The file that cannot be
    read of the first embedding is the one that cannot be read here. *)

Definition shootAtRuntime (s : Shoot.t) : Runtime.Shoot.t :=
  Runtime.Shoot.mk (Shoot.id s)
    (Runtime.VStr (Shoot.modelName s)) (Runtime.VStr (Shoot.salonName s))
    (Runtime.VStr (Shoot.date s)) (Runtime.VNum (Shoot.price s))
    (Shoot.createdAt s) (Shoot.updatedAt s).

Definition editedAtRuntime (e : EditedShoot.t) : Runtime.EditedShoot.t :=
  Runtime.EditedShoot.mk (EditedShoot.id e) (EditedShoot.originalShootId e)
    (Runtime.VStr (EditedShoot.modelName e)) (Runtime.VStr (EditedShoot.salonName e))
    (Runtime.VStr (EditedShoot.date e)) (Runtime.VNum (EditedShoot.price e))
    (EditedShoot.createdAt e) (EditedShoot.editedAt e).

Definition formAtRuntime (form : ShootFormData.t) : Runtime.ShootFormData.t :=
  Runtime.ShootFormData.mk
    (Runtime.VStr (ShootFormData.modelName form))
    (Runtime.VStr (ShootFormData.salonName form))
    (Runtime.VStr (ShootFormData.date form)) (ShootFormData.price form).

Definition dataAtRuntime (d : DataStore) : Runtime.DataStore :=
  Runtime.mkData (map shootAtRuntime (shoots d)) (map editedAtRuntime (editedShoots d)).

Definition eventAtRuntime (ev : FsEvent) : Runtime.FsEvent :=
  match ev with
  | EvRead => Runtime.EvRead
  | EvWrite d => Runtime.EvWrite (dataAtRuntime d)
  end.

Definition contentAtRuntime (f : FileState) : Runtime.Content :=
  match f with
  | NoFile => Runtime.NoFile
  | ReadFails => Runtime.Unparsable     (* not seen: the read fails *)
  | ParseFails => Runtime.Unparsable
  | Stored d => Runtime.Holds (dataAtRuntime d)
  end.

Definition readableAtRuntime (f : FileState) : bool :=
  match f with
  | ReadFails => false
  | _ => true
  end.

Definition worldAtRuntime (w : World) : Runtime.World :=
  Runtime.mkWorld (contentAtRuntime (file w)) (readableAtRuntime (file w))
    Runtime.WriteOk (map eventAtRuntime (fsLog w)) (uuidCalls w) (clockReads w).

(** A call in the run-time embedding returns what the call in the first
    embedding returns, and leaves the world that call leaves. *)
Definition agrees {A B} (atRuntime : A -> B)
    (typed : A * World) (run : Runtime.Result B * Runtime.World) : Prop :=
  run = (Runtime.Returns (atRuntime (fst typed)), worldAtRuntime (snd typed)).

(** * Properties *)

(** ** Array helpers *)

Lemma findIndex_hasId_Some (i : string) (l : list Shoot.t) idx s :
  findIndex (hasId i) l = Some (idx, s) ->
  l !! idx = Some s /\ Shoot.id s = i.
Proof.
  unfold findIndex. intros H. apply list_find_Some in H as (Hl & Hp & _).
  split; [done|]. unfold hasId in Hp. by apply bool_decide_eq_true in Hp.
Qed.

Lemma findIndex_hasId_None (i : string) (l : list Shoot.t) :
  findIndex (hasId i) l = None <-> i ∉ map Shoot.id l.
Proof.
  unfold findIndex. rewrite list_find_None, Forall_forall. split.
  - intros H Hin. apply list_elem_of_fmap in Hin as (s & -> & Hs).
    apply (H s Hs). unfold hasId. by apply bool_decide_eq_true.
  - intros H s Hs Hp. apply H. apply list_elem_of_fmap. exists s. split; [|done].
    unfold hasId in Hp. by apply bool_decide_eq_true in Hp.
Qed.

Lemma findIndex_hasId_is_Some (i : string) (l : list Shoot.t) :
  i ∈ map Shoot.id l -> exists idx s, findIndex (hasId i) l = Some (idx, s).
Proof.
  intros Hin. destruct (findIndex (hasId i) l) as [[idx s]|] eqn:E; [eauto|].
  apply findIndex_hasId_None in E. done.
Qed.

Lemma findIndex_editedHasId_Some (i : string) (l : list EditedShoot.t) idx e :
  findIndex (editedHasId i) l = Some (idx, e) ->
  l !! idx = Some e /\ EditedShoot.id e = i.
Proof.
  unfold findIndex. intros H. apply list_find_Some in H as (Hl & Hp & _).
  split; [done|]. unfold editedHasId in Hp. by apply bool_decide_eq_true in Hp.
Qed.

Lemma findIndex_editedHasId_None (i : string) (l : list EditedShoot.t) :
  findIndex (editedHasId i) l = None <-> i ∉ map EditedShoot.id l.
Proof.
  unfold findIndex. rewrite list_find_None, Forall_forall. split.
  - intros H Hin. apply list_elem_of_fmap in Hin as (s & -> & Hs).
    apply (H s Hs). unfold editedHasId. by apply bool_decide_eq_true.
  - intros H s Hs Hp. apply H. apply list_elem_of_fmap. exists s. split; [|done].
    unfold editedHasId in Hp. by apply bool_decide_eq_true in Hp.
Qed.

Lemma findIndex_editedHasId_is_Some (i : string) (l : list EditedShoot.t) :
  i ∈ map EditedShoot.id l ->
  exists idx e, findIndex (editedHasId i) l = Some (idx, e).
Proof.
  intros Hin. destruct (findIndex (editedHasId i) l) as [[idx e]|] eqn:E; [eauto|].
  apply findIndex_editedHasId_None in E. done.
Qed.

Lemma find_None {A} (p : A -> bool) (l : list A) :
  find p l = None <-> findIndex p l = None.
Proof. unfold find. destruct (findIndex p l); simpl; split; congruence. Qed.

(** Taking the element at [idx] out of a list with pairwise different keys
    leaves no element with its key. *)
Lemma key_gone_after_delete {A} (key : A -> string) (l : list A) idx x :
  NoDup (map key l) -> l !! idx = Some x -> key x ∉ map key (delete idx l).
Proof.
  intros Hnd Hl.
  rewrite <- (take_drop_middle l idx x Hl) in Hnd.
  rewrite delete_take_drop.
  rewrite map_app in Hnd. simpl in Hnd.
  apply NoDup_app in Hnd as (_ & Hdisj & Hnd2).
  apply NoDup_cons in Hnd2 as (Hnot & _).
  rewrite map_app. intros Hin. apply elem_of_app in Hin as [Hin|Hin].
  - apply (Hdisj _ Hin). left.
  - done.
Qed.

(** ** Reading the document *)

Lemma readData_docOf (w : World) : readData w = (docOf w, afterRead w).
Proof. unfold readData, docOf, afterRead. by destruct (file w). Qed.

(** ** Moving a record to the Edited bucket *)

(** What [moveShootToEdited] does on a hit and on a miss, written out. *)
Lemma moveShootToEdited_hit uuidAt nowAt (w : World) (i : string) idx s :
  findIndex (hasId i) (shoots (docOf w)) = Some (idx, s) ->
  let e := EditedShoot.mk (uuidAt (uuidCalls w)) (Shoot.id s)
             (Shoot.modelName s) (Shoot.salonName s) (Shoot.date s)
             (Shoot.price s) (Shoot.createdAt s) (nowAt (clockReads w)) in
  moveShootToEdited uuidAt nowAt i w
  = (Some e,
     afterWrite (mkData (delete idx (shoots (docOf w)))
                   (editedShoots (docOf w) ++ [e])) 1 1 w).
Proof.
  intros H. unfold moveShootToEdited, bind, afterWrite. rewrite readData_docOf, H.
  simpl. by rewrite <- app_assoc.
Qed.

Lemma moveShootToEdited_miss uuidAt nowAt (w : World) (i : string) :
  findIndex (hasId i) (shoots (docOf w)) = None ->
  moveShootToEdited uuidAt nowAt i w = (None, afterRead w).
Proof.
  intros H. unfold moveShootToEdited, bind. by rewrite readData_docOf, H.
Qed.

Lemma getShootById_result (w : World) (i : string) :
  fst (getShootById i w) = find (hasId i) (shoots (docOf w)).
Proof. unfold getShootById, bind. by rewrite readData_docOf. Qed.

(** C1. In a store whose Pending identifiers are pairwise different,
    [moveShootToEdited i] on an [i] present in Pending takes the Shoot with
    that id out of Pending and appends exactly one EditedShoot to Edited;
    the new record has the Shoot's modelName, salonName, date, price and
    createdAt, its originalShootId is the Shoot's id, its editedAt is the
    time read during the call, and afterwards [getShootById i] finds
    nothing. *)
Theorem moveToEdited_moves_the_record uuidAt nowAt (w : World) (i : string) :
  NoDup (pendingIds (docOf w)) ->
  i ∈ pendingIds (docOf w) ->
  exists idx s e w',
    moveShootToEdited uuidAt nowAt i w = (Some e, w')
    /\ shoots (docOf w) !! idx = Some s
    /\ Shoot.id s = i
    /\ shoots (docOf w') = delete idx (shoots (docOf w))
    /\ (i ∉ pendingIds (docOf w'))
    /\ editedShoots (docOf w') = editedShoots (docOf w) ++ [e]
    /\ EditedShoot.modelName e = Shoot.modelName s
    /\ EditedShoot.salonName e = Shoot.salonName s
    /\ EditedShoot.date e = Shoot.date s
    /\ EditedShoot.price e = Shoot.price s
    /\ EditedShoot.createdAt e = Shoot.createdAt s
    /\ EditedShoot.originalShootId e = Shoot.id s
    /\ EditedShoot.editedAt e = nowAt (clockReads w)
    /\ fst (getShootById i w') = None.
Proof.
  intros Hnd Hin.
  destruct (findIndex_hasId_is_Some i _ Hin) as (idx & s & Hfind).
  destruct (findIndex_hasId_Some _ _ _ _ Hfind) as [Hl Hid].
  pose proof (key_gone_after_delete Shoot.id _ idx s Hnd Hl) as Hgone.
  rewrite Hid in Hgone.
  eexists idx, s, _, _. split; [by apply moveShootToEdited_hit|].
  repeat split; try done.
  rewrite getShootById_result. simpl.
  apply find_None, findIndex_hasId_None. done.
Qed.

Lemma moveToEdited_moves_the_record_witness :
  let w := mkWorld
    (Stored (mkData [Shoot.mk "a" "Ava" "Luxe" "2024-03-01" 150 "t0" "t0";
                     Shoot.mk "b" "Bea" "Chic" "2024-03-02" 90 "t1" "t1"] []))
    [] 2 2 in
  exists idx s e w',
    moveShootToEdited (fun k => pretty k) (fun _ => "t2") "a" w = (Some e, w')
    /\ shoots (docOf w) !! idx = Some s
    /\ Shoot.id s = "a"
    /\ shoots (docOf w') = delete idx (shoots (docOf w))
    /\ ("a" ∉ pendingIds (docOf w'))
    /\ editedShoots (docOf w') = editedShoots (docOf w) ++ [e]
    /\ EditedShoot.modelName e = Shoot.modelName s
    /\ EditedShoot.salonName e = Shoot.salonName s
    /\ EditedShoot.date e = Shoot.date s
    /\ EditedShoot.price e = Shoot.price s
    /\ EditedShoot.createdAt e = Shoot.createdAt s
    /\ EditedShoot.originalShootId e = Shoot.id s
    /\ EditedShoot.editedAt e = "t2"
    /\ fst (getShootById "a" w') = None.
Proof.
  intros w. apply (moveToEdited_moves_the_record (fun k => pretty k) (fun _ => "t2") w "a").
  - refine (bool_decide_unpack _ _). vm_compute. exact I.
  - refine (bool_decide_unpack _ _). vm_compute. exact I.
Defined.

(** ** Every operation, written out on a hit and on a miss *)

Lemma createShoot_spec uuidAt nowAt (w : World) (form : ShootFormData.t) :
  let s := Shoot.mk (uuidAt (uuidCalls w))
             (ShootFormData.modelName form) (ShootFormData.salonName form)
             (ShootFormData.date form) (ShootFormData.price form)
             (nowAt (clockReads w)) (nowAt (clockReads w)) in
  createShoot uuidAt nowAt form w
  = (s, afterWrite (mkData (shoots (docOf w) ++ [s]) (editedShoots (docOf w)))
          1 1 w).
Proof.
  unfold createShoot, bind, afterWrite. rewrite readData_docOf.
  simpl. by rewrite <- app_assoc.
Qed.

Lemma updateShoot_hit nowAt (w : World) (i : string) form idx old :
  findIndex (hasId i) (shoots (docOf w)) = Some (idx, old) ->
  let upd := Shoot.mk (Shoot.id old)
               (ShootFormData.modelName form) (ShootFormData.salonName form)
               (ShootFormData.date form) (ShootFormData.price form)
               (Shoot.createdAt old) (nowAt (clockReads w)) in
  updateShoot nowAt i form w
  = (Some upd,
     afterWrite (mkData (<[idx := upd]> (shoots (docOf w))) (editedShoots (docOf w)))
       0 1 w).
Proof.
  intros H. unfold updateShoot, bind, afterWrite. rewrite readData_docOf, H.
  simpl. by rewrite <- app_assoc.
Qed.

Lemma updateShoot_miss nowAt (w : World) (i : string) form :
  findIndex (hasId i) (shoots (docOf w)) = None ->
  updateShoot nowAt i form w = (None, afterRead w).
Proof. intros H. unfold updateShoot, bind. by rewrite readData_docOf, H. Qed.

Lemma deleteShoot_hit (w : World) (i : string) idx s :
  findIndex (hasId i) (shoots (docOf w)) = Some (idx, s) ->
  deleteShoot i w
  = (true,
     afterWrite (mkData (delete idx (shoots (docOf w))) (editedShoots (docOf w)))
       0 0 w).
Proof.
  intros H. unfold deleteShoot, bind, afterWrite. rewrite readData_docOf, H.
  simpl. by rewrite <- app_assoc.
Qed.

Lemma deleteShoot_miss (w : World) (i : string) :
  findIndex (hasId i) (shoots (docOf w)) = None ->
  deleteShoot i w = (false, afterRead w).
Proof. intros H. unfold deleteShoot, bind. by rewrite readData_docOf, H. Qed.

Lemma updateEditedShoot_hit nowAt (w : World) (i : string) form idx old :
  findIndex (editedHasId i) (editedShoots (docOf w)) = Some (idx, old) ->
  let upd := EditedShoot.mk (EditedShoot.id old) (EditedShoot.originalShootId old)
               (ShootFormData.modelName form) (ShootFormData.salonName form)
               (ShootFormData.date form) (ShootFormData.price form)
               (EditedShoot.createdAt old) (nowAt (clockReads w)) in
  updateEditedShoot nowAt i form w
  = (Some upd,
     afterWrite (mkData (shoots (docOf w)) (<[idx := upd]> (editedShoots (docOf w))))
       0 1 w).
Proof.
  intros H. unfold updateEditedShoot, bind, afterWrite. rewrite readData_docOf, H.
  simpl. by rewrite <- app_assoc.
Qed.

Lemma updateEditedShoot_miss nowAt (w : World) (i : string) form :
  findIndex (editedHasId i) (editedShoots (docOf w)) = None ->
  updateEditedShoot nowAt i form w = (None, afterRead w).
Proof. intros H. unfold updateEditedShoot, bind. by rewrite readData_docOf, H. Qed.

Lemma moveEditedShootBack_hit uuidAt nowAt (w : World) (i : string) idx e :
  findIndex (editedHasId i) (editedShoots (docOf w)) = Some (idx, e) ->
  let s := Shoot.mk (uuidAt (uuidCalls w))
             (EditedShoot.modelName e) (EditedShoot.salonName e)
             (EditedShoot.date e) (EditedShoot.price e)
             (EditedShoot.createdAt e) (nowAt (clockReads w)) in
  moveEditedShootBack uuidAt nowAt i w
  = (Some s,
     afterWrite (mkData (shoots (docOf w) ++ [s])
                   (delete idx (editedShoots (docOf w)))) 1 1 w).
Proof.
  intros H. unfold moveEditedShootBack, bind, afterWrite.
  rewrite readData_docOf, H. simpl. by rewrite <- app_assoc.
Qed.

Lemma moveEditedShootBack_miss uuidAt nowAt (w : World) (i : string) :
  findIndex (editedHasId i) (editedShoots (docOf w)) = None ->
  moveEditedShootBack uuidAt nowAt i w = (None, afterRead w).
Proof. intros H. unfold moveEditedShootBack, bind. by rewrite readData_docOf, H. Qed.

Lemma deleteEditedShoot_hit (w : World) (i : string) idx e :
  findIndex (editedHasId i) (editedShoots (docOf w)) = Some (idx, e) ->
  deleteEditedShoot i w
  = (true,
     afterWrite (mkData (shoots (docOf w)) (delete idx (editedShoots (docOf w))))
       0 0 w).
Proof.
  intros H. unfold deleteEditedShoot, bind, afterWrite. rewrite readData_docOf, H.
  simpl. by rewrite <- app_assoc.
Qed.

Lemma deleteEditedShoot_miss (w : World) (i : string) :
  findIndex (editedHasId i) (editedShoots (docOf w)) = None ->
  deleteEditedShoot i w = (false, afterRead w).
Proof. intros H. unfold deleteEditedShoot, bind. by rewrite readData_docOf, H. Qed.

Lemma getShoots_spec (w : World) :
  getShoots w = (shoots (docOf w), afterRead w).
Proof. unfold getShoots, bind. by rewrite readData_docOf. Qed.

Lemma getShootById_spec (w : World) (i : string) :
  getShootById i w = (find (hasId i) (shoots (docOf w)), afterRead w).
Proof. unfold getShootById, bind. by rewrite readData_docOf. Qed.

Lemma getEditedShoots_spec (w : World) :
  getEditedShoots w = (editedShoots (docOf w), afterRead w).
Proof. unfold getEditedShoots, bind. by rewrite readData_docOf. Qed.

Lemma getEditedShootById_spec (w : World) (i : string) :
  getEditedShootById i w
  = (find (editedHasId i) (editedShoots (docOf w)), afterRead w).
Proof. unfold getEditedShootById, bind. by rewrite readData_docOf. Qed.

Lemma docOf_afterWrite d' a b (w : World) : docOf (afterWrite d' a b w) = d'.
Proof. done. Qed.

(** ** Creating a record and reading it back *)

Lemma find_pushed (i : string) (l : list Shoot.t) (s : Shoot.t) :
  i ∉ map Shoot.id l -> Shoot.id s = i -> find (hasId i) (l ++ [s]) = Some s.
Proof.
  intros Hfresh Hid. unfold find, findIndex.
  rewrite list_find_app_r by (by apply findIndex_hasId_None).
  simpl. rewrite decide_True; [done|].
  unfold hasId. by apply bool_decide_eq_true.
Qed.

Lemma valid_price_equals_itself (p : float) :
  validPrice p = true -> (p =? p)%float = true.
Proof.
  unfold validPrice, is_finite, is_nan. intros H.
  apply andb_true_iff in H as [H _].
  apply negb_true_iff, orb_false_iff in H as [H _].
  by apply negb_false_iff in H.
Qed.

(** C6. For a form with a valid price, and a store in which the identifier
    [randomUUID()] hands out is not yet used in Pending, [createShoot]
    followed by [getShootById] on the returned id finds a record with the
    form's modelName, salonName, date and price, whose createdAt equals its
    updatedAt. *)
Theorem create_then_get uuidAt nowAt (w : World) (form : ShootFormData.t) :
  validPrice (ShootFormData.price form) = true ->
  uuidAt (uuidCalls w) ∉ pendingIds (docOf w) ->
  exists s w1 r,
    createShoot uuidAt nowAt form w = (s, w1)
    /\ fst (getShootById (Shoot.id s) w1) = Some r
    /\ Shoot.modelName r = ShootFormData.modelName form
    /\ Shoot.salonName r = ShootFormData.salonName form
    /\ Shoot.date r = ShootFormData.date form
    /\ (Shoot.price r =? ShootFormData.price form)%float = true
    /\ Shoot.createdAt r = Shoot.updatedAt r.
Proof.
  intros Hvalid Hfresh.
  eexists _, _, _. split; [apply createShoot_spec|].
  rewrite getShootById_spec. simpl.
  split; [by apply find_pushed|].
  repeat split. simpl. by apply valid_price_equals_itself.
Qed.

Lemma create_then_get_witness :
  exists s w1 r,
    createShoot (fun k => pretty k) (fun _ => "2024-03-01T09:00:00.000Z")
      (ShootFormData.mk "Ava" "Luxe" "2024-03-01" 150) initialWorld = (s, w1)
    /\ fst (getShootById (Shoot.id s) w1) = Some r
    /\ Shoot.modelName r = "Ava"
    /\ Shoot.salonName r = "Luxe"
    /\ Shoot.date r = "2024-03-01"
    /\ (Shoot.price r =? 150)%float = true
    /\ Shoot.createdAt r = Shoot.updatedAt r.
Proof.
  apply (create_then_get (fun k => pretty k) (fun _ => "2024-03-01T09:00:00.000Z")
           initialWorld (ShootFormData.mk "Ava" "Luxe" "2024-03-01" 150)).
  - reflexivity.
  - refine (bool_decide_unpack _ _). vm_compute. exact I.
Defined.

(** ** Misses write nothing, hits write once *)

Ltac by_findIndex_shoots w i :=
  let E := fresh "E" in
  destruct (findIndex (hasId i) (shoots (docOf w))) as [[? ?]|] eqn:E.

Ltac by_findIndex_edited w i :=
  let E := fresh "E" in
  destruct (findIndex (editedHasId i) (editedShoots (docOf w))) as [[? ?]|] eqn:E.

(** C4. For a mutating operation: when its id is absent from the bucket it
    targets, it reports not-found, the file is left as it was and the only
    file access is the read; when its id is present it does not report
    not-found.  When it does not report not-found, it reads once and then
    calls [writeData] once, with the whole next document: the document it
    read with the one change made, a moved record taken out of one bucket
    and put into the other in the same document.  That document is what
    the file then holds, when the file could be read or was absent or
    unparsable before, and every price in the document is one JSON holds
    exactly. *)
Theorem miss_writes_nothing_hit_writes_once uuidAt nowAt
    (w w' : World) (op : Op) (out : Outcome) :
  mutating op = true ->
  exec uuidAt nowAt op w = (out, w') ->
  (forall i ids, targetIds op (docOf w) = Some (i, ids) -> i ∉ ids ->
     notFound out = true
     /\ w' = mkWorld (file w) (fsLog w ++ [EvRead]) (uuidCalls w) (clockReads w))
  /\ (forall i ids, targetIds op (docOf w) = Some (i, ids) -> i ∈ ids ->
        notFound out = false)
  /\ (notFound out = false ->
      exists d',
        nextDocument op out (docOf w) = Some d'
        /\ fsLog w' = fsLog w ++ [EvRead; EvWrite d']
        /\ (file w <> ReadFails -> exactPrices d' = true -> file w' = Stored d')).
Proof.
  intros Hmut Hexec. destruct op; try discriminate Hmut; clear Hmut;
    simpl in Hexec; unfold bind in Hexec.
  - (* createShoot *)
    rewrite createShoot_spec in Hexec. injection Hexec as <- <-.
    split; [intros ? ? [=]|]. split; [intros ? ? [=]|].
    intros _. by eexists.
  - (* updateShoot *)
    by_findIndex_shoots w i.
    + rewrite (updateShoot_hit _ _ _ _ _ _ E) in Hexec. injection Hexec as <- <-.
      split; [|split; [done|]].
      * intros ? ? [= <- <-] Hno.
        by apply findIndex_hasId_None in Hno; rewrite Hno in E.
      * intros _. simpl. rewrite E. by eexists.
    + rewrite (updateShoot_miss _ _ _ _ E) in Hexec. injection Hexec as <- <-.
      split; [done|]. split; [|intros [=]].
      intros ? ? [= <- <-] Hin. by apply findIndex_hasId_None in E.
  - (* deleteShoot *)
    by_findIndex_shoots w i.
    + rewrite (deleteShoot_hit _ _ _ _ E) in Hexec. injection Hexec as <- <-.
      split; [|split; [done|]].
      * intros ? ? [= <- <-] Hno.
        by apply findIndex_hasId_None in Hno; rewrite Hno in E.
      * intros _. simpl. rewrite E. by eexists.
    + rewrite (deleteShoot_miss _ _ E) in Hexec. injection Hexec as <- <-.
      split; [done|]. split; [|intros [=]].
      intros ? ? [= <- <-] Hin. by apply findIndex_hasId_None in E.
  - (* moveShootToEdited *)
    by_findIndex_shoots w i.
    + rewrite (moveShootToEdited_hit _ _ _ _ _ _ E) in Hexec.
      injection Hexec as <- <-.
      split; [|split; [done|]].
      * intros ? ? [= <- <-] Hno.
        by apply findIndex_hasId_None in Hno; rewrite Hno in E.
      * intros _. simpl. rewrite E. by eexists.
    + rewrite (moveShootToEdited_miss _ _ _ _ E) in Hexec. injection Hexec as <- <-.
      split; [done|]. split; [|intros [=]].
      intros ? ? [= <- <-] Hin. by apply findIndex_hasId_None in E.
  - (* updateEditedShoot *)
    by_findIndex_edited w i.
    + rewrite (updateEditedShoot_hit _ _ _ _ _ _ E) in Hexec.
      injection Hexec as <- <-.
      split; [|split; [done|]].
      * intros ? ? [= <- <-] Hno.
        by apply findIndex_editedHasId_None in Hno; rewrite Hno in E.
      * intros _. simpl. rewrite E. by eexists.
    + rewrite (updateEditedShoot_miss _ _ _ _ E) in Hexec. injection Hexec as <- <-.
      split; [done|]. split; [|intros [=]].
      intros ? ? [= <- <-] Hin. by apply findIndex_editedHasId_None in E.
  - (* moveEditedShootBack *)
    by_findIndex_edited w i.
    + rewrite (moveEditedShootBack_hit _ _ _ _ _ _ E) in Hexec.
      injection Hexec as <- <-.
      split; [|split; [done|]].
      * intros ? ? [= <- <-] Hno.
        by apply findIndex_editedHasId_None in Hno; rewrite Hno in E.
      * intros _. simpl. rewrite E. by eexists.
    + rewrite (moveEditedShootBack_miss _ _ _ _ E) in Hexec.
      injection Hexec as <- <-.
      split; [done|]. split; [|intros [=]].
      intros ? ? [= <- <-] Hin. by apply findIndex_editedHasId_None in E.
  - (* deleteEditedShoot *)
    by_findIndex_edited w i.
    + rewrite (deleteEditedShoot_hit _ _ _ _ E) in Hexec. injection Hexec as <- <-.
      split; [|split; [done|]].
      * intros ? ? [= <- <-] Hno.
        by apply findIndex_editedHasId_None in Hno; rewrite Hno in E.
      * intros _. simpl. rewrite E. by eexists.
    + rewrite (deleteEditedShoot_miss _ _ E) in Hexec. injection Hexec as <- <-.
      split; [done|]. split; [|intros [=]].
      intros ? ? [= <- <-] Hin. by apply findIndex_editedHasId_None in E.
Qed.

Lemma miss_writes_nothing_hit_writes_once_witness :
  let a := Shoot.mk "a" "Ava" "Luxe" "2024-03-01" 150 "t0" "t0" in
  let b := Shoot.mk "b" "Bea" "Chic" "2024-03-02" 90 "t0" "t0" in
  let w := mkWorld (Stored (mkData [a; b] [])) [] 2 1 in
  let e := EditedShoot.mk "2" "a" "Ava" "Luxe" "2024-03-01" 150 "t0" "t1" in
  let d' := mkData [b] [e] in
  let w' := mkWorld (Stored d') [EvRead; EvWrite d'] 3 2 in
  notFound (OEdited (Some e)) = false
  /\ exists d,
       nextDocument (MoveShootToEdited "a") (OEdited (Some e)) (docOf w) = Some d
       /\ fsLog w' = fsLog w ++ [EvRead; EvWrite d]
       /\ (file w <> ReadFails -> exactPrices d = true -> file w' = Stored d).
Proof.
  intros a b w e d' w'.
  pose proof (miss_writes_nothing_hit_writes_once (fun k => pretty k) (fun _ => "t1")
                w w' (MoveShootToEdited "a") (OEdited (Some e))
                eq_refl eq_refl) as (_ & Hhit & Hwrite).
  split; [|exact (Hwrite eq_refl)].
  apply (Hhit "a" ["a"; "b"] eq_refl).
  refine (bool_decide_unpack _ _). vm_compute. exact I.
Defined.

(** ** Updates and reads *)

(** C7, as stated, fails: the new updatedAt is whatever the clock reads
    during the update, and that reading need not be later than the stored
    one.  Here a Shoot is created and updated while the clock shows the
    same millisecond; the update succeeds and updatedAt is not later than
    before. *)
Lemma update_within_one_clock_reading_is_not_later :
  let nowAt := fun _ : nat => "2024-03-01T09:00:00.000Z" in
  let uuidAt := fun k : nat => pretty k in
  let w1 := snd (createShoot uuidAt nowAt
                   (ShootFormData.mk "Ava" "Luxe" "2024-03-01" 150) initialWorld) in
  exists old upd w2,
    find (hasId "0") (shoots (docOf w1)) = Some old
    /\ updateShoot nowAt "0" (ShootFormData.mk "Ava" "Luxe" "2024-03-01" 175) w1
       = (Some upd, w2)
    /\ Shoot.updatedAt old = "2024-03-01T09:00:00.000Z"
    /\ Shoot.updatedAt upd = "2024-03-01T09:00:00.000Z"
    /\ ~ laterThan (Shoot.updatedAt upd) (Shoot.updatedAt old).
Proof.
  intros nowAt uuidAt w1. eexists _, _, _.
  split; [vm_compute; reflexivity|].
  split; [vm_compute; reflexivity|].
  split; [reflexivity|]. split; [reflexivity|].
  unfold laterThan. simpl. vm_compute. discriminate.
Qed.

(** C7, amended.  On a record present in its bucket, [updateShoot] and
    [updateEditedShoot] return the record with modelName, salonName, date
    and price replaced by the form's, updatedAt (editedAt) set to the time
    read during the call, and id and createdAt (and originalShootId) kept;
    the stamp is later than before exactly when that clock reading is
    later than the stored stamp.  The document handed to [writeData] is
    the one read with that record in the place of the old one, and
    nothing else changed.  When the form's price is a number that JSON
    holds exactly, this is the document the file then holds.  Operations
    that only read leave the file as it was. *)
Theorem update_replaces_form_fields_and_stamp uuidAt nowAt
    (w : World) (i : string) (form : ShootFormData.t) :
  (i ∈ pendingIds (docOf w) ->
   exists idx old upd w',
     updateShoot nowAt i form w = (Some upd, w')
     /\ shoots (docOf w) !! idx = Some old
     /\ Shoot.id old = i
     /\ Shoot.id upd = Shoot.id old
     /\ Shoot.createdAt upd = Shoot.createdAt old
     /\ Shoot.modelName upd = ShootFormData.modelName form
     /\ Shoot.salonName upd = ShootFormData.salonName form
     /\ Shoot.date upd = ShootFormData.date form
     /\ Shoot.price upd = ShootFormData.price form
     /\ Shoot.updatedAt upd = nowAt (clockReads w)
     /\ (laterThan (Shoot.updatedAt upd) (Shoot.updatedAt old)
         <-> laterThan (nowAt (clockReads w)) (Shoot.updatedAt old))
     /\ fsLog w'
        = fsLog w
          ++ [EvRead;
              EvWrite (mkData (<[idx := upd]> (shoots (docOf w)))
                         (editedShoots (docOf w)))]
     /\ (jsonExact (ShootFormData.price form) = true ->
         shoots (docOf w') = <[idx := upd]> (shoots (docOf w))
         /\ editedShoots (docOf w') = editedShoots (docOf w)))
  /\ (i ∈ editedIds (docOf w) ->
      exists idx old upd w',
        updateEditedShoot nowAt i form w = (Some upd, w')
        /\ editedShoots (docOf w) !! idx = Some old
        /\ EditedShoot.id old = i
        /\ EditedShoot.id upd = EditedShoot.id old
        /\ EditedShoot.originalShootId upd = EditedShoot.originalShootId old
        /\ EditedShoot.createdAt upd = EditedShoot.createdAt old
        /\ EditedShoot.modelName upd = ShootFormData.modelName form
        /\ EditedShoot.salonName upd = ShootFormData.salonName form
        /\ EditedShoot.date upd = ShootFormData.date form
        /\ EditedShoot.price upd = ShootFormData.price form
        /\ EditedShoot.editedAt upd = nowAt (clockReads w)
        /\ (laterThan (EditedShoot.editedAt upd) (EditedShoot.editedAt old)
            <-> laterThan (nowAt (clockReads w)) (EditedShoot.editedAt old))
        /\ fsLog w'
           = fsLog w
             ++ [EvRead;
                 EvWrite (mkData (shoots (docOf w))
                            (<[idx := upd]> (editedShoots (docOf w))))]
        /\ (jsonExact (ShootFormData.price form) = true ->
            editedShoots (docOf w') = <[idx := upd]> (editedShoots (docOf w))
            /\ shoots (docOf w') = shoots (docOf w)))
  /\ (forall op, mutating op = false ->
        file (snd (exec uuidAt nowAt op w)) = file w
        /\ uuidCalls (snd (exec uuidAt nowAt op w)) = uuidCalls w
        /\ clockReads (snd (exec uuidAt nowAt op w)) = clockReads w).
Proof.
  split; [|split].
  - intros Hin.
    destruct (findIndex_hasId_is_Some i _ Hin) as (idx & old & Hfind).
    destruct (findIndex_hasId_Some _ _ _ _ Hfind) as [Hl Hid].
    eexists idx, old, _, _. split; [by apply updateShoot_hit|].
    by repeat split.
  - intros Hin.
    destruct (findIndex_editedHasId_is_Some i _ Hin) as (idx & old & Hfind).
    destruct (findIndex_editedHasId_Some _ _ _ _ Hfind) as [Hl Hid].
    eexists idx, old, _, _. split; [by apply updateEditedShoot_hit|].
    by repeat split.
  - intros op Hread. destruct op; try discriminate Hread; simpl; unfold bind.
    + by rewrite getShoots_spec.
    + by rewrite getShootById_spec.
    + by rewrite getEditedShoots_spec.
    + by rewrite getEditedShootById_spec.
Qed.

(** ** Identifiers stay unique *)

Lemma pendingIds_insert_same (l : list Shoot.t) idx old upd :
  l !! idx = Some old -> Shoot.id upd = Shoot.id old ->
  map Shoot.id (<[idx := upd]> l) = map Shoot.id l.
Proof.
  intros Hl Hid. change (Shoot.id <$> <[idx:=upd]> l = Shoot.id <$> l).
  rewrite list_fmap_insert. apply list_insert_id.
  by rewrite list_lookup_fmap, Hl, Hid.
Qed.

Lemma editedIds_insert_same (l : list EditedShoot.t) idx old upd :
  l !! idx = Some old -> EditedShoot.id upd = EditedShoot.id old ->
  map EditedShoot.id (<[idx := upd]> l) = map EditedShoot.id l.
Proof.
  intros Hl Hid. change (EditedShoot.id <$> <[idx:=upd]> l = EditedShoot.id <$> l).
  rewrite list_fmap_insert. apply list_insert_id.
  by rewrite list_lookup_fmap, Hl, Hid.
Qed.

Lemma map_delete {A B} (f : A -> B) (l : list A) idx :
  map f (delete idx l) = delete idx (map f l).
Proof. apply (list_fmap_delete f). Qed.

Section Invariant.

Variable uuidAt : nat -> string.
Variable nowAt : nat -> string.

(** [randomUUID()] never returns the same identifier twice. *)
Hypothesis uuid_inj : forall j k, uuidAt j = uuidAt k -> j = k.

Lemma next_uuid_fresh (w : World) :
  WellFormed uuidAt w -> uuidAt (uuidCalls w) ∉ idsOf (docOf w).
Proof.
  intros [_ Hissued] Hin. destruct (Hissued _ Hin) as (k & Hk & Heq).
  apply uuid_inj in Heq. lia.
Qed.

Lemma wellFormed_shrink (l l' : list string) (n n' : nat) :
  NoDup l -> (forall i, i ∈ l -> issuedBefore uuidAt n i) ->
  l' ⊆+ l -> n <= n' ->
  NoDup l' /\ (forall i, i ∈ l' -> issuedBefore uuidAt n' i).
Proof.
  intros Hnd Hissued Hsub Hle. split.
  - apply submseteq_Permutation in Hsub as [k Hk].
    rewrite Hk in Hnd. by apply NoDup_app in Hnd as [? _].
  - intros i Hi. destruct (Hissued i) as (k & Hk & Heq).
    + by eapply elem_of_submseteq.
    + exists k. split; [lia|done].
Qed.

Lemma wellFormed_mint (l l' : list string) (n : nat) :
  NoDup l -> (forall i, i ∈ l -> issuedBefore uuidAt n i) ->
  l' ⊆+ uuidAt n :: l ->
  NoDup l' /\ (forall i, i ∈ l' -> issuedBefore uuidAt (S n) i).
Proof.
  intros Hnd Hissued Hsub.
  apply (wellFormed_shrink (uuidAt n :: l) l' (S n) (S n)); [| |done|lia].
  - apply NoDup_cons. split; [|done].
    intros Hin. destruct (Hissued _ Hin) as (k & Hk & Heq).
    apply uuid_inj in Heq. lia.
  - intros i Hi. apply elem_of_cons in Hi as [->|Hi].
    + exists n. split; [lia|done].
    + destruct (Hissued i Hi) as (k & Hk & Heq). exists k. split; [lia|done].
Qed.

(** How the identifiers in the document change in one operation: either
    none is added and [randomUUID()] is not called, or the one added is
    what the single call of [randomUUID()] returned. *)
Lemma exec_ids (op : Op) (w : World) :
  let w' := snd (exec uuidAt nowAt op w) in
  (idsOf (docOf w') ⊆+ idsOf (docOf w) /\ uuidCalls w' = uuidCalls w)
  \/ (idsOf (docOf w') ⊆+ uuidAt (uuidCalls w) :: idsOf (docOf w)
      /\ uuidCalls w' = S (uuidCalls w)).
Proof.
  destruct op; simpl; unfold bind.
  - rewrite getShoots_spec. by left.
  - rewrite getShootById_spec. by left.
  - rewrite createShoot_spec. right. split; [|done]. simpl.
    unfold idsOf, pendingIds, editedIds. simpl. rewrite map_app. simpl.
    rewrite <- app_assoc. simpl. by rewrite <- Permutation_middle.
  - by_findIndex_shoots w i.
    + rewrite (updateShoot_hit _ _ _ _ _ _ E). left. split; [|done]. simpl.
      destruct (findIndex_hasId_Some _ _ _ _ E) as [Hl _].
      unfold idsOf, pendingIds, editedIds. simpl.
      by rewrite (pendingIds_insert_same _ _ _ _ Hl).
    + rewrite (updateShoot_miss _ _ _ _ E). by left.
  - by_findIndex_shoots w i.
    + rewrite (deleteShoot_hit _ _ _ _ E). left. split; [|done]. simpl.
      unfold idsOf, pendingIds, editedIds. simpl. rewrite map_delete.
      apply submseteq_skips_r, submseteq_delete.
    + rewrite (deleteShoot_miss _ _ E). by left.
  - by_findIndex_shoots w i.
    + rewrite (moveShootToEdited_hit _ _ _ _ _ _ E). right. split; [|done]. simpl.
      unfold idsOf, pendingIds, editedIds. simpl.
      rewrite map_delete, map_app. simpl.
      rewrite app_assoc.
      rewrite <- (Permutation_cons_append _ (uuidAt (uuidCalls w))).
      apply submseteq_skip, submseteq_skips_r, submseteq_delete.
    + rewrite (moveShootToEdited_miss _ _ _ _ E). by left.
  - rewrite getEditedShoots_spec. by left.
  - rewrite getEditedShootById_spec. by left.
  - by_findIndex_edited w i.
    + rewrite (updateEditedShoot_hit _ _ _ _ _ _ E). left. split; [|done]. simpl.
      destruct (findIndex_editedHasId_Some _ _ _ _ E) as [Hl _].
      unfold idsOf, pendingIds, editedIds. simpl.
      by rewrite (editedIds_insert_same _ _ _ _ Hl).
    + rewrite (updateEditedShoot_miss _ _ _ _ E). by left.
  - by_findIndex_edited w i.
    + rewrite (moveEditedShootBack_hit _ _ _ _ _ _ E). right. split; [|done].
      simpl. unfold idsOf, pendingIds, editedIds. simpl.
      rewrite map_delete, map_app. simpl. rewrite <- app_assoc. simpl.
      rewrite <- Permutation_middle.
      apply submseteq_skip, submseteq_skips_l, submseteq_delete.
    + rewrite (moveEditedShootBack_miss _ _ _ _ E). by left.
  - by_findIndex_edited w i.
    + rewrite (deleteEditedShoot_hit _ _ _ _ E). left. split; [|done]. simpl.
      unfold idsOf, pendingIds, editedIds. simpl. rewrite map_delete.
      apply submseteq_skips_l, submseteq_delete.
    + rewrite (deleteEditedShoot_miss _ _ E). by left.
Qed.

Lemma exec_wellFormed (op : Op) (w : World) :
  WellFormed uuidAt w -> WellFormed uuidAt (snd (exec uuidAt nowAt op w)).
Proof.
  intros [Hnd Hissued]. unfold WellFormed.
  destruct (exec_ids op w) as [[Hsub ->]|[Hsub ->]].
  - by eapply wellFormed_shrink.
  - by eapply wellFormed_mint.
Qed.

Lemma run_wellFormed (ops : list Op) (w : World) :
  WellFormed uuidAt w -> WellFormed uuidAt (run uuidAt nowAt ops w).
Proof.
  revert w. induction ops as [|op ops IH]; intros w Hw; simpl; [done|].
  by apply IH, exec_wellFormed.
Qed.

Lemma empty_wellFormed (w : World) :
  docOf w = emptyData -> WellFormed uuidAt w.
Proof.
  intros Hd. unfold WellFormed. rewrite Hd. split; [constructor|].
  intros i Hi. by apply elem_of_nil in Hi.
Qed.

End Invariant.

(** ** There and back *)

Lemma same_key_same_element {A} (key : A -> string) (l : list A) (x y : A) :
  NoDup (map key l) -> x ∈ l -> y ∈ l -> key x = key y -> x = y.
Proof.
  intros Hnd Hx Hy Hk.
  apply list_elem_of_lookup in Hx as [a Ha].
  apply list_elem_of_lookup in Hy as [b Hb].
  assert (a = b) as ->.
  { apply (NoDup_lookup (map key l) a b (key x)); [done|..].
    - change (map key l) with (key <$> l). by rewrite list_lookup_fmap, Ha.
    - change (map key l) with (key <$> l). by rewrite list_lookup_fmap, Hb, Hk. }
  congruence.
Qed.

Lemma findIndex_edited_pushed (i : string) (l : list EditedShoot.t) e :
  i ∉ map EditedShoot.id l -> EditedShoot.id e = i ->
  findIndex (editedHasId i) (l ++ [e]) = Some (length l, e).
Proof.
  intros Hfresh Hid. unfold findIndex.
  rewrite list_find_app_r by (by apply findIndex_editedHasId_None).
  simpl. rewrite decide_True; [reflexivity|].
  unfold editedHasId. by apply bool_decide_eq_true.
Qed.

Lemma delete_last_pushed {A} (l : list A) (x : A) :
  delete (length l) (l ++ [x]) = l.
Proof.
  rewrite delete_take_drop.
  rewrite take_app_length, drop_ge; [by rewrite app_nil_r|].
  rewrite length_app. simpl. lia.
Qed.

(** C2. In a store whose identifiers all came from earlier calls of
    [randomUUID()] and are pairwise different, with [randomUUID()] never
    repeating itself: for a Shoot in Pending, [moveShootToEdited] on its id
    followed by [moveEditedShootBack] on the id of the EditedShoot it
    returned puts into Pending a Shoot with the original modelName,
    salonName, date, price and createdAt, under an identifier that is not
    the original one and was in neither bucket before. *)
Theorem move_there_and_back uuidAt nowAt (w : World) (s : Shoot.t) :
  (forall j k, uuidAt j = uuidAt k -> j = k) ->
  WellFormed uuidAt w ->
  s ∈ shoots (docOf w) ->
  exists e w1 s' w2,
    moveShootToEdited uuidAt nowAt (Shoot.id s) w = (Some e, w1)
    /\ moveEditedShootBack uuidAt nowAt (EditedShoot.id e) w1 = (Some s', w2)
    /\ s' ∈ shoots (docOf w2)
    /\ Shoot.modelName s' = Shoot.modelName s
    /\ Shoot.salonName s' = Shoot.salonName s
    /\ Shoot.date s' = Shoot.date s
    /\ Shoot.price s' = Shoot.price s
    /\ Shoot.createdAt s' = Shoot.createdAt s
    /\ Shoot.id s' <> Shoot.id s
    /\ (Shoot.id s' ∉ idsOf (docOf w))
    /\ editedShoots (docOf w2) = editedShoots (docOf w).
Proof.
  intros Hinj Hwf Hs.
  pose proof Hwf as [Hnd Hissued].
  assert (NoDup (pendingIds (docOf w))) as Hndp.
  { unfold idsOf in Hnd. by apply NoDup_app in Hnd as [? _]. }
  assert (Shoot.id s ∈ pendingIds (docOf w)) as Hin.
  { apply list_elem_of_fmap. by exists s. }
  destruct (findIndex_hasId_is_Some _ _ Hin) as (idx & s0 & Hfind).
  destruct (findIndex_hasId_Some _ _ _ _ Hfind) as [Hl Hid].
  assert (s0 = s) as ->.
  { apply (same_key_same_element Shoot.id (shoots (docOf w))); try done.
    by eapply list_elem_of_lookup_2. }
  pose proof (next_uuid_fresh uuidAt Hinj w Hwf) as Hfresh1.
  pose proof (exec_wellFormed uuidAt nowAt Hinj (MoveShootToEdited (Shoot.id s)) w Hwf)
    as Hwf1.
  simpl in Hwf1. unfold bind in Hwf1.
  rewrite (moveShootToEdited_hit uuidAt nowAt _ _ _ _ Hfind) in Hwf1. simpl in Hwf1.
  pose proof (next_uuid_fresh uuidAt Hinj _ Hwf1) as Hfresh2. simpl in Hfresh2.
  set (e := EditedShoot.mk (uuidAt (uuidCalls w)) (Shoot.id s)
              (Shoot.modelName s) (Shoot.salonName s) (Shoot.date s)
              (Shoot.price s) (Shoot.createdAt s) (nowAt (clockReads w))) in *.
  assert (findIndex (editedHasId (EditedShoot.id e))
            (editedShoots (docOf w) ++ [e])
          = Some (length (editedShoots (docOf w)), e)) as Hfind2.
  { apply findIndex_edited_pushed; [|done]. simpl.
    intros Hbad. apply Hfresh1. unfold idsOf. apply elem_of_app. by right. }
  eexists e, _, _, _.
  split; [by apply moveShootToEdited_hit|].
  split; [by apply moveEditedShootBack_hit|].
  simpl. rewrite delete_last_pushed.
  split; [apply elem_of_app; right; apply list_elem_of_singleton; done|].
  repeat split.
  - intros Heq. destruct (Hissued (Shoot.id s)) as (k & Hk & Hk').
    { unfold idsOf. apply elem_of_app. by left. }
    rewrite <- Hk' in Heq. apply Hinj in Heq. lia.
  - intros Hbad. destruct (Hissued _ Hbad) as (k & Hk & Hk').
    apply Hinj in Hk'. lia.
Qed.

Lemma pretty_nat_never_repeats (j k : nat) :
  pretty j = pretty k -> j = k.
Proof. apply (inj pretty). Qed.

Lemma move_there_and_back_witness :
  let uuidAt := fun k : nat => pretty k in
  let nowAt := fun k : nat => "2024-03-0" +:+ pretty k in
  let w := run uuidAt nowAt
             [CreateShoot (ShootFormData.mk "Ava" "Luxe" "2024-03-01" 150)]
             initialWorld in
  let s := Shoot.mk "0" "Ava" "Luxe" "2024-03-01" 150 "2024-03-00" "2024-03-00" in
  exists e w1 s' w2,
    moveShootToEdited uuidAt nowAt (Shoot.id s) w = (Some e, w1)
    /\ moveEditedShootBack uuidAt nowAt (EditedShoot.id e) w1 = (Some s', w2)
    /\ s' ∈ shoots (docOf w2)
    /\ Shoot.modelName s' = Shoot.modelName s
    /\ Shoot.salonName s' = Shoot.salonName s
    /\ Shoot.date s' = Shoot.date s
    /\ Shoot.price s' = Shoot.price s
    /\ Shoot.createdAt s' = Shoot.createdAt s
    /\ Shoot.id s' <> Shoot.id s
    /\ (Shoot.id s' ∉ idsOf (docOf w))
    /\ editedShoots (docOf w2) = editedShoots (docOf w).
Proof.
  intros uuidAt nowAt w s.
  apply (move_there_and_back uuidAt nowAt w s).
  - exact pretty_nat_never_repeats.
  - apply run_wellFormed; [exact pretty_nat_never_repeats|].
    apply empty_wellFormed. reflexivity.
  - vm_compute. left.
Defined.

(** ** Bookings and buckets *)

Section ListFacts.

Context {A : Type} `{EqDecision A}.

Lemma filter_ne_absent (x : A) (l : list A) :
  x ∉ l -> filter (fun y => y <> x) l = l.
Proof.
  induction l as [|a l IH]; intros Hx; [done|].
  apply not_elem_of_cons in Hx as [Hne Hx].
  rewrite filter_cons_True by done. by rewrite IH.
Qed.

Lemma delete_as_filter (l : list A) (idx : nat) (x : A) :
  NoDup l -> l !! idx = Some x -> delete idx l = filter (fun y => y <> x) l.
Proof.
  revert idx. induction l as [|a l IH]; intros idx Hnd Hl; [done|].
  apply NoDup_cons in Hnd as [Ha Hnd].
  destruct idx as [|idx]; simpl in *.
  - injection Hl as ->. rewrite filter_cons_False by (intros H; by apply H).
    by rewrite filter_ne_absent.
  - assert (a <> x) as Hne.
    { intros ->. apply Ha. by eapply list_elem_of_lookup_2. }
    rewrite filter_cons_True by done. f_equal. by apply IH.
Qed.

Lemma replaced_absent (from to : A) (l : list A) :
  from ∉ l -> map (replaced from to) l = l.
Proof.
  induction l as [|a l IH]; intros Hx; [done|].
  apply not_elem_of_cons in Hx as [Hne Hx]. simpl.
  unfold replaced at 1. rewrite bool_decide_eq_false_2 by congruence.
  by rewrite IH.
Qed.

Lemma replaced_once (from to : A) (l : list A) :
  NoDup l -> from ∈ l ->
  map (replaced from to) l ≡ₚ to :: filter (fun y => y <> from) l.
Proof.
  induction l as [|a l IH]; intros Hnd Hin; [by apply elem_of_nil in Hin|].
  apply NoDup_cons in Hnd as [Ha Hnd]. simpl.
  destruct (decide (a = from)) as [->|Hne].
  - unfold replaced at 1. rewrite bool_decide_eq_true_2 by done.
    rewrite filter_cons_False by (intros H; by apply H).
    by rewrite replaced_absent, filter_ne_absent.
  - unfold replaced at 1. rewrite bool_decide_eq_false_2 by done.
    rewrite filter_cons_True by done.
    apply elem_of_cons in Hin as [Heq|Hin]; [congruence|].
    rewrite (IH Hnd Hin). apply Permutation_swap.
Qed.

End ListFacts.

Lemma live_cons_Some (p : Place) (L : Ledger) : live (Some p :: L) = p :: live L.
Proof. done. Qed.

Lemma live_cons_None (L : Ledger) : live (None :: L) = live L.
Proof. done. Qed.

Lemma relocate_cons (from : Place) (to : option Place) (e : option Place) L :
  relocate from to (e :: L)
  = (if bool_decide (e = Some from) then to else e) :: relocate from to L.
Proof. done. Qed.

Lemma live_relocate_None (from : Place) (L : Ledger) :
  live (relocate from None L) = filter (fun p => p <> from) (live L).
Proof.
  induction L as [|[p|] L IH]; [done|..]; rewrite relocate_cons.
  - destruct (decide (p = from)) as [->|Hne].
    + rewrite bool_decide_eq_true_2 by done.
      rewrite live_cons_None, live_cons_Some.
      by rewrite filter_cons_False by (intros H; by apply H).
    + rewrite bool_decide_eq_false_2 by congruence.
      rewrite !live_cons_Some, filter_cons_True by done. by f_equal.
  - rewrite bool_decide_eq_false_2 by done. by rewrite !live_cons_None.
Qed.

Lemma live_relocate_Some (from to : Place) (L : Ledger) :
  live (relocate from (Some to) L) = map (replaced from to) (live L).
Proof.
  induction L as [|[p|] L IH]; [done|..]; rewrite relocate_cons.
  - destruct (decide (p = from)) as [->|Hne].
    + rewrite bool_decide_eq_true_2 by done. rewrite !live_cons_Some.
      cbn [map]. unfold replaced at 1.
      rewrite bool_decide_eq_true_2 by done. by f_equal.
    + rewrite bool_decide_eq_false_2 by congruence. rewrite !live_cons_Some.
      cbn [map]. unfold replaced at 1.
      rewrite bool_decide_eq_false_2 by done. by f_equal.
  - rewrite bool_decide_eq_false_2 by done. by rewrite !live_cons_None.
Qed.

Lemma live_push (p : Place) (L : Ledger) : live (L ++ [Some p]) = live L ++ [p].
Proof. unfold live. by rewrite omap_app. Qed.

Lemma places_NoDup (d : DataStore) :
  NoDup (idsOf d) -> NoDup (places d).
Proof.
  unfold idsOf, places. intros Hnd.
  apply NoDup_app in Hnd as (Hp & _ & He).
  apply NoDup_app. split; [|split].
  - by apply (NoDup_fmap_2 (fun i => (Pending, i))).
  - intros x Hx Hx'.
    apply list_elem_of_fmap in Hx as (i & -> & _).
    apply list_elem_of_fmap in Hx' as (j & [=] & _).
  - by apply (NoDup_fmap_2 (fun i => (Edited, i))).
Qed.

Lemma filter_other_bucket (b b' : Bucket) (i : string) (l : list string) :
  b <> b' ->
  filter (fun p => p <> (b, i)) (map (fun j => (b', j)) l) = map (fun j => (b', j)) l.
Proof.
  intros Hb. apply filter_ne_absent. intros Hin.
  apply list_elem_of_fmap in Hin as (j & [=] & _). done.
Qed.

Lemma places_without_pending (d : DataStore) idx s :
  NoDup (idsOf d) -> shoots d !! idx = Some s ->
  map (fun i => (Pending, i)) (map Shoot.id (delete idx (shoots d)))
  ++ map (fun i => (Edited, i)) (editedIds d)
  = filter (fun p : Place => p <> (Pending, Shoot.id s)) (places d).
Proof.
  intros Hnd Hl. unfold places. rewrite filter_app.
  rewrite (filter_other_bucket Pending Edited) by done. f_equal.
  rewrite !map_delete. apply delete_as_filter.
  - apply places_NoDup in Hnd. unfold places in Hnd.
    by apply NoDup_app in Hnd as [? _].
  - unfold pendingIds.
    change (((fun i => (Pending, i)) <$> (Shoot.id <$> shoots d)) !! idx
            = Some (Pending, Shoot.id s)).
    by rewrite !list_lookup_fmap, Hl.
Qed.

Lemma places_without_edited (d : DataStore) idx e :
  NoDup (idsOf d) -> editedShoots d !! idx = Some e ->
  map (fun i => (Pending, i)) (pendingIds d)
  ++ map (fun i => (Edited, i)) (map EditedShoot.id (delete idx (editedShoots d)))
  = filter (fun p : Place => p <> (Edited, EditedShoot.id e)) (places d).
Proof.
  intros Hnd Hl. unfold places. rewrite filter_app.
  rewrite (filter_other_bucket Edited Pending) by done. f_equal.
  rewrite !map_delete. apply delete_as_filter.
  - apply places_NoDup in Hnd. unfold places in Hnd.
    by apply NoDup_app in Hnd as (_ & _ & ?).
  - unfold editedIds.
    change (((fun i => (Edited, i)) <$> (EditedShoot.id <$> editedShoots d)) !! idx
            = Some (Edited, EditedShoot.id e)).
    by rewrite !list_lookup_fmap, Hl.
Qed.

Lemma pending_place_present (d : DataStore) idx s :
  shoots d !! idx = Some s -> (Pending, Shoot.id s) ∈ places d.
Proof.
  intros Hl. unfold places. apply elem_of_app. left.
  apply list_elem_of_fmap. exists (Shoot.id s). split; [done|].
  apply list_elem_of_fmap. exists s. split; [done|].
  by eapply list_elem_of_lookup_2.
Qed.

Lemma edited_place_present (d : DataStore) idx e :
  editedShoots d !! idx = Some e -> (Edited, EditedShoot.id e) ∈ places d.
Proof.
  intros Hl. unfold places. apply elem_of_app. right.
  apply list_elem_of_fmap. exists (EditedShoot.id e). split; [done|].
  apply list_elem_of_fmap. exists e. split; [done|].
  by eapply list_elem_of_lookup_2.
Qed.

(** One call keeps the ledger and the document in step. *)
Lemma track_keeps_step uuidAt nowAt (op : Op) (w : World) (L : Ledger) :
  NoDup (idsOf (docOf w)) ->
  live L ≡ₚ places (docOf w) ->
  live (track op (fst (exec uuidAt nowAt op w)) L)
  ≡ₚ places (docOf (snd (exec uuidAt nowAt op w))).
Proof.
  intros Hnd HL. pose proof (places_NoDup _ Hnd) as Hndp.
  destruct op; simpl; unfold bind.
  - by rewrite getShoots_spec.
  - by rewrite getShootById_spec.
  - rewrite createShoot_spec. simpl. rewrite live_push, HL.
    unfold places, pendingIds, editedIds. simpl. rewrite !map_app. simpl.
    rewrite <- !app_assoc. simpl.
    apply Permutation_app_head. symmetry. apply Permutation_cons_append.
  - by_findIndex_shoots w i.
    + rewrite (updateShoot_hit _ _ _ _ _ _ E). simpl. rewrite HL.
      destruct (findIndex_hasId_Some _ _ _ _ E) as [Hl _].
      unfold places, pendingIds, editedIds. simpl.
      by rewrite (pendingIds_insert_same _ _ _ _ Hl).
    + by rewrite (updateShoot_miss _ _ _ _ E).
  - by_findIndex_shoots w i.
    + rewrite (deleteShoot_hit _ _ _ _ E). simpl.
      destruct (findIndex_hasId_Some _ _ _ _ E) as [Hl <-].
      by rewrite live_relocate_None, HL, docOf_afterWrite,
        <- (places_without_pending _ _ _ Hnd Hl).
    + by rewrite (deleteShoot_miss _ _ E).
  - by_findIndex_shoots w i.
    + rewrite (moveShootToEdited_hit _ _ _ _ _ _ E). simpl.
      destruct (findIndex_hasId_Some _ _ _ _ E) as [Hl <-].
      rewrite live_relocate_Some, HL.
      rewrite (replaced_once _ _ _ Hndp (pending_place_present _ _ _ Hl)).
      rewrite docOf_afterWrite, <- (places_without_pending _ _ _ Hnd Hl).
      unfold places, pendingIds, editedIds. simpl.
      rewrite !map_app. simpl. rewrite app_assoc.
      apply Permutation_cons_append.
    + by rewrite (moveShootToEdited_miss _ _ _ _ E).
  - by rewrite getEditedShoots_spec.
  - by rewrite getEditedShootById_spec.
  - by_findIndex_edited w i.
    + rewrite (updateEditedShoot_hit _ _ _ _ _ _ E). simpl. rewrite HL.
      destruct (findIndex_editedHasId_Some _ _ _ _ E) as [Hl _].
      unfold places, pendingIds, editedIds. simpl.
      by rewrite (editedIds_insert_same _ _ _ _ Hl).
    + by rewrite (updateEditedShoot_miss _ _ _ _ E).
  - by_findIndex_edited w i.
    + rewrite (moveEditedShootBack_hit _ _ _ _ _ _ E). simpl.
      destruct (findIndex_editedHasId_Some _ _ _ _ E) as [Hl <-].
      rewrite live_relocate_Some, HL.
      rewrite (replaced_once _ _ _ Hndp (edited_place_present _ _ _ Hl)).
      rewrite docOf_afterWrite, <- (places_without_edited _ _ _ Hnd Hl).
      unfold places, pendingIds, editedIds. simpl.
      rewrite !map_app. simpl. rewrite <- app_assoc. simpl.
      apply Permutation_middle.
    + by rewrite (moveEditedShootBack_miss _ _ _ _ E).
  - by_findIndex_edited w i.
    + rewrite (deleteEditedShoot_hit _ _ _ _ E). simpl.
      destruct (findIndex_editedHasId_Some _ _ _ _ E) as [Hl <-].
      by rewrite live_relocate_None, HL, docOf_afterWrite,
        <- (places_without_edited _ _ _ Hnd Hl).
    + by rewrite (deleteEditedShoot_miss _ _ E).
Qed.

Lemma runTracked_cons uuidAt nowAt (op : Op) (ops : list Op) (w : World) (L : Ledger) :
  runTracked uuidAt nowAt (op :: ops) w L
  = runTracked uuidAt nowAt ops (snd (exec uuidAt nowAt op w))
      (track op (fst (exec uuidAt nowAt op w)) L).
Proof. simpl. by destruct (exec uuidAt nowAt op w). Qed.

Lemma runTracked_is_run uuidAt nowAt (ops : list Op) (w : World) (L : Ledger) :
  fst (runTracked uuidAt nowAt ops w L) = run uuidAt nowAt ops w.
Proof.
  revert w L. induction ops as [|op ops IH]; intros w L; [done|].
  rewrite runTracked_cons. simpl. apply IH.
Qed.

Lemma runTracked_in_step uuidAt nowAt (ops : list Op) (w : World) (L : Ledger) :
  (forall j k, uuidAt j = uuidAt k -> j = k) ->
  WellFormed uuidAt w ->
  live L ≡ₚ places (docOf w) ->
  WellFormed uuidAt (fst (runTracked uuidAt nowAt ops w L))
  /\ live (snd (runTracked uuidAt nowAt ops w L))
     ≡ₚ places (docOf (fst (runTracked uuidAt nowAt ops w L))).
Proof.
  intros Hinj. revert w L.
  induction ops as [|op ops IH]; intros w L Hwf HL; [done|].
  rewrite runTracked_cons. apply IH.
  - by apply exec_wellFormed.
  - apply track_keeps_step; [|done]. by destruct Hwf.
Qed.

Lemma minted_is_new uuidAt (w : World) (i : string) :
  (forall j k, uuidAt j = uuidAt k -> j = k) ->
  WellFormed uuidAt w ->
  i ∈ idsOf (docOf w) ->
  uuidAt (uuidCalls w) <> i /\ (uuidAt (uuidCalls w) ∉ idsOf (docOf w)).
Proof.
  intros Hinj Hwf Hi. pose proof (next_uuid_fresh uuidAt Hinj w Hwf) as Hfresh.
  split; [|done]. intros Heq. apply Hfresh. by rewrite Heq.
Qed.

(** C3. Start from a store with an empty document and make any sequence of
    calls, with [randomUUID()] never repeating itself.  In the state
    reached: the bookings that were created and not deleted are, one for
    one, the records of the two buckets (the ledger of bookings is a
    rearrangement of the records, without repetition); each such booking
    has its record in the bucket the ledger names and no record under that
    identifier in the other bucket; identifiers are pairwise different
    within each bucket; and a move made next gives the record it creates an
    identifier that differs from the one moved and is in neither bucket. *)
Theorem every_booking_in_exactly_one_bucket uuidAt nowAt
    (w0 : World) (ops : list Op) :
  (forall j k, uuidAt j = uuidAt k -> j = k) ->
  docOf w0 = emptyData ->
  let w := run uuidAt nowAt ops w0 in
  let L := snd (runTracked uuidAt nowAt ops w0 []) in
  live L ≡ₚ places (docOf w)
  /\ NoDup (live L)
  /\ (forall b bk i, L !! b = Some (Some (bk, i)) ->
        match bk with
        | Pending => i ∈ pendingIds (docOf w) /\ (i ∉ editedIds (docOf w))
        | Edited => i ∈ editedIds (docOf w) /\ (i ∉ pendingIds (docOf w))
        end)
  /\ NoDup (pendingIds (docOf w))
  /\ NoDup (editedIds (docOf w))
  /\ (forall i e w', moveShootToEdited uuidAt nowAt i w = (Some e, w') ->
        EditedShoot.id e <> i /\ (EditedShoot.id e ∉ idsOf (docOf w)))
  /\ (forall i s w', moveEditedShootBack uuidAt nowAt i w = (Some s, w') ->
        Shoot.id s <> i /\ (Shoot.id s ∉ idsOf (docOf w))).
Proof.
  intros Hinj Hempty w L.
  destruct (runTracked_in_step uuidAt nowAt ops w0 [] Hinj) as [Hwf HL].
  { by apply empty_wellFormed. }
  { by rewrite Hempty. }
  rewrite runTracked_is_run in Hwf, HL. fold w in Hwf, HL. fold L in HL.
  pose proof Hwf as [Hnd Hissued].
  pose proof (places_NoDup _ Hnd) as Hndp.
  pose proof Hnd as Hnd'. unfold idsOf in Hnd'.
  apply NoDup_app in Hnd' as (Hp & Hdisj & He).
  split; [done|]. split; [by rewrite HL|].
  split; [|split; [done|split; [done|split]]].
  - intros b bk i Hb.
    assert ((bk, i) ∈ places (docOf w)) as Hin.
    { rewrite <- HL. unfold live. apply list_elem_of_omap.
      exists (Some (bk, i)). split; [|done]. by eapply list_elem_of_lookup_2. }
    unfold places in Hin. apply elem_of_app in Hin as [Hin|Hin];
      apply list_elem_of_fmap in Hin as (j & [= -> ->] & Hj).
    + split; [done|]. by apply Hdisj.
    + split; [done|]. intros Hbad. by apply (Hdisj _ Hbad).
  - intros i e w' Hmove.
    destruct (findIndex (hasId i) (shoots (docOf w))) as [[idx s]|] eqn:E.
    + rewrite (moveShootToEdited_hit _ _ _ _ _ _ E) in Hmove.
      injection Hmove as <- _. simpl.
      destruct (findIndex_hasId_Some _ _ _ _ E) as [Hl <-].
      apply minted_is_new; [done..|].
      unfold idsOf. apply elem_of_app. left.
      apply list_elem_of_fmap. exists s. split; [done|].
      by eapply list_elem_of_lookup_2.
    + by rewrite (moveShootToEdited_miss _ _ _ _ E) in Hmove.
  - intros i s w' Hmove.
    destruct (findIndex (editedHasId i) (editedShoots (docOf w)))
      as [[idx e]|] eqn:E.
    + rewrite (moveEditedShootBack_hit _ _ _ _ _ _ E) in Hmove.
      injection Hmove as <- _. simpl.
      destruct (findIndex_editedHasId_Some _ _ _ _ E) as [Hl <-].
      apply minted_is_new; [done..|].
      unfold idsOf. apply elem_of_app. right.
      apply list_elem_of_fmap. exists e. split; [done|].
      by eapply list_elem_of_lookup_2.
    + by rewrite (moveEditedShootBack_miss _ _ _ _ E) in Hmove.
Qed.

Lemma every_booking_in_exactly_one_bucket_witness :
  let uuidAt := fun k : nat => pretty k in
  let nowAt := fun k : nat => "2024-03-0" +:+ pretty k in
  let ops := [ CreateShoot (ShootFormData.mk "Ava" "Luxe" "2024-03-01" 150);
               CreateShoot (ShootFormData.mk "Bea" "Chic" "2024-03-02" 90);
               MoveShootToEdited "0";
               MoveEditedShootBack "2";
               DeleteShoot "1";
               MoveShootToEdited "3" ] in
  let w := run uuidAt nowAt ops initialWorld in
  let L := snd (runTracked uuidAt nowAt ops initialWorld []) in
  live L ≡ₚ places (docOf w)
  /\ NoDup (live L)
  /\ (forall b bk i, L !! b = Some (Some (bk, i)) ->
        match bk with
        | Pending => i ∈ pendingIds (docOf w) /\ (i ∉ editedIds (docOf w))
        | Edited => i ∈ editedIds (docOf w) /\ (i ∉ pendingIds (docOf w))
        end)
  /\ NoDup (pendingIds (docOf w))
  /\ NoDup (editedIds (docOf w))
  /\ (forall i e w', moveShootToEdited uuidAt nowAt i w = (Some e, w') ->
        EditedShoot.id e <> i /\ (EditedShoot.id e ∉ idsOf (docOf w)))
  /\ (forall i s w', moveEditedShootBack uuidAt nowAt i w = (Some s, w') ->
        Shoot.id s <> i /\ (Shoot.id s ∉ idsOf (docOf w))).
Proof.
  intros uuidAt nowAt ops w L.
  apply (every_booking_in_exactly_one_bucket uuidAt nowAt initialWorld ops).
  - exact pretty_nat_never_repeats.
  - reflexivity.
Defined.

(** Such a run, evaluated: booking 0 went to Edited, came back and went
    again, under a new identifier each time; booking 1 was deleted. *)
Example ledger_of_a_run :
  let uuidAt := fun k : nat => pretty k in
  let nowAt := fun k : nat => "2024-03-0" +:+ pretty k in
  let ops := [ CreateShoot (ShootFormData.mk "Ava" "Luxe" "2024-03-01" 150);
               CreateShoot (ShootFormData.mk "Bea" "Chic" "2024-03-02" 90);
               MoveShootToEdited "0";
               MoveEditedShootBack "2";
               DeleteShoot "1";
               MoveShootToEdited "3" ] in
  snd (runTracked uuidAt nowAt ops initialWorld []) = [Some (Edited, "4"); None]
  /\ docOf (run uuidAt nowAt ops initialWorld)
     = mkData [] [EditedShoot.mk "4" "3" "Ava" "Luxe" "2024-03-01" 150
                    "2024-03-00" "2024-03-04"].
Proof. vm_compute. split; reflexivity. Qed.

(** ** The facade's validation *)

Lemma notText_spec (x : option string) :
  notText x = true <-> x = None \/ x = Some "".
Proof.
  destruct x as [s|]; simpl.
  - rewrite bool_decide_eq_true. split; [intros ->; by right|].
    by intros [[=]|[= ->]].
  - split; [by left|done].
Qed.

Lemma looseNull_spec (v : JsValue) :
  looseNull v = true <-> v = JUndefined \/ v = JNull.
Proof. destruct v; simpl; split; try done; try (by intros [[=]|[=]]); auto. Qed.

Lemma fieldsMissing_spec (b : Body) :
  fieldsMissing b = true
  <-> (body_modelName b = None \/ body_modelName b = Some "")
      \/ (body_salonName b = None \/ body_salonName b = Some "")
      \/ (body_date b = None \/ body_date b = Some "")
      \/ (body_price b = JUndefined \/ body_price b = JNull).
Proof.
  unfold fieldsMissing. rewrite !orb_true_iff, !notText_spec, looseNull_spec.
  tauto.
Qed.

(** C10. A price of exactly 0 passes the validation, and the store gets
    the price 0; only an undefined or null price counts as missing.  A
    modelName, salonName or date that is the empty string is answered with
    400, the world left as it was.  For the PUT routes this check comes
    before the lookup: a body with a missing field sent to an id that is
    in no bucket gets 400, where a complete body gets 404. *)
Theorem validation_corner_cases uuidAt nowAt StringToNumber
    (w : World) (i : string) :
  let bad := mkResponse 400 (PMessage "All fields are required") in
  (forall m s d, m <> "" -> s <> "" -> d <> "" ->
     let b := mkBody (Some m) (Some s) (Some d) (JNumber zero) in
     fieldsMissing b = false
     /\ exists shoot w',
          postShootRoute uuidAt nowAt StringToNumber b w
          = (mkResponse 201 (PShoot shoot), w')
          /\ Shoot.price shoot = zero
          /\ shoots (docOf w') = shoots (docOf w) ++ [shoot])
  /\ (forall v, looseNull v = true <-> v = JUndefined \/ v = JNull)
  /\ (forall b,
        body_modelName b = Some "" \/ body_salonName b = Some ""
        \/ body_date b = Some "" ->
        postShootRoute uuidAt nowAt StringToNumber b w = (bad, w)
        /\ putShootRoute nowAt StringToNumber i b w = (bad, w)
        /\ putEditedRoute nowAt StringToNumber i b w = (bad, w))
  /\ (forall b, fieldsMissing b = true ->
        (i ∉ pendingIds (docOf w) ->
         status (fst (putShootRoute nowAt StringToNumber i b w)) = 400)
        /\ (i ∉ editedIds (docOf w) ->
            status (fst (putEditedRoute nowAt StringToNumber i b w)) = 400))
  /\ (forall b, fieldsMissing b = false ->
        (i ∉ pendingIds (docOf w) ->
         status (fst (putShootRoute nowAt StringToNumber i b w)) = 404)
        /\ (i ∉ editedIds (docOf w) ->
            status (fst (putEditedRoute nowAt StringToNumber i b w)) = 404)).
Proof.
  intros bad. split; [|split; [|split; [|split]]].
  - intros m s d Hm Hs Hd b.
    assert (fieldsMissing b = false) as Hok.
    { unfold fieldsMissing, b. simpl.
      by rewrite !bool_decide_eq_false_2 by done. }
    split; [done|]. unfold postShootRoute. rewrite Hok. unfold bind.
    rewrite createShoot_spec. by eexists _, _.
  - apply looseNull_spec.
  - intros b Hempty.
    assert (fieldsMissing b = true) as Hmiss.
    { apply fieldsMissing_spec. tauto. }
    unfold postShootRoute, putShootRoute, putEditedRoute. by rewrite Hmiss.
  - intros b Hmiss. unfold putShootRoute, putEditedRoute. by rewrite Hmiss.
  - intros b Hok. unfold putShootRoute, putEditedRoute. rewrite Hok.
    unfold bind. split; intros Habsent.
    + apply findIndex_hasId_None in Habsent.
      by rewrite (updateShoot_miss _ _ _ _ Habsent).
    + apply findIndex_editedHasId_None in Habsent.
      by rewrite (updateEditedShoot_miss _ _ _ _ Habsent).
Qed.

Lemma validation_corner_cases_witness :
  let uuidAt := fun k : nat => pretty k in
  let nowAt := fun _ : nat => "2024-03-01T09:00:00.000Z" in
  let StringToNumber := fun _ : string => nan in
  let b := mkBody (Some "Ava") (Some "Luxe") (Some "2024-03-01") (JNumber zero) in
  fieldsMissing b = false
  /\ exists shoot w',
       postShootRoute uuidAt nowAt StringToNumber b initialWorld
       = (mkResponse 201 (PShoot shoot), w')
       /\ Shoot.price shoot = zero
       /\ shoots (docOf w') = shoots (docOf initialWorld) ++ [shoot].
Proof.
  intros uuidAt nowAt StringToNumber b.
  apply (validation_corner_cases uuidAt nowAt StringToNumber initialWorld "0");
    discriminate.
Defined.

(** ** Keys of the monthly map *)

Lemma append_nil_l (s : string) : "" +:+ s = s.
Proof. done. Qed.

Lemma append_cons (c : ascii) (a b : string) :
  String c a +:+ b = String c (a +:+ b).
Proof. done. Qed.

Lemma allChars_app (p : Ascii.ascii -> bool) (a b : string) :
  allChars p (a +:+ b) = allChars p a && allChars p b.
Proof.
  induction a as [|c a IH]; simpl; [done|]. by rewrite IH, andb_assoc.
Qed.

Lemma allChars_weaken (p q : Ascii.ascii -> bool) (s : string) :
  (forall c, p c = true -> q c = true) ->
  allChars p s = true -> allChars q s = true.
Proof.
  intros Hpq. induction s as [|c s IH]; simpl; [done|].
  rewrite !andb_true_iff. intros [Hc Hs]. split; [by apply Hpq|by apply IH].
Qed.

Lemma pretty_N_char_digit (x : N) : isDigit (pretty_N_char x) = true.
Proof. unfold pretty_N_char. by repeat case_match. Qed.

Lemma pretty_N_go_digits (x : N) (s : string) :
  allChars isDigit s = true -> allChars isDigit (pretty_N_go x s) = true.
Proof.
  revert s. induction (N.lt_wf_0 x) as [x _ IH]; intros s Hs.
  assert (x = 0 \/ 0 < x)%N as [->|Hpos] by lia.
  - by rewrite pretty_N_go_0.
  - rewrite pretty_N_go_step by done. apply IH.
    + by apply N.div_lt.
    + simpl. by rewrite pretty_N_char_digit, Hs.
Qed.

Lemma pretty_N_digits (x : N) : allChars isDigit (pretty x) = true.
Proof.
  unfold pretty, pretty_N. case_decide; [done|]. by apply pretty_N_go_digits.
Qed.

Lemma pretty_nonneg_digits (m : nat) :
  allChars isDigit (pretty (Z.of_nat m)) = true.
Proof.
  destruct (Z.of_nat m) as [|q|q] eqn:E; [done| |lia].
  apply (pretty_N_digits (N.pos q)).
Qed.

Lemma pretty_Z_digitOrDash (z : Z) : allChars digitOrDash (pretty z) = true.
Proof.
  assert (forall c, isDigit c = true -> digitOrDash c = true) as Hw.
  { intros c Hc. unfold digitOrDash. by rewrite Hc. }
  destruct z as [|q|q].
  - done.
  - apply (allChars_weaken isDigit); [done|]. apply (pretty_N_digits (N.pos q)).
  - change (pretty (Z.neg q)) with ("-" +:+ pretty (N.pos q)).
    rewrite allChars_app. simpl.
    apply (allChars_weaken isDigit); [done|]. apply pretty_N_digits.
Qed.

(** A string with a dash in it, cut at its last dash, can be cut there in
    one way only. *)
Lemma cut_at_last_dash (a1 a2 b1 b2 : string) :
  allChars noDash b1 = true -> allChars noDash b2 = true ->
  a1 +:+ ("-" +:+ b1) = a2 +:+ ("-" +:+ b2) -> a1 = a2 /\ b1 = b2.
Proof.
  intros Hb1 Hb2. revert a2.
  induction a1 as [|c a1 IH]; intros [|c' a2] Heq;
    repeat rewrite ?append_cons, ?append_nil_l in Heq.
  - by injection Heq as ->.
  - injection Heq as <- ->. rewrite allChars_app in Hb1.
    repeat rewrite ?append_cons, ?append_nil_l in Hb1.
    simpl in Hb1. by rewrite andb_false_r in Hb1.
  - injection Heq as -> <-. rewrite allChars_app in Hb2.
    repeat rewrite ?append_cons, ?append_nil_l in Hb2.
    simpl in Hb2. by rewrite andb_false_r in Hb2.
  - injection Heq as -> Heq. destruct (IH _ Heq) as [-> ->]. done.
Qed.

Lemma digits_have_no_dash (s : string) :
  allChars isDigit s = true -> allChars noDash s = true.
Proof.
  apply allChars_weaken. intros c Hc.
  unfold isDigit in Hc. apply andb_true_iff in Hc as [Hlo Hhi].
  apply Nat.leb_le in Hlo. unfold noDash.
  destruct (Ascii.eqb_spec c "-"%char) as [->|]; [|done].
  vm_compute in Hlo. lia.
Qed.

Section Keys.

Variable localYearMonth : string -> option (Z * nat).

Lemma keyOf_inj (s s' : Shoot.t) :
  keyOf localYearMonth s = keyOf localYearMonth s' ->
  shootYM localYearMonth s = shootYM localYearMonth s'.
Proof.
  unfold keyOf, shootYM, getFullYear, getMonth.
  destruct (localYearMonth (Shoot.date s)) as [[y m]|];
    destruct (localYearMonth (Shoot.date s')) as [[y' m']|]; simpl; intros Heq.
  - apply cut_at_last_dash in Heq as [Hy Hm];
      [|by apply digits_have_no_dash, pretty_nonneg_digits..].
    apply (inj pretty) in Hy. apply (inj pretty) in Hm. by rewrite Hy, Hm.
  - apply cut_at_last_dash in Heq as [Hy _];
      [|by apply digits_have_no_dash, pretty_nonneg_digits|done].
    pose proof (pretty_Z_digitOrDash y) as Hbad. by rewrite Hy in Hbad.
  - apply cut_at_last_dash in Heq as [Hy _];
      [|done|by apply digits_have_no_dash, pretty_nonneg_digits].
    pose proof (pretty_Z_digitOrDash y') as Hbad. by rewrite <- Hy in Hbad.
  - done.
Qed.

Lemma keyOf_iff (s s' : Shoot.t) :
  keyOf localYearMonth s = keyOf localYearMonth s'
  <-> shootYM localYearMonth s = shootYM localYearMonth s'.
Proof.
  split; [apply keyOf_inj|].
  unfold keyOf, shootYM. by intros [= -> ->].
Qed.

End Keys.

(** ** The monthly map *)

Section MapFacts.

Context {V : Type}.

Lemma mapHas_true (k : string) (m : JsMap V) :
  mapHas k m = true <-> k ∈ map fst m.
Proof.
  unfold mapHas. rewrite existsb_exists. split.
  - intros (kv & Hin & Hk). apply bool_decide_eq_true in Hk as <-.
    apply list_elem_of_fmap. exists kv. split; [done|]. by apply list_elem_of_In.
  - intros Hin. apply list_elem_of_fmap in Hin as (kv & -> & Hin).
    exists kv. split; [by apply list_elem_of_In|]. by apply bool_decide_eq_true.
Qed.

Lemma mapHas_false (k : string) (m : JsMap V) :
  mapHas k m = false <-> k ∉ map fst m.
Proof.
  rewrite <- mapHas_true. destruct (mapHas k m); split; try done.
Qed.

Lemma mapSet_absent (k : string) (v : V) (m : JsMap V) :
  k ∉ map fst m -> mapSet k v m = m ++ [(k, v)].
Proof.
  induction m as [|[k0 x0] m IH]; intros Hk; simpl; [done|].
  simpl in Hk. apply not_elem_of_cons in Hk as [Hne Hk].
  rewrite bool_decide_eq_false_2 by congruence. by rewrite IH.
Qed.

Lemma mapUpdate_keys (k : string) (f : V -> V) (m : JsMap V) :
  map fst (mapUpdate k f m) = map fst m.
Proof.
  induction m as [|[k0 x0] m IH]; simpl; [done|].
  case_bool_decide; simpl; [done|]. by rewrite IH.
Qed.

Lemma mapUpdate_elem (k : string) (f : V -> V) (m : JsMap V) k' x' :
  NoDup (map fst m) ->
  (k', x') ∈ mapUpdate k f m ->
  (k' <> k /\ (k', x') ∈ m) \/ (k' = k /\ exists x, (k, x) ∈ m /\ x' = f x).
Proof.
  induction m as [|[k0 x0] m IH]; intros Hnd Hin; simpl in *.
  - by apply elem_of_nil in Hin.
  - apply NoDup_cons in Hnd as [Hk0 Hnd].
    case_bool_decide as Hk; subst.
    + apply elem_of_cons in Hin as [[= -> ->]|Hin].
      * right. split; [done|]. exists x0. split; [left|done].
      * left. split; [|by right].
        intros ->. apply Hk0. apply list_elem_of_fmap. by exists (k, x').
    + apply elem_of_cons in Hin as [[= -> ->]|Hin].
      * left. split; [done|left].
      * destruct (IH Hnd Hin) as [[Hne Hin']|[-> (x & Hx & ->)]].
        -- left. split; [done|by right].
        -- right. split; [done|]. exists x. split; [by right|done].
Qed.

End MapFacts.

Section Aggregation.

Variable localYearMonth : string -> option (Z * nat).

Local Abbreviation key := (keyOf localYearMonth).
Local Abbreviation step := (addShoot localYearMonth).
Local Abbreviation Sums := (Summarises localYearMonth).
Local Abbreviation Agg := (Aggregated localYearMonth).

Lemma filter_key_snoc_same (l : list Shoot.t) (s : Shoot.t) :
  filter (fun s' => key s' = key s) (l ++ [s])
  = filter (fun s' => key s' = key s) l ++ [s].
Proof. rewrite filter_app. f_equal. by rewrite filter_cons_True. Qed.

Lemma filter_key_snoc_other (l : list Shoot.t) (s : Shoot.t) (k : string) :
  k <> key s ->
  filter (fun s' => key s' = k) (l ++ [s]) = filter (fun s' => key s' = k) l.
Proof.
  intros Hne. rewrite filter_app, filter_cons_False by congruence.
  by rewrite app_nil_r.
Qed.

Lemma filter_key_none (l : list Shoot.t) (k : string) :
  (forall s, s ∈ l -> key s <> k) -> filter (fun s' => key s' = k) l = [].
Proof.
  induction l as [|a l IH]; intros H; [done|].
  rewrite filter_cons_False by (apply H; left).
  apply IH. intros s Hs. apply H. by right.
Qed.

Lemma Summarises_other (l : list Shoot.t) (s : Shoot.t) k st :
  k <> key s -> Sums l k st -> Sums (l ++ [s]) k st.
Proof.
  intros Hne (s0 & Hs0 & Hk & Hym & Hmonth & Hcount & Htotal).
  exists s0. rewrite filter_key_snoc_other by done.
  split; [apply elem_of_app; by left|done].
Qed.

Lemma Summarises_bump (l : list Shoot.t) (s : Shoot.t) st :
  Sums l (key s) st ->
  Sums (l ++ [s]) (key s)
    (mkStats (month st) (year st) (monthNumber st) (shootCount st + 1)
       (totalEarnings st + Shoot.price s)%float).
Proof.
  intros (s0 & Hs0 & Hk & Hym & Hmonth & Hcount & Htotal).
  exists s0. rewrite filter_key_snoc_same. simpl.
  split; [apply elem_of_app; by left|]. split; [done|]. split; [done|].
  split; [done|]. split.
  - rewrite length_app, Hcount. done.
  - by rewrite fold_left_app, Htotal.
Qed.

Lemma Summarises_first (l : list Shoot.t) (s : Shoot.t) :
  (forall s', s' ∈ l -> key s' <> key s) ->
  Sums (l ++ [s]) (key s)
    (mkStats (monthName (getMonth localYearMonth (Shoot.date s)))
       (getFullYear localYearMonth (Shoot.date s))
       (getMonth localYearMonth (Shoot.date s)) (0 + 1)
       (zero + Shoot.price s)%float).
Proof.
  intros Hnew. exists s.
  rewrite filter_key_snoc_same, filter_key_none by done. simpl.
  split; [apply elem_of_app; right; left|]. done.
Qed.

Lemma addShoot_aggregated (l : list Shoot.t) (m : JsMap MonthlyStats) (s : Shoot.t) :
  Agg l m -> Agg (l ++ [s]) (step m s).
Proof.
  intros (Hnd & Hcover & Hsum). unfold addShoot.
  destruct (mapHas (key s) m) eqn:Hhas.
  - apply mapHas_true in Hhas. split; [|split].
    + by rewrite mapUpdate_keys.
    + intros s' Hs'. rewrite mapUpdate_keys.
      apply elem_of_app in Hs' as [Hs'|Hs']; [by apply Hcover|].
      apply list_elem_of_singleton in Hs' as ->. done.
    + intros k st Hin. apply mapUpdate_elem in Hin; [|done].
      destruct Hin as [[Hne Hin]|[-> (st0 & Hin & ->)]].
      * apply Summarises_other; [done|]. by apply Hsum.
      * apply Summarises_bump. by apply Hsum.
  - apply mapHas_false in Hhas. rewrite (mapSet_absent _ _ _ Hhas).
    assert (NoDup (map fst (m ++ [(key s,
              mkStats (monthName (getMonth localYearMonth (Shoot.date s)))
                (getFullYear localYearMonth (Shoot.date s))
                (getMonth localYearMonth (Shoot.date s)) 0 zero)]))) as Hnd'.
    { rewrite map_app. simpl. apply NoDup_app. split; [done|]. split.
      - intros x Hx Hx'. apply list_elem_of_singleton in Hx' as ->. done.
      - apply NoDup_singleton. }
    split; [|split].
    + by rewrite mapUpdate_keys.
    + intros s' Hs'. rewrite mapUpdate_keys, map_app. simpl.
      apply elem_of_app in Hs' as [Hs'|Hs'].
      * apply elem_of_app. left. by apply Hcover.
      * apply list_elem_of_singleton in Hs' as ->. apply elem_of_app. right. left.
    + intros k st Hin. apply mapUpdate_elem in Hin; [|done].
      destruct Hin as [[Hne Hin]|[-> (st0 & Hin & ->)]].
      * apply elem_of_app in Hin as [Hin|Hin].
        -- apply Summarises_other; [done|]. by apply Hsum.
        -- apply list_elem_of_singleton in Hin. congruence.
      * apply elem_of_app in Hin as [Hin|Hin].
        -- exfalso. apply Hhas. apply list_elem_of_fmap. by exists (key s, st0).
        -- apply list_elem_of_singleton in Hin. injection Hin as ->. simpl.
           apply Summarises_first. intros s' Hs' Heq.
           apply Hhas. rewrite <- Heq. by apply Hcover.
Qed.

Lemma fold_addShoot_aggregated (l l0 : list Shoot.t) (m : JsMap MonthlyStats) :
  Agg l0 m -> Agg (l0 ++ l) (fold_left step l m).
Proof.
  revert l0 m. induction l as [|s l IH]; intros l0 m Hagg; simpl.
  - by rewrite app_nil_r.
  - rewrite (cons_middle s l0 l), app_assoc. apply IH.
    by apply addShoot_aggregated.
Qed.

Lemma loop_aggregated (l : list Shoot.t) :
  Agg l (fold_left step l []).
Proof.
  apply (fold_addShoot_aggregated l [] []). split; [constructor|].
  split; [|intros k st Hin; by apply elem_of_nil in Hin].
  intros s Hs. by apply elem_of_nil in Hs.
Qed.

End Aggregation.

(** ** Sorting the buckets *)

Lemma insertSorted_perm {A} (cmp : A -> A -> JsInt) (x : A) (l : list A) :
  insertSorted cmp x l ≡ₚ x :: l.
Proof.
  induction l as [|y l IH]; simpl; [done|].
  destruct (comesAfter cmp y x); [done|].
  rewrite IH. apply Permutation_swap.
Qed.

Lemma sortBy_from_perm {A} (cmp : A -> A -> JsInt) (l acc : list A) :
  fold_left (fun acc x => insertSorted cmp x acc) l acc ≡ₚ acc ++ l.
Proof.
  revert acc. induction l as [|x l IH]; intros acc; simpl.
  - by rewrite app_nil_r.
  - rewrite IH, insertSorted_perm. by rewrite <- Permutation_middle.
Qed.

Lemma sortBy_perm {A} (cmp : A -> A -> JsInt) (l : list A) :
  sortBy cmp l ≡ₚ l.
Proof. unfold sortBy. by rewrite sortBy_from_perm. Qed.

Lemma comesAfter_laterMonth (y x : MonthlyStats) :
  validStat x -> validStat y ->
  comesAfter compareStats y x = true <-> laterMonth x y.
Proof.
  intros (yx & mx & Hyx & Hmx) (yy & my & Hyy & Hmy).
  unfold comesAfter, compareStats, laterMonth. rewrite Hyx, Hmx, Hyy, Hmy. simpl.
  destruct (Z.eqb_spec yy yx) as [->|Hne]; simpl; rewrite Z.ltb_lt; lia.
Qed.

Lemma laterMonth_trans (a b c : MonthlyStats) :
  laterMonth a b -> laterMonth b c -> laterMonth a c.
Proof.
  unfold laterMonth.
  destruct (year a), (monthNumber a), (year b), (monthNumber b),
    (year c), (monthNumber c); try done. lia.
Qed.

Lemma laterMonth_total (a b : MonthlyStats) :
  validStat a -> validStat b -> statYM a <> statYM b ->
  laterMonth a b \/ laterMonth b a.
Proof.
  intros (ya & ma & Hya & Hma) (yb & mb & Hyb & Hmb) Hne.
  unfold laterMonth, statYM in *. rewrite Hya, Hma, Hyb, Hmb in *.
  assert (ya <> yb \/ ma <> mb) as Hd.
  { destruct (decide (ya = yb)) as [->|]; [|by left].
    right. intros ->. by apply Hne. }
  lia.
Qed.

Lemma insertSorted_sorted (x : MonthlyStats) (l : list MonthlyStats) :
  validStat x -> Forall validStat l ->
  statYM x ∉ map statYM l ->
  StronglySorted laterMonth l ->
  StronglySorted laterMonth (insertSorted compareStats x l).
Proof.
  intros Hx. induction l as [|y l IH]; intros Hl Hnew Hsorted; simpl.
  - repeat constructor.
  - apply Forall_cons in Hl as [Hy Hl].
    simpl in Hnew. apply not_elem_of_cons in Hnew as [Hne Hnew].
    apply StronglySorted_inv in Hsorted as [Hsorted Hall].
    destruct (comesAfter compareStats y x) eqn:Hcmp.
    + apply comesAfter_laterMonth in Hcmp; [|done..].
      constructor; [by constructor|]. constructor; [done|].
      eapply Forall_impl; [exact Hall|]. intros z Hz. simpl in Hz.
      by eapply laterMonth_trans.
    + assert (laterMonth y x) as Hyx.
      { destruct (laterMonth_total x y Hx Hy Hne) as [Hbad|]; [|done].
        apply comesAfter_laterMonth in Hbad; [|done..]. congruence. }
      constructor; [by apply IH|].
      rewrite insertSorted_perm. by constructor.
Qed.

Lemma sortBy_from_sorted (l acc : list MonthlyStats) :
  Forall validStat (acc ++ l) ->
  NoDup (map statYM (acc ++ l)) ->
  StronglySorted laterMonth acc ->
  StronglySorted laterMonth
    (fold_left (fun acc x => insertSorted compareStats x acc) l acc).
Proof.
  revert acc. induction l as [|x l IH]; intros acc Hvalid Hnd Hsorted; simpl.
  - done.
  - assert (insertSorted compareStats x acc ++ l ≡ₚ acc ++ x :: l) as Hperm.
    { rewrite insertSorted_perm. simpl. by rewrite Permutation_middle. }
    apply IH.
    + by rewrite Hperm.
    + by rewrite Hperm.
    + apply Forall_app in Hvalid as [Hacc Hxl].
      apply Forall_cons in Hxl as [Hx _].
      apply insertSorted_sorted; [done..| |done].
      rewrite map_app in Hnd. simpl in Hnd.
      apply NoDup_app in Hnd as (_ & Hdisj & _).
      intros Hin. apply (Hdisj _ Hin). left.
Qed.

Lemma sortBy_sorted (l : list MonthlyStats) :
  Forall validStat l -> NoDup (map statYM l) ->
  StronglySorted laterMonth (sortBy compareStats l).
Proof.
  intros Hvalid Hnd. apply sortBy_from_sorted; [done..|constructor].
Qed.

(** ** Monthly statistics *)

Section StatsFacts.

Variable localYearMonth : string -> option (Z * nat).

Lemma bucket_of_entry (l : list Shoot.t) (m : JsMap MonthlyStats) k st :
  Aggregated localYearMonth l m -> (k, st) ∈ m ->
  exists s0, s0 ∈ l
    /\ statYM st = shootYM localYearMonth s0
    /\ month st = monthName (monthNumber st)
    /\ shootCount st = length (group localYearMonth l (statYM st))
    /\ totalEarnings st = sumPrices (group localYearMonth l (statYM st)).
Proof.
  intros (_ & _ & Hsum) Hin.
  destruct (Hsum k st Hin) as (s0 & Hs0 & <- & Hym & Hmonth & Hcount & Htotal).
  exists s0. unfold statYM, sumPrices, group. rewrite Hym.
  assert (filter (fun s => keyOf localYearMonth s = keyOf localYearMonth s0) l
          = filter (fun s => shootYM localYearMonth s = shootYM localYearMonth s0) l)
    as Hsame.
  { apply list_filter_iff. intros s. apply keyOf_iff. }
  rewrite <- Hsame. done.
Qed.

Lemma buckets_distinct (l : list Shoot.t) (m : JsMap MonthlyStats) :
  Aggregated localYearMonth l m -> NoDup (map statYM (mapValues m)).
Proof.
  intros Hagg. pose proof Hagg as (Hnd & _ & Hsum).
  unfold mapValues. rewrite map_map.
  apply (NoDup_fmap_2_strong (fun kv => statYM (snd kv))).
  - intros [k st] [k' st'] Hin Hin' Heq. simpl in Heq.
    destruct (Hsum _ _ Hin) as (s0 & _ & <- & Hym & _).
    destruct (Hsum _ _ Hin') as (s0' & _ & <- & Hym' & _).
    apply (same_key_same_element fst m); [done..|]. simpl.
    apply keyOf_iff. unfold statYM in Heq. congruence.
  - by apply (NoDup_fmap_1 fst).
Qed.

Lemma buckets_valid (l : list Shoot.t) (m : JsMap MonthlyStats) :
  (forall s, s ∈ l -> localYearMonth (Shoot.date s) <> None) ->
  Aggregated localYearMonth l m -> Forall validStat (mapValues m).
Proof.
  intros Hvalid (_ & _ & Hsum). apply Forall_forall. intros st Hst.
  unfold mapValues in Hst. apply list_elem_of_fmap in Hst as ([k st'] & -> & Hin).
  destruct (Hsum _ _ Hin) as (s0 & Hs0 & _ & Hym & _). simpl.
  specialize (Hvalid s0 Hs0). unfold shootYM, getFullYear, getMonth in Hym.
  destruct (localYearMonth (Shoot.date s0)) as [[y mn]|]; [|done].
  simpl in Hym. injection Hym as Hy Hm. by exists y, (Z.of_nat mn).
Qed.

End StatsFacts.

(** C9, as stated, fails: the date of a Shoot is a string that nothing
    checks, and a Shoot whose date is no date falls into a bucket whose
    year and month are NaN.  Two shoots, one dated "soon" and one dated
    2024-01-10, give two buckets, one of NaN and one of January 2024.
    The comparator's answer for the pair is NaN either way round, so the
    sort has nothing to order them by; and whichever way round they come
    out, the buckets are not in descending order of (year, month): no
    rearrangement of them is. *)
Lemma unparsable_date_is_in_no_order :
  let l := [ Shoot.mk "0" "Ava" "Luxe" "soon" 80 "t0" "t0";
             Shoot.mk "1" "Bea" "Chic" "2024-01-10" 100 "t1" "t1" ] in
  let noDate := mkStats None None None 1 80%float in
  let january := mkStats (Some "January") (Some 2024%Z) (Some 0%Z) 1 100%float in
  computeMonthlyStats isoYearMonth l ≡ₚ [noDate; january]
  /\ compareStats noDate january = None
  /\ compareStats january noDate = None
  /\ forall R, R ≡ₚ computeMonthlyStats isoYearMonth l ->
       ~ StronglySorted laterMonth R.
Proof.
  intros l noDate january.
  assert (computeMonthlyStats isoYearMonth l ≡ₚ [noDate; january]) as Hperm.
  { unfold computeMonthlyStats. rewrite sortBy_perm. vm_compute. reflexivity. }
  split; [done|]. split; [done|]. split; [done|].
  intros R HR Hsorted. rewrite Hperm in HR. symmetry in HR.
  apply Permutation_length_2_inv in HR as [-> | ->];
    apply StronglySorted_inv in Hsorted as [_ Hfirst];
    apply Forall_cons in Hfirst as [Hfirst _]; exact Hfirst.
Qed.

(** C9, amended.  [computeMonthlyStats] gives one bucket for each (year,
    month) in which a shoot of the list falls and no other bucket, a
    shoot whose date is no date falling in the bucket of NaN and NaN; a
    bucket's shootCount is the number of shoots of its (year, month), its
    totalEarnings is their prices added up from 0 in the order of the list,
    and its month name is that of its month number.  When every date is a
    valid date, the buckets come latest month first.  Two shoots dated
    2024-01-10 and 2024-01-20, which fall in January 2024, with prices 100
    and 50, give exactly one bucket: January 2024, shootCount 2,
    totalEarnings 150. *)
Theorem monthly_stats_by_year_and_month
    (localYearMonth : string -> option (Z * nat)) (l : list Shoot.t) :
  let R := computeMonthlyStats localYearMonth l in
  (forall s, s ∈ l -> exists st, st ∈ R /\ statYM st = shootYM localYearMonth s)
  /\ (forall st, st ∈ R ->
        exists s, s ∈ l /\ statYM st = shootYM localYearMonth s)
  /\ NoDup (map statYM R)
  /\ (forall st, st ∈ R ->
        shootCount st = length (group localYearMonth l (statYM st))
        /\ totalEarnings st = sumPrices (group localYearMonth l (statYM st))
        /\ month st = monthName (monthNumber st))
  /\ ((forall s, s ∈ l -> localYearMonth (Shoot.date s) <> None) ->
      StronglySorted laterMonth R)
  /\ (forall s1 s2,
        Shoot.date s1 = "2024-01-10" -> Shoot.price s1 = 100%float ->
        Shoot.date s2 = "2024-01-20" -> Shoot.price s2 = 50%float ->
        localYearMonth "2024-01-10" = Some (2024%Z, 0) ->
        localYearMonth "2024-01-20" = Some (2024%Z, 0) ->
        computeMonthlyStats localYearMonth [s1; s2]
        = [mkStats (Some "January") (Some 2024%Z) (Some 0%Z) 2 150%float]).
Proof.
  intros R.
  pose proof (loop_aggregated localYearMonth l) as Hagg.
  set (m := fold_left (addShoot localYearMonth) l []) in *.
  assert (R ≡ₚ mapValues m) as HR by apply sortBy_perm.
  assert (forall st, st ∈ R <-> exists k, (k, st) ∈ m) as Hmem.
  { intros st. rewrite HR. unfold mapValues. split.
    - intros Hin. apply list_elem_of_fmap in Hin as ([k st'] & -> & Hin). by exists k.
    - intros [k Hin]. apply list_elem_of_fmap. by exists (k, st). }
  split; [|split; [|split; [|split; [|split]]]].
  - intros s Hs. destruct Hagg as (_ & Hcover & Hsum).
    pose proof (Hcover s Hs) as Hkey.
    apply list_elem_of_fmap in Hkey as ([k st] & Hk & Hin).
    simpl in Hk. subst k. exists st. split; [apply Hmem; by eexists|].
    destruct (Hsum _ _ Hin) as (s0 & _ & Hkey0 & Hym & _).
    unfold statYM. rewrite Hym. by apply keyOf_iff.
  - intros st Hst. apply Hmem in Hst as [k Hin].
    destruct (bucket_of_entry _ _ _ _ _ Hagg Hin) as (s0 & Hs0 & Hym & _).
    by exists s0.
  - rewrite HR. by eapply buckets_distinct.
  - intros st Hst. apply Hmem in Hst as [k Hin].
    destruct (bucket_of_entry _ _ _ _ _ Hagg Hin)
      as (s0 & Hs0 & Hym & Hmonth & Hcount & Htotal).
    done.
  - intros Hvalid. apply sortBy_sorted.
    + by eapply buckets_valid.
    + by eapply buckets_distinct.
  - intros [i1 n1 sa1 d1 p1 c1 u1] [i2 n2 sa2 d2 p2 c2 u2]. simpl.
    intros -> -> -> -> H1 H2.
    unfold computeMonthlyStats. simpl.
    unfold addShoot, keyOf, getFullYear, getMonth. simpl.
    rewrite H1, H2. vm_compute. reflexivity.
Qed.

Lemma monthly_stats_by_year_and_month_witness :
  computeMonthlyStats isoYearMonth
    [ Shoot.mk "0" "Ava" "Luxe" "2024-01-10" 100 "t0" "t0";
      Shoot.mk "1" "Bea" "Chic" "2024-01-20" 50 "t1" "t1" ]
  = [mkStats (Some "January") (Some 2024%Z) (Some 0%Z) 2 150%float].
Proof.
  apply (monthly_stats_by_year_and_month isoYearMonth []); reflexivity.
Defined.

(** Five shoots over three months: the buckets come out latest first. *)
Example monthly_stats_of_five_shoots :
  computeMonthlyStats isoYearMonth
    [ Shoot.mk "0" "Ava" "Luxe" "2023-12-05T10:00:00.000Z" 80 "t0" "t0";
      Shoot.mk "1" "Bea" "Chic" "2024-02-01T10:00:00.000Z" 120 "t1" "t1";
      Shoot.mk "2" "Cat" "Luxe" "2024-01-10T10:00:00.000Z" 100 "t2" "t2";
      Shoot.mk "3" "Dee" "Chic" "2023-12-24T10:00:00.000Z" 20 "t3" "t3";
      Shoot.mk "4" "Eve" "Luxe" "2024-01-20T10:00:00.000Z" 50 "t4" "t4" ]
  = [ mkStats (Some "February") (Some 2024%Z) (Some 1%Z) 1 120%float;
      mkStats (Some "January") (Some 2024%Z) (Some 0%Z) 2 150%float;
      mkStats (Some "December") (Some 2023%Z) (Some 11%Z) 2 100%float ].
Proof. vm_compute. reflexivity. Qed.

Lemma update_replaces_form_fields_and_stamp_witness :
  let nowAt := fun k : nat => "2024-03-0" +:+ pretty k in
  let w := mkWorld
    (Stored (mkData [Shoot.mk "a" "Ava" "Luxe" "2024-03-01" 150
                       "2024-03-00" "2024-03-00"] []))
    [] 1 1 in
  let form := ShootFormData.mk "Ava" "Luxe" "2024-03-02" 175 in
  exists idx old upd w',
    updateShoot nowAt "a" form w = (Some upd, w')
    /\ shoots (docOf w) !! idx = Some old
    /\ Shoot.id old = "a"
    /\ Shoot.id upd = Shoot.id old
    /\ Shoot.createdAt upd = Shoot.createdAt old
    /\ Shoot.modelName upd = ShootFormData.modelName form
    /\ Shoot.salonName upd = ShootFormData.salonName form
    /\ Shoot.date upd = ShootFormData.date form
    /\ Shoot.price upd = ShootFormData.price form
    /\ Shoot.updatedAt upd = nowAt (clockReads w)
    /\ (laterThan (Shoot.updatedAt upd) (Shoot.updatedAt old)
        <-> laterThan (nowAt (clockReads w)) (Shoot.updatedAt old))
    /\ fsLog w'
       = fsLog w
         ++ [EvRead;
             EvWrite (mkData (<[idx := upd]> (shoots (docOf w)))
                        (editedShoots (docOf w)))]
    /\ (jsonExact (ShootFormData.price form) = true ->
        shoots (docOf w') = <[idx := upd]> (shoots (docOf w))
        /\ editedShoots (docOf w') = editedShoots (docOf w)).
Proof.
  intros nowAt w form.
  apply (update_replaces_form_fields_and_stamp (fun k => pretty k) nowAt w "a" form).
  refine (bool_decide_unpack _ _). vm_compute. exact I.
Defined.

(** ** A request scenario, evaluated

    POST /api/shoots with Ava, Luxe, 2024-03-01, 150 is answered 201 with
    a generated id and createdAt = updatedAt; POST move-to-edited on that
    id is answered 201 with an EditedShoot of the same content under
    another id; GET on the original id is then answered 404. *)
Example create_move_get_scenario :
  let uuidAt := fun k : nat => pretty k in
  let nowAt := fun k : nat => "2024-03-01T09:00:00.00" +:+ pretty k +:+ "Z" in
  let StringToNumber := fun _ : string => nan in
  let b := mkBody (Some "Ava") (Some "Luxe") (Some "2024-03-01") (JNumber 150) in
  let (r1, w1) := postShootRoute uuidAt nowAt StringToNumber b initialWorld in
  let (r2, w2) := moveToEditedRoute uuidAt nowAt "0" w1 in
  let (r3, w3) := getShootRoute "0" w2 in
  r1 = mkResponse 201
         (PShoot (Shoot.mk "0" "Ava" "Luxe" "2024-03-01" 150
                    "2024-03-01T09:00:00.000Z" "2024-03-01T09:00:00.000Z"))
  /\ r2 = mkResponse 201
            (PEdited (EditedShoot.mk "1" "0" "Ava" "Luxe" "2024-03-01" 150
                        "2024-03-01T09:00:00.000Z" "2024-03-01T09:00:00.001Z"))
  /\ r3 = mkResponse 404 (PMessage "Shoot not found")
  /\ fsLog w3
     = [ EvRead; EvWrite (docOf w1); EvRead; EvWrite (docOf w2); EvRead ].
Proof. vm_compute. repeat split. Qed.

(** * Properties of the server at run time *)

(** ** Every operation, written out on a hit and on a miss *)

Lemma rt_readData_docOf (w : Runtime.World) :
  Runtime.readData w
  = (Runtime.Returns (Runtime.docOf w), Runtime.logged Runtime.EvRead w).
Proof.
  unfold Runtime.readData, Runtime.docOf.
  by destruct (Runtime.content w), (Runtime.readable w).
Qed.

Ltac rt_written w :=
  unfold Runtime.afterWrite, Runtime.whenWritten, Runtime.writeData,
    Runtime.contentAfterWrite;
  destruct w as [? ? [] ? ? ?]; simpl; rewrite <- app_assoc; reflexivity.

Lemma rt_createShoot_spec uuidAt nowAt (w : Runtime.World)
    (form : Runtime.ShootFormData.t) :
  let s := Runtime.Shoot.mk (uuidAt (Runtime.uuidCalls w))
             (Runtime.ShootFormData.modelName form)
             (Runtime.ShootFormData.salonName form)
             (Runtime.ShootFormData.date form)
             (Runtime.VNum (Runtime.ShootFormData.price form))
             (nowAt (Runtime.clockReads w)) (nowAt (Runtime.clockReads w)) in
  Runtime.createShoot uuidAt nowAt form w
  = (Runtime.whenWritten s w,
     Runtime.afterWrite
       (Runtime.mkData (Runtime.shoots (Runtime.docOf w) ++ [s])
          (Runtime.editedShoots (Runtime.docOf w))) 1 1 w).
Proof.
  unfold Runtime.createShoot, Runtime.bind. rewrite rt_readData_docOf.
  rt_written w.
Qed.

Lemma rt_updateShoot_hit nowAt (w : Runtime.World) (i : string) form idx old :
  findIndex (Runtime.hasId i) (Runtime.shoots (Runtime.docOf w)) = Some (idx, old) ->
  let upd := Runtime.Shoot.mk (Runtime.Shoot.id old)
               (Runtime.ShootFormData.modelName form)
               (Runtime.ShootFormData.salonName form)
               (Runtime.ShootFormData.date form)
               (Runtime.VNum (Runtime.ShootFormData.price form))
               (Runtime.Shoot.createdAt old) (nowAt (Runtime.clockReads w)) in
  Runtime.updateShoot nowAt i form w
  = (Runtime.whenWritten (Some upd) w,
     Runtime.afterWrite
       (Runtime.mkData (<[idx := upd]> (Runtime.shoots (Runtime.docOf w)))
          (Runtime.editedShoots (Runtime.docOf w))) 0 1 w).
Proof.
  intros H. unfold Runtime.updateShoot, Runtime.bind. rewrite rt_readData_docOf.
  rewrite H. rt_written w.
Qed.

Lemma rt_updateShoot_miss nowAt (w : Runtime.World) (i : string) form :
  findIndex (Runtime.hasId i) (Runtime.shoots (Runtime.docOf w)) = None ->
  Runtime.updateShoot nowAt i form w
  = (Runtime.Returns None, Runtime.logged Runtime.EvRead w).
Proof.
  intros H. unfold Runtime.updateShoot, Runtime.bind. rewrite rt_readData_docOf.
  by rewrite H.
Qed.

Lemma rt_deleteShoot_hit (w : Runtime.World) (i : string) idx s :
  findIndex (Runtime.hasId i) (Runtime.shoots (Runtime.docOf w)) = Some (idx, s) ->
  Runtime.deleteShoot i w
  = (Runtime.whenWritten true w,
     Runtime.afterWrite
       (Runtime.mkData (delete idx (Runtime.shoots (Runtime.docOf w)))
          (Runtime.editedShoots (Runtime.docOf w))) 0 0 w).
Proof.
  intros H. unfold Runtime.deleteShoot, Runtime.bind. rewrite rt_readData_docOf.
  rewrite H. rt_written w.
Qed.

Lemma rt_deleteShoot_miss (w : Runtime.World) (i : string) :
  findIndex (Runtime.hasId i) (Runtime.shoots (Runtime.docOf w)) = None ->
  Runtime.deleteShoot i w = (Runtime.Returns false, Runtime.logged Runtime.EvRead w).
Proof.
  intros H. unfold Runtime.deleteShoot, Runtime.bind. rewrite rt_readData_docOf.
  by rewrite H.
Qed.

Lemma rt_moveShootToEdited_hit uuidAt nowAt (w : Runtime.World) (i : string) idx s :
  findIndex (Runtime.hasId i) (Runtime.shoots (Runtime.docOf w)) = Some (idx, s) ->
  let e := Runtime.EditedShoot.mk (uuidAt (Runtime.uuidCalls w)) (Runtime.Shoot.id s)
             (Runtime.Shoot.modelName s) (Runtime.Shoot.salonName s)
             (Runtime.Shoot.date s) (Runtime.Shoot.price s)
             (Runtime.Shoot.createdAt s) (nowAt (Runtime.clockReads w)) in
  Runtime.moveShootToEdited uuidAt nowAt i w
  = (Runtime.whenWritten (Some e) w,
     Runtime.afterWrite
       (Runtime.mkData (delete idx (Runtime.shoots (Runtime.docOf w)))
          (Runtime.editedShoots (Runtime.docOf w) ++ [e])) 1 1 w).
Proof.
  intros H. unfold Runtime.moveShootToEdited, Runtime.bind. rewrite rt_readData_docOf.
  rewrite H. rt_written w.
Qed.

Lemma rt_moveShootToEdited_miss uuidAt nowAt (w : Runtime.World) (i : string) :
  findIndex (Runtime.hasId i) (Runtime.shoots (Runtime.docOf w)) = None ->
  Runtime.moveShootToEdited uuidAt nowAt i w
  = (Runtime.Returns None, Runtime.logged Runtime.EvRead w).
Proof.
  intros H. unfold Runtime.moveShootToEdited, Runtime.bind. rewrite rt_readData_docOf.
  by rewrite H.
Qed.

Lemma rt_updateEditedShoot_hit nowAt (w : Runtime.World) (i : string) form idx old :
  findIndex (Runtime.editedHasId i) (Runtime.editedShoots (Runtime.docOf w))
  = Some (idx, old) ->
  let upd := Runtime.EditedShoot.mk (Runtime.EditedShoot.id old)
               (Runtime.EditedShoot.originalShootId old)
               (Runtime.ShootFormData.modelName form)
               (Runtime.ShootFormData.salonName form)
               (Runtime.ShootFormData.date form)
               (Runtime.VNum (Runtime.ShootFormData.price form))
               (Runtime.EditedShoot.createdAt old) (nowAt (Runtime.clockReads w)) in
  Runtime.updateEditedShoot nowAt i form w
  = (Runtime.whenWritten (Some upd) w,
     Runtime.afterWrite
       (Runtime.mkData (Runtime.shoots (Runtime.docOf w))
          (<[idx := upd]> (Runtime.editedShoots (Runtime.docOf w)))) 0 1 w).
Proof.
  intros H. unfold Runtime.updateEditedShoot, Runtime.bind. rewrite rt_readData_docOf.
  rewrite H. rt_written w.
Qed.

Lemma rt_updateEditedShoot_miss nowAt (w : Runtime.World) (i : string) form :
  findIndex (Runtime.editedHasId i) (Runtime.editedShoots (Runtime.docOf w)) = None ->
  Runtime.updateEditedShoot nowAt i form w
  = (Runtime.Returns None, Runtime.logged Runtime.EvRead w).
Proof.
  intros H. unfold Runtime.updateEditedShoot, Runtime.bind. rewrite rt_readData_docOf.
  by rewrite H.
Qed.

Lemma rt_moveEditedShootBack_hit uuidAt nowAt (w : Runtime.World) (i : string) idx e :
  findIndex (Runtime.editedHasId i) (Runtime.editedShoots (Runtime.docOf w))
  = Some (idx, e) ->
  let s := Runtime.Shoot.mk (uuidAt (Runtime.uuidCalls w))
             (Runtime.EditedShoot.modelName e) (Runtime.EditedShoot.salonName e)
             (Runtime.EditedShoot.date e) (Runtime.EditedShoot.price e)
             (Runtime.EditedShoot.createdAt e) (nowAt (Runtime.clockReads w)) in
  Runtime.moveEditedShootBack uuidAt nowAt i w
  = (Runtime.whenWritten (Some s) w,
     Runtime.afterWrite
       (Runtime.mkData (Runtime.shoots (Runtime.docOf w) ++ [s])
          (delete idx (Runtime.editedShoots (Runtime.docOf w)))) 1 1 w).
Proof.
  intros H. unfold Runtime.moveEditedShootBack, Runtime.bind. rewrite rt_readData_docOf.
  rewrite H. rt_written w.
Qed.

Lemma rt_moveEditedShootBack_miss uuidAt nowAt (w : Runtime.World) (i : string) :
  findIndex (Runtime.editedHasId i) (Runtime.editedShoots (Runtime.docOf w)) = None ->
  Runtime.moveEditedShootBack uuidAt nowAt i w
  = (Runtime.Returns None, Runtime.logged Runtime.EvRead w).
Proof.
  intros H. unfold Runtime.moveEditedShootBack, Runtime.bind. rewrite rt_readData_docOf.
  by rewrite H.
Qed.

Lemma rt_deleteEditedShoot_hit (w : Runtime.World) (i : string) idx e :
  findIndex (Runtime.editedHasId i) (Runtime.editedShoots (Runtime.docOf w))
  = Some (idx, e) ->
  Runtime.deleteEditedShoot i w
  = (Runtime.whenWritten true w,
     Runtime.afterWrite
       (Runtime.mkData (Runtime.shoots (Runtime.docOf w))
          (delete idx (Runtime.editedShoots (Runtime.docOf w)))) 0 0 w).
Proof.
  intros H. unfold Runtime.deleteEditedShoot, Runtime.bind. rewrite rt_readData_docOf.
  rewrite H. rt_written w.
Qed.

Lemma rt_deleteEditedShoot_miss (w : Runtime.World) (i : string) :
  findIndex (Runtime.editedHasId i) (Runtime.editedShoots (Runtime.docOf w)) = None ->
  Runtime.deleteEditedShoot i w
  = (Runtime.Returns false, Runtime.logged Runtime.EvRead w).
Proof.
  intros H. unfold Runtime.deleteEditedShoot, Runtime.bind. rewrite rt_readData_docOf.
  by rewrite H.
Qed.

Lemma rt_unreadable_docOf (w : Runtime.World) :
  Runtime.content w = Runtime.NoFile \/ Runtime.content w = Runtime.Unparsable
  \/ Runtime.readable w = false
  \/ Runtime.content w = Runtime.Holds (Runtime.mkData [] []) ->
  Runtime.docOf w = Runtime.emptyData.
Proof.
  unfold Runtime.docOf. intros [-> | [-> | [-> | ->]]]; [done..| |].
  - by destruct (Runtime.content w).
  - by destruct (Runtime.readable w).
Qed.

(** ** A missing or unreadable file *)

(** C8. When the data file is absent, cannot be read, or does not parse,
    [readData] does not throw: it gives the empty two-bucket document,
    and every operation does what it does on a file that holds the empty
    document, the fourth case below.  The four reads give an empty list
    or nothing; the six operations that take an id report not-found and
    write nothing.  [createShoot] calls [writeData] with the document
    that holds the new Shoot alone: when the write returns, the Shoot is
    returned and whatever the file held is replaced; when the write
    throws, so does [createShoot], on a file that holds the empty document
    as on one that cannot be read.  A file that cannot be read is read as
    empty after the write as before it. *)
Theorem unreadable_file_is_empty_store uuidAt nowAt
    (w : Runtime.World) (i : string) (form : Runtime.ShootFormData.t) :
  Runtime.content w = Runtime.NoFile \/ Runtime.content w = Runtime.Unparsable
  \/ Runtime.readable w = false
  \/ Runtime.content w = Runtime.Holds (Runtime.mkData [] []) ->
  let w1 := Runtime.logged Runtime.EvRead w in
  let s := Runtime.Shoot.mk (uuidAt (Runtime.uuidCalls w))
             (Runtime.ShootFormData.modelName form)
             (Runtime.ShootFormData.salonName form)
             (Runtime.ShootFormData.date form)
             (Runtime.VNum (Runtime.ShootFormData.price form))
             (nowAt (Runtime.clockReads w)) (nowAt (Runtime.clockReads w)) in
  let w2 := snd (Runtime.createShoot uuidAt nowAt form w) in
  Runtime.readData w = (Runtime.Returns (Runtime.mkData [] []), w1)
  /\ Runtime.getShoots w = (Runtime.Returns [], w1)
  /\ Runtime.getShootById i w = (Runtime.Returns None, w1)
  /\ Runtime.getEditedShoots w = (Runtime.Returns [], w1)
  /\ Runtime.getEditedShootById i w = (Runtime.Returns None, w1)
  /\ Runtime.updateShoot nowAt i form w = (Runtime.Returns None, w1)
  /\ Runtime.deleteShoot i w = (Runtime.Returns false, w1)
  /\ Runtime.moveShootToEdited uuidAt nowAt i w = (Runtime.Returns None, w1)
  /\ Runtime.updateEditedShoot nowAt i form w = (Runtime.Returns None, w1)
  /\ Runtime.moveEditedShootBack uuidAt nowAt i w = (Runtime.Returns None, w1)
  /\ Runtime.deleteEditedShoot i w = (Runtime.Returns false, w1)
  /\ Runtime.fsLog w2
     = Runtime.fsLog w ++ [Runtime.EvRead; Runtime.EvWrite (Runtime.mkData [s] [])]
  /\ (Runtime.writes w = Runtime.WriteOk ->
      fst (Runtime.createShoot uuidAt nowAt form w) = Runtime.Returns s
      /\ Runtime.content w2
         = Runtime.Holds (Runtime.mkData [Runtime.shootThroughJson s] []))
  /\ (Runtime.writes w = Runtime.WriteRefused ->
      fst (Runtime.createShoot uuidAt nowAt form w)
      = Runtime.Throws Runtime.WriteFailed
      /\ Runtime.content w2 = Runtime.content w)
  /\ (Runtime.writes w = Runtime.WriteTorn ->
      fst (Runtime.createShoot uuidAt nowAt form w)
      = Runtime.Throws Runtime.WriteFailed
      /\ Runtime.content w2 = Runtime.Unparsable)
  /\ (Runtime.readable w = false -> Runtime.docOf w2 = Runtime.mkData [] []).
Proof.
  intros Hbad w1 s w2.
  pose proof (rt_unreadable_docOf w Hbad) as Hdoc.
  assert (findIndex (Runtime.hasId i) (Runtime.shoots (Runtime.docOf w)) = None)
    as Hp by (by rewrite Hdoc).
  assert (findIndex (Runtime.editedHasId i)
            (Runtime.editedShoots (Runtime.docOf w)) = None)
    as He by (by rewrite Hdoc).
  split; [by rewrite rt_readData_docOf, Hdoc|].
  split; [by unfold Runtime.getShoots, Runtime.bind;
            rewrite rt_readData_docOf, Hdoc|].
  split; [by unfold Runtime.getShootById, Runtime.bind;
            rewrite rt_readData_docOf, Hdoc|].
  split; [by unfold Runtime.getEditedShoots, Runtime.bind;
            rewrite rt_readData_docOf, Hdoc|].
  split; [by unfold Runtime.getEditedShootById, Runtime.bind;
            rewrite rt_readData_docOf, Hdoc|].
  split; [by apply rt_updateShoot_miss|].
  split; [by apply rt_deleteShoot_miss|].
  split; [by apply rt_moveShootToEdited_miss|].
  split; [by apply rt_updateEditedShoot_miss|].
  split; [by apply rt_moveEditedShootBack_miss|].
  split; [by apply rt_deleteEditedShoot_miss|].
  unfold w2. rewrite rt_createShoot_spec, Hdoc. simpl.
  unfold Runtime.whenWritten, Runtime.contentAfterWrite, Runtime.docOf. simpl.
  split; [done|].
  split; [by intros ->|]. split; [by intros ->|]. split; [by intros ->|].
  intros ->. unfold Runtime.contentAfterWrite.
  by destruct (Runtime.writes w), (Runtime.content w).
Qed.

Lemma unreadable_file_is_empty_store_witness :
  let w := Runtime.mkWorld Runtime.Unparsable true Runtime.WriteOk [] 0 0 in
  let form := Runtime.ShootFormData.mk (Runtime.VStr "Ava") (Runtime.VStr "Luxe")
                (Runtime.VStr "2024-03-01") 150 in
  let s := Runtime.Shoot.mk "0" (Runtime.VStr "Ava") (Runtime.VStr "Luxe")
             (Runtime.VStr "2024-03-01") (Runtime.VNum 150) "t" "t" in
  Runtime.readData w
  = (Runtime.Returns (Runtime.mkData [] []), Runtime.logged Runtime.EvRead w)
  /\ fst (Runtime.createShoot (fun k => pretty k) (fun _ => "t") form w)
     = Runtime.Returns s
  /\ Runtime.content (snd (Runtime.createShoot (fun k => pretty k) (fun _ => "t") form w))
     = Runtime.Holds (Runtime.mkData [s] []).
Proof.
  intros w form s.
  destruct (unreadable_file_is_empty_store (fun k => pretty k) (fun _ => "t")
              w "0" form (or_intror (or_introl eq_refl)))
    as (Hread & _ & _ & _ & _ & _ & _ & _ & _ & _ & _ & _ & Hwritten & _).
  split; [exact Hread|exact (Hwritten eq_refl)].
Defined.

(** ** The facade's validation, on any JSON body *)

Lemma rt_falsy_spec (x : option Runtime.Json) :
  Runtime.falsy x = true
  <-> x = None \/ x = Some Runtime.VNull \/ x = Some (Runtime.VBool false)
      \/ x = Some (Runtime.VStr "")
      \/ exists n, x = Some (Runtime.VNum n) /\ (is_zero n = true \/ is_nan n = true).
Proof.
  destruct x as [[|[]|n|s|l|l]|]; simpl; split; intros H;
    try done; try (by auto);
    try (by destruct H as [[=]|[[=]|[[=]|[[=]|(? & [=] & _)]]]]).
  - apply orb_true_iff in H. do 4 right. by exists n.
  - destruct H as [[=]|[[=]|[[=]|[[=]|(n' & [= <-] & H)]]]].
    by apply orb_true_iff.
  - apply bool_decide_eq_true in H as ->. auto.
  - destruct H as [[=]|[[=]|[[=]|[[= ->]|(? & [=] & _)]]]]. done.
Qed.

Lemma rt_looseNull_spec (x : option Runtime.Json) :
  Runtime.looseNull x = true <-> x = None \/ x = Some Runtime.VNull.
Proof.
  destruct x as [[]|]; simpl; split; try done; try (by intros [[=]|[=]]); auto.
Qed.

Lemma rt_present (x : option Runtime.Json) :
  Runtime.falsy x = false -> x = Some (Runtime.present x).
Proof. by destruct x. Qed.

(** C5, as stated, fails: a price that is present is never checked.  A
    body with price -5 passes the validation of POST /api/shoots: the
    store is called with -5, and the Shoot written to the file and
    returned with status 201 has the negative price.  A body whose price
    is the text "abc" is not answered with 400 either: the store is
    called with [Number("abc")], which is NaN, the Shoot returned with
    status 201 has that price, and the file holds the Shoot with price
    null. *)
Lemma negative_price_reaches_the_store :
  let uuidAt := fun k : nat => pretty k in
  let nowAt := fun _ : nat => "2024-03-01T09:00:00.000Z" in
  let StringToNumber := fun _ : string => nan in
  let ObjectToNumber := fun _ : Runtime.Json => Some nan in
  let text := fun s : string => Some (Runtime.VStr s) in
  let b := Runtime.mkBody (text "Ava") (text "Luxe") (text "2024-03-01")
             (Some (Runtime.VNum (-5))) in
  let b' := Runtime.mkBody (text "Ava") (text "Luxe") (text "2024-03-01")
              (text "abc") in
  let stored := fun p : Runtime.Json =>
    Runtime.Shoot.mk "0" (Runtime.VStr "Ava") (Runtime.VStr "Luxe")
      (Runtime.VStr "2024-03-01") p
      "2024-03-01T09:00:00.000Z" "2024-03-01T09:00:00.000Z" in
  (exists s w',
     Runtime.postShootRoute uuidAt nowAt StringToNumber ObjectToNumber b
       Runtime.initialWorld
     = (Runtime.Returns (Runtime.mkResponse 201 (Runtime.PShoot s)), w')
     /\ s = stored (Runtime.VNum (-5))
     /\ Runtime.fsLog w' = [Runtime.EvRead; Runtime.EvWrite (Runtime.mkData [s] [])]
     /\ Runtime.content w' = Runtime.Holds (Runtime.mkData [s] [])
     /\ validPrice (-5) = false)
  /\ (exists s w' n,
        Runtime.postShootRoute uuidAt nowAt StringToNumber ObjectToNumber b'
          Runtime.initialWorld
        = (Runtime.Returns (Runtime.mkResponse 201 (Runtime.PShoot s)), w')
        /\ s = stored (Runtime.VNum n)
        /\ is_nan n = true
        /\ validPrice n = false
        /\ Runtime.fsLog w' = [Runtime.EvRead; Runtime.EvWrite (Runtime.mkData [s] [])]
        /\ Runtime.content w'
           = Runtime.Holds (Runtime.mkData [stored Runtime.VNull] [])).
Proof.
  intros uuidAt nowAt StringToNumber ObjectToNumber text b b' stored. split.
  - eexists _, _. split; [vm_compute; reflexivity|]. by repeat split.
  - eexists _, _, _. split; [vm_compute; reflexivity|]. by repeat split.
Qed.

(** C5, amended.  The fields of a request body are JSON values of any
    kind.  POST /api/shoots, PUT /api/shoots/:id and
    PUT /api/edited-shoots/:id answer 400 exactly when modelName,
    salonName or date is falsy (absent, null, false, 0, NaN or the empty
    string) or price is absent or null, and then nothing of the store is
    called: the world is left as it was.  Every other body reaches the
    store, with the three values as they are, strings or not, and
    with [Number(price)], whatever number that is; the one exception is a
    price that is an object [Number] cannot convert, where the handler
    throws before the store is called. *)
Theorem facade_validation uuidAt nowAt StringToNumber ObjectToNumber
    (w : Runtime.World) (b : Runtime.Body) (i : string) :
  let bad := Runtime.mkResponse 400 (Runtime.PMessage "All fields are required") in
  let post := Runtime.postShootRoute uuidAt nowAt StringToNumber ObjectToNumber in
  let put := Runtime.putShootRoute nowAt StringToNumber ObjectToNumber in
  let putEdited := Runtime.putEditedRoute nowAt StringToNumber ObjectToNumber in
  let isFalsy := fun x : option Runtime.Json =>
    x = None \/ x = Some Runtime.VNull \/ x = Some (Runtime.VBool false)
    \/ x = Some (Runtime.VStr "")
    \/ exists n, x = Some (Runtime.VNum n) /\ (is_zero n = true \/ is_nan n = true) in
  (Runtime.fieldsMissing b = true
   <-> isFalsy (Runtime.body_modelName b) \/ isFalsy (Runtime.body_salonName b)
       \/ isFalsy (Runtime.body_date b)
       \/ Runtime.body_price b = None \/ Runtime.body_price b = Some Runtime.VNull)
  /\ (Runtime.fieldsMissing b = true ->
      post b w = (Runtime.Returns bad, w)
      /\ put i b w = (Runtime.Returns bad, w)
      /\ putEdited i b w = (Runtime.Returns bad, w))
  /\ (Runtime.fieldsMissing b = false ->
      exists m s d,
        Runtime.body_modelName b = Some m /\ Runtime.body_salonName b = Some s
        /\ Runtime.body_date b = Some d
        /\ match Runtime.Number StringToNumber ObjectToNumber (Runtime.body_price b) with
           | Runtime.Throws e =>
               post b w = (Runtime.Throws e, w)
               /\ put i b w = (Runtime.Throws e, w)
               /\ putEdited i b w = (Runtime.Throws e, w)
           | Runtime.Returns n =>
               let form := Runtime.ShootFormData.mk m s d n in
               post b w
               = match Runtime.createShoot uuidAt nowAt form w with
                 | (Runtime.Returns shoot, w') =>
                     (Runtime.Returns (Runtime.mkResponse 201 (Runtime.PShoot shoot)), w')
                 | (Runtime.Throws e, w') => (Runtime.Throws e, w')
                 end
               /\ put i b w
                  = match Runtime.updateShoot nowAt i form w with
                    | (Runtime.Returns (Some shoot), w') =>
                        (Runtime.Returns (Runtime.mkResponse 200 (Runtime.PShoot shoot)), w')
                    | (Runtime.Returns None, w') =>
                        (Runtime.Returns
                           (Runtime.mkResponse 404 (Runtime.PMessage "Shoot not found")), w')
                    | (Runtime.Throws e, w') => (Runtime.Throws e, w')
                    end
               /\ putEdited i b w
                  = match Runtime.updateEditedShoot nowAt i form w with
                    | (Runtime.Returns (Some edited), w') =>
                        (Runtime.Returns
                           (Runtime.mkResponse 200 (Runtime.PEdited edited)), w')
                    | (Runtime.Returns None, w') =>
                        (Runtime.Returns
                           (Runtime.mkResponse 404
                              (Runtime.PMessage "Edited shoot not found")), w')
                    | (Runtime.Throws e, w') => (Runtime.Throws e, w')
                    end
           end).
Proof.
  intros bad post put putEdited isFalsy.
  unfold post, put, putEdited, Runtime.postShootRoute, Runtime.putShootRoute,
    Runtime.putEditedRoute.
  split; [|split].
  - unfold Runtime.fieldsMissing, isFalsy.
    rewrite !orb_true_iff, !rt_falsy_spec, rt_looseNull_spec. tauto.
  - intros ->. done.
  - intros Hok. rewrite Hok.
    unfold Runtime.fieldsMissing in Hok. rewrite !orb_false_iff in Hok.
    destruct Hok as (((Hm & Hs) & Hd) & _).
    exists (Runtime.present (Runtime.body_modelName b)),
      (Runtime.present (Runtime.body_salonName b)),
      (Runtime.present (Runtime.body_date b)).
    split; [by apply rt_present|]. split; [by apply rt_present|].
    split; [by apply rt_present|].
    unfold Runtime.formOf, Runtime.bind, Runtime.lift, Runtime.ret.
    destruct (Runtime.Number _ _ _) as [n|e]; [|done].
    simpl.
    destruct (Runtime.createShoot _ _ _ w) as [[shoot|e] w1];
      destruct (Runtime.updateShoot _ _ _ w) as [[[shoot'|]|e'] w2];
      destruct (Runtime.updateEditedShoot _ _ _ w) as [[[edited|]|e''] w3]; done.
Qed.

Lemma facade_validation_witness :
  let uuidAt := fun k : nat => pretty k in
  let nowAt := fun _ : nat => "2024-03-01T09:00:00.000Z" in
  let StringToNumber := fun _ : string => nan in
  let ObjectToNumber := fun _ : Runtime.Json => Some nan in
  let b := Runtime.mkBody (Some (Runtime.VStr "Ava")) (Some (Runtime.VNum zero))
             (Some (Runtime.VStr "2024-03-01")) (Some (Runtime.VStr "abc")) in
  let bad := Runtime.mkResponse 400 (Runtime.PMessage "All fields are required") in
  Runtime.postShootRoute uuidAt nowAt StringToNumber ObjectToNumber b
    Runtime.initialWorld
  = (Runtime.Returns bad, Runtime.initialWorld)
  /\ Runtime.putShootRoute nowAt StringToNumber ObjectToNumber "0" b
       Runtime.initialWorld
     = (Runtime.Returns bad, Runtime.initialWorld)
  /\ Runtime.putEditedRoute nowAt StringToNumber ObjectToNumber "0" b
       Runtime.initialWorld
     = (Runtime.Returns bad, Runtime.initialWorld).
Proof.
  intros uuidAt nowAt StringToNumber ObjectToNumber b bad.
  apply (facade_validation uuidAt nowAt StringToNumber ObjectToNumber
           Runtime.initialWorld b "0").
  reflexivity.
Defined.

(** What the check lets through.  A modelName that is 0, false, null or
    the empty string is answered 400 and nothing is touched; a modelName
    that is 123, true, an empty array or an empty object passes the
    check, and is the modelName of the Shoot that the store writes. *)
Example facade_on_values_that_are_no_strings :
  let post := fun m : Runtime.Json =>
    Runtime.postShootRoute (fun k => pretty k) (fun _ => "2024-03-01T09:00:00.000Z")
      (fun _ => nan) (fun _ => Some nan)
      (Runtime.mkBody (Some m) (Some (Runtime.VStr "Luxe"))
         (Some (Runtime.VStr "2024-03-01")) (Some (Runtime.VNum 150)))
      Runtime.initialWorld in
  let refused := fun m : Runtime.Json =>
    post m
    = (Runtime.Returns
         (Runtime.mkResponse 400 (Runtime.PMessage "All fields are required")),
       Runtime.initialWorld) in
  let stored := fun m : Runtime.Json =>
    exists s w',
      post m = (Runtime.Returns (Runtime.mkResponse 201 (Runtime.PShoot s)), w')
      /\ Runtime.Shoot.modelName s = m
      /\ Runtime.content w' = Runtime.Holds (Runtime.mkData [s] []) in
  refused (Runtime.VNum zero) /\ refused (Runtime.VBool false)
  /\ refused Runtime.VNull /\ refused (Runtime.VStr "")
  /\ stored (Runtime.VNum 123) /\ stored (Runtime.VBool true)
  /\ stored (Runtime.VArr []) /\ stored (Runtime.VObj []).
Proof.
  intros post refused stored.
  repeat split; try reflexivity; eexists _, _; (split; [vm_compute; reflexivity|]);
    split; reflexivity.
Qed.

(** What the file keeps of a number. *)
Example numbers_through_json :
  Runtime.throughJson (Runtime.VNum 150) = Runtime.VNum 150
  /\ Runtime.throughJson (Runtime.VNum (-5)) = Runtime.VNum (-5)
  /\ Runtime.throughJson (Runtime.VNum (-0)) = Runtime.VNum 0
  /\ Runtime.throughJson (Runtime.VNum nan) = Runtime.VNull
  /\ Runtime.throughJson (Runtime.VNum infinity) = Runtime.VNull
  /\ Runtime.throughJson (Runtime.VNum neg_infinity) = Runtime.VNull
  /\ Runtime.throughJson
       (Runtime.VArr [Runtime.VNum infinity;
                      Runtime.VObj [("a", Runtime.VNum (-0))]])
     = Runtime.VArr [Runtime.VNull; Runtime.VObj [("a", Runtime.VNum 0)]].
Proof. vm_compute. repeat split. Qed.

(** * Further properties of the store *)

(** ** Deleting *)

Lemma getEditedShootById_result (w : World) (i : string) :
  fst (getEditedShootById i w) = find (editedHasId i) (editedShoots (docOf w)).
Proof. by rewrite getEditedShootById_spec. Qed.

(** X1. In a store whose Pending identifiers are pairwise different,
    [deleteShoot i] on an [i] present in Pending returns true, takes the
    record with that id out of Pending and leaves every other record of
    both buckets where it was; afterwards [getShootById i] finds nothing
    and a second [deleteShoot i] returns false and changes nothing. *)
Theorem deleteShoot_removes_the_record (w : World) (i : string) :
  NoDup (pendingIds (docOf w)) ->
  i ∈ pendingIds (docOf w) ->
  exists idx s w',
    deleteShoot i w = (true, w')
    /\ shoots (docOf w) !! idx = Some s
    /\ Shoot.id s = i
    /\ shoots (docOf w') = delete idx (shoots (docOf w))
    /\ editedShoots (docOf w') = editedShoots (docOf w)
    /\ fst (getShootById i w') = None
    /\ fst (deleteShoot i w') = false
    /\ docOf (snd (deleteShoot i w')) = docOf w'.
Proof.
  intros Hnd Hin.
  destruct (findIndex_hasId_is_Some i _ Hin) as (idx & s & Hfind).
  destruct (findIndex_hasId_Some _ _ _ _ Hfind) as [Hl Hid].
  pose proof (key_gone_after_delete Shoot.id _ idx s Hnd Hl) as Hgone.
  rewrite Hid in Hgone. apply findIndex_hasId_None in Hgone.
  eexists idx, s, _. split; [apply (deleteShoot_hit _ _ _ _ Hfind)|].
  repeat split; try done.
  - rewrite getShootById_result. simpl. by apply find_None.
  - by rewrite deleteShoot_miss.
  - by rewrite deleteShoot_miss.
Qed.

Lemma deleteShoot_removes_the_record_witness :
  let w := mkWorld
    (Stored (mkData [Shoot.mk "a" "Ava" "Luxe" "2024-03-01" 150 "t0" "t0";
                     Shoot.mk "b" "Bea" "Chic" "2024-03-02" 90 "t1" "t1"] []))
    [] 2 2 in
  exists idx s w',
    deleteShoot "b" w = (true, w')
    /\ shoots (docOf w) !! idx = Some s
    /\ Shoot.id s = "b"
    /\ shoots (docOf w') = delete idx (shoots (docOf w))
    /\ editedShoots (docOf w') = editedShoots (docOf w)
    /\ fst (getShootById "b" w') = None
    /\ fst (deleteShoot "b" w') = false
    /\ docOf (snd (deleteShoot "b" w')) = docOf w'.
Proof.
  intros w. apply (deleteShoot_removes_the_record w "b").
  - refine (bool_decide_unpack _ _). vm_compute. exact I.
  - refine (bool_decide_unpack _ _). vm_compute. exact I.
Defined.

(** X2. The same for the Edited bucket: [deleteEditedShoot i] on a
    present [i], identifiers in Edited pairwise different, returns true,
    removes that record only, leaves Pending as it was, and afterwards
    [getEditedShootById i] finds nothing and a second delete returns
    false. *)
Theorem deleteEditedShoot_removes_the_record (w : World) (i : string) :
  NoDup (editedIds (docOf w)) ->
  i ∈ editedIds (docOf w) ->
  exists idx e w',
    deleteEditedShoot i w = (true, w')
    /\ editedShoots (docOf w) !! idx = Some e
    /\ EditedShoot.id e = i
    /\ editedShoots (docOf w') = delete idx (editedShoots (docOf w))
    /\ shoots (docOf w') = shoots (docOf w)
    /\ fst (getEditedShootById i w') = None
    /\ fst (deleteEditedShoot i w') = false
    /\ docOf (snd (deleteEditedShoot i w')) = docOf w'.
Proof.
  intros Hnd Hin.
  destruct (findIndex_editedHasId_is_Some i _ Hin) as (idx & e & Hfind).
  destruct (findIndex_editedHasId_Some _ _ _ _ Hfind) as [Hl Hid].
  pose proof (key_gone_after_delete EditedShoot.id _ idx e Hnd Hl) as Hgone.
  rewrite Hid in Hgone. apply findIndex_editedHasId_None in Hgone.
  eexists idx, e, _. split; [apply (deleteEditedShoot_hit _ _ _ _ Hfind)|].
  repeat split; try done.
  - rewrite getEditedShootById_result. simpl. by apply find_None.
  - by rewrite deleteEditedShoot_miss.
  - by rewrite deleteEditedShoot_miss.
Qed.

Lemma deleteEditedShoot_removes_the_record_witness :
  let w := mkWorld
    (Stored (mkData []
       [EditedShoot.mk "c" "a" "Ava" "Luxe" "2024-03-01" 150 "t0" "t2";
        EditedShoot.mk "d" "b" "Bea" "Chic" "2024-03-02" 90 "t1" "t3"]))
    [] 4 4 in
  exists idx e w',
    deleteEditedShoot "c" w = (true, w')
    /\ editedShoots (docOf w) !! idx = Some e
    /\ EditedShoot.id e = "c"
    /\ editedShoots (docOf w') = delete idx (editedShoots (docOf w))
    /\ shoots (docOf w') = shoots (docOf w)
    /\ fst (getEditedShootById "c" w') = None
    /\ fst (deleteEditedShoot "c" w') = false
    /\ docOf (snd (deleteEditedShoot "c" w')) = docOf w'.
Proof.
  intros w. apply (deleteEditedShoot_removes_the_record w "c").
  - refine (bool_decide_unpack _ _). vm_compute. exact I.
  - refine (bool_decide_unpack _ _). vm_compute. exact I.
Defined.

(** ** Moving back *)

(** X3. In a store whose Edited identifiers are pairwise different,
    [moveEditedShootBack i] on an [i] present in Edited takes that record
    out of Edited and appends exactly one Shoot to Pending, with the
    record's modelName, salonName, date, price and createdAt, the
    identifier [randomUUID()] returned and updatedAt the time read during
    the call; afterwards [getEditedShootById i] finds nothing. *)
Theorem moveEditedShootBack_moves_the_record uuidAt nowAt
    (w : World) (i : string) :
  NoDup (editedIds (docOf w)) ->
  i ∈ editedIds (docOf w) ->
  exists idx e s w',
    moveEditedShootBack uuidAt nowAt i w = (Some s, w')
    /\ editedShoots (docOf w) !! idx = Some e
    /\ EditedShoot.id e = i
    /\ editedShoots (docOf w') = delete idx (editedShoots (docOf w))
    /\ shoots (docOf w') = shoots (docOf w) ++ [s]
    /\ Shoot.id s = uuidAt (uuidCalls w)
    /\ Shoot.modelName s = EditedShoot.modelName e
    /\ Shoot.salonName s = EditedShoot.salonName e
    /\ Shoot.date s = EditedShoot.date e
    /\ Shoot.price s = EditedShoot.price e
    /\ Shoot.createdAt s = EditedShoot.createdAt e
    /\ Shoot.updatedAt s = nowAt (clockReads w)
    /\ fst (getEditedShootById i w') = None.
Proof.
  intros Hnd Hin.
  destruct (findIndex_editedHasId_is_Some i _ Hin) as (idx & e & Hfind).
  destruct (findIndex_editedHasId_Some _ _ _ _ Hfind) as [Hl Hid].
  pose proof (key_gone_after_delete EditedShoot.id _ idx e Hnd Hl) as Hgone.
  rewrite Hid in Hgone.
  eexists idx, e, _, _. split; [by apply moveEditedShootBack_hit|].
  repeat split; try done.
  rewrite getEditedShootById_result. simpl.
  apply find_None, findIndex_editedHasId_None. done.
Qed.

Lemma moveEditedShootBack_moves_the_record_witness :
  let w := mkWorld
    (Stored (mkData [Shoot.mk "b" "Bea" "Chic" "2024-03-02" 90 "t1" "t1"]
       [EditedShoot.mk "c" "a" "Ava" "Luxe" "2024-03-01" 150 "t0" "t2"]))
    [] 3 3 in
  exists idx e s w',
    moveEditedShootBack (fun _ => "3") (fun _ => "t3") "c" w = (Some s, w')
    /\ editedShoots (docOf w) !! idx = Some e
    /\ EditedShoot.id e = "c"
    /\ editedShoots (docOf w') = delete idx (editedShoots (docOf w))
    /\ shoots (docOf w') = shoots (docOf w) ++ [s]
    /\ Shoot.id s = "3"
    /\ Shoot.modelName s = EditedShoot.modelName e
    /\ Shoot.salonName s = EditedShoot.salonName e
    /\ Shoot.date s = EditedShoot.date e
    /\ Shoot.price s = EditedShoot.price e
    /\ Shoot.createdAt s = EditedShoot.createdAt e
    /\ Shoot.updatedAt s = "t3"
    /\ fst (getEditedShootById "c" w') = None.
Proof.
  intros w.
  apply (moveEditedShootBack_moves_the_record (fun _ => "3") (fun _ => "t3") w "c").
  - refine (bool_decide_unpack _ _). vm_compute. exact I.
  - refine (bool_decide_unpack _ _). vm_compute. exact I.
Defined.

(** ** Updating and reading back *)

Lemma list_find_insert_hit {A} (P : A -> Prop) `{forall x, Decision (P x)}
    (l : list A) idx x y :
  list_find P l = Some (idx, x) -> P y ->
  list_find P (<[idx := y]> l) = Some (idx, y).
Proof.
  intros Hfind Hy. apply list_find_Some in Hfind as (Hl & Hx & Hbefore).
  apply list_find_Some. split; [|split; [done|]].
  - apply list_lookup_insert_eq. by eapply lookup_lt_Some.
  - intros j z Hj Hlt. rewrite list_lookup_insert_ne in Hj by lia.
    by eapply Hbefore.
Qed.

Lemma list_find_insert_other {A} (P : A -> Prop) `{forall x, Decision (P x)}
    (l : list A) idx x y :
  l !! idx = Some x -> ~ P x -> ~ P y ->
  list_find P (<[idx := y]> l) = list_find P l.
Proof.
  revert idx. induction l as [|a l IH]; intros idx Hl Hx Hy; [done|].
  destruct idx as [|idx]; simpl in *.
  - injection Hl as ->. by rewrite !decide_False.
  - destruct (decide (P a)); [done|]. by rewrite (IH idx).
Qed.

(** X4. For a form whose price is a number that JSON holds exactly,
    [updateShoot] followed by [getShootById] on the same id returns the
    updated record, and what [getShootById] finds under any other id is
    what it found before the update; the same holds for
    [updateEditedShoot] and [getEditedShootById]. *)
Theorem update_then_get nowAt (w : World) (i : string) (form : ShootFormData.t) :
  jsonExact (ShootFormData.price form) = true ->
  (i ∈ pendingIds (docOf w) ->
   exists upd w',
     updateShoot nowAt i form w = (Some upd, w')
     /\ fst (getShootById i w') = Some upd
     /\ forall j, j <> i -> fst (getShootById j w') = fst (getShootById j w))
  /\ (i ∈ editedIds (docOf w) ->
      exists upd w',
        updateEditedShoot nowAt i form w = (Some upd, w')
        /\ fst (getEditedShootById i w') = Some upd
        /\ forall j, j <> i ->
             fst (getEditedShootById j w') = fst (getEditedShootById j w)).
Proof.
  intros _. split; intros Hin.
  - destruct (findIndex_hasId_is_Some i _ Hin) as (idx & old & Hfind).
    destruct (findIndex_hasId_Some _ _ _ _ Hfind) as [Hl Hid].
    eexists _, _. split; [apply (updateShoot_hit _ _ _ _ _ _ Hfind)|].
    rewrite !getShootById_result. simpl. split.
    + unfold find, findIndex in *.
      erewrite list_find_insert_hit; [done|exact Hfind|].
      unfold hasId. simpl. by apply bool_decide_eq_true.
    + intros j Hj. rewrite getShootById_result. unfold find, findIndex.
      erewrite list_find_insert_other; [done|exact Hl|..];
        unfold hasId; simpl; rewrite bool_decide_eq_true; congruence.
  - destruct (findIndex_editedHasId_is_Some i _ Hin) as (idx & old & Hfind).
    destruct (findIndex_editedHasId_Some _ _ _ _ Hfind) as [Hl Hid].
    eexists _, _. split; [apply (updateEditedShoot_hit _ _ _ _ _ _ Hfind)|].
    rewrite !getEditedShootById_result. simpl. split.
    + unfold find, findIndex in *.
      erewrite list_find_insert_hit; [done|exact Hfind|].
      unfold editedHasId. simpl. by apply bool_decide_eq_true.
    + intros j Hj. rewrite getEditedShootById_result. unfold find, findIndex.
      erewrite list_find_insert_other; [done|exact Hl|..];
        unfold editedHasId; simpl; rewrite bool_decide_eq_true; congruence.
Qed.

Lemma update_then_get_witness :
  let w := mkWorld
    (Stored (mkData [Shoot.mk "a" "Ava" "Luxe" "2024-03-01" 150 "t0" "t0";
                     Shoot.mk "b" "Bea" "Chic" "2024-03-02" 90 "t1" "t1"] []))
    [] 2 2 in
  let form := ShootFormData.mk "Bea" "Chic" "2024-03-05" 95 in
  exists upd w',
    updateShoot (fun _ => "t2") "b" form w = (Some upd, w')
    /\ fst (getShootById "b" w') = Some upd
    /\ forall j, j <> "b" -> fst (getShootById j w') = fst (getShootById j w).
Proof.
  intros w form. apply (update_then_get (fun _ => "t2") w "b" form).
  - reflexivity.
  - refine (bool_decide_unpack _ _). vm_compute. exact I.
Defined.

(** ** Creating *)

(** X5. For a form whose price is a number that JSON holds exactly, and
    a file that is not one that cannot be read, [createShoot] appends the
    new Shoot at the end of Pending and leaves Edited as it was:
    [getShoots] then gives the former list followed by the new Shoot, and
    a record that [getShootById] found before the call is found, the
    same, after it. *)
Theorem createShoot_appends uuidAt nowAt (w : World) (form : ShootFormData.t) :
  jsonExact (ShootFormData.price form) = true ->
  file w <> ReadFails ->
  exists s w',
    createShoot uuidAt nowAt form w = (s, w')
    /\ fst (getShoots w') = fst (getShoots w) ++ [s]
    /\ fst (getEditedShoots w') = fst (getEditedShoots w)
    /\ forall j r, fst (getShootById j w) = Some r ->
                   fst (getShootById j w') = Some r.
Proof.
  intros _ _.
  eexists _, _. split; [apply createShoot_spec|].
  rewrite !getShoots_spec, !getEditedShoots_spec. simpl.
  split; [done|]. split; [done|].
  intros j r. rewrite !getShootById_result. simpl.
  unfold find, findIndex. intros Hfound.
  destruct (list_find _ (shoots (docOf w))) as [[idx r0]|] eqn:E; [|done].
  simpl in Hfound. injection Hfound as ->.
  by rewrite (list_find_app_l _ _ _ _ _ E).
Qed.

Lemma createShoot_appends_witness :
  let w := mkWorld
    (Stored (mkData [Shoot.mk "a" "Ava" "Luxe" "2024-03-01" 150 "t0" "t0"] []))
    [] 1 1 in
  exists s w',
    createShoot (fun _ => "b") (fun _ => "t1")
      (ShootFormData.mk "Bea" "Chic" "2024-03-02" 90) w = (s, w')
    /\ fst (getShoots w') = fst (getShoots w) ++ [s]
    /\ fst (getEditedShoots w') = fst (getEditedShoots w)
    /\ forall j r, fst (getShootById j w) = Some r ->
                   fst (getShootById j w') = Some r.
Proof.
  intros w.
  apply (createShoot_appends (fun _ => "b") (fun _ => "t1") w
           (ShootFormData.mk "Bea" "Chic" "2024-03-02" 90)).
  - reflexivity.
  - discriminate.
Defined.

(** ** Counting records *)

Ltac exec_cases Hexec w :=
  simpl in Hexec; unfold bind in Hexec;
  repeat match type of Hexec with
  | context [getShoots ?x] => rewrite getShoots_spec in Hexec
  | context [getShootById ?i ?x] => rewrite getShootById_spec in Hexec
  | context [getEditedShoots ?x] => rewrite getEditedShoots_spec in Hexec
  | context [getEditedShootById ?i ?x] => rewrite getEditedShootById_spec in Hexec
  | context [createShoot ?u ?n ?f ?x] => rewrite createShoot_spec in Hexec
  end.

(** What one call does to the number of records in each bucket. *)
Lemma exec_bucket_sizes uuidAt nowAt
    (w w' : World) (op : Op) (out : Outcome) :
  exec uuidAt nowAt op w = (out, w') ->
  let p := length (shoots (docOf w)) in
  let e := length (editedShoots (docOf w)) in
  let p' := length (shoots (docOf w')) in
  let e' := length (editedShoots (docOf w')) in
  match op, out with
  | CreateShoot _, _ => p' = p + 1 /\ e' = e
  | DeleteShoot _, OFlag true => p' + 1 = p /\ e' = e
  | DeleteEditedShoot _, OFlag true => p' = p /\ e' + 1 = e
  | MoveShootToEdited _, OEdited (Some _) => p' + 1 = p /\ e' = e + 1
  | MoveEditedShootBack _, OShoot (Some _) => p' = p + 1 /\ e' + 1 = e
  | _, _ => p' = p /\ e' = e
  end.
Proof.
  intros Hexec.
  assert (forall {A} (l : list A) idx x,
            l !! idx = Some x -> length (delete idx l) + 1 = length l) as Hdel.
  { intros A l idx x Hl. rewrite length_delete by by eexists.
    apply lookup_lt_Some in Hl. lia. }
  destruct op; exec_cases Hexec w.
  - by injection Hexec as <- <-.
  - by injection Hexec as <- <-.
  - injection Hexec as <- <-. simpl. by rewrite length_app.
  - by_findIndex_shoots w i.
    + rewrite (updateShoot_hit _ _ _ _ _ _ E) in Hexec. injection Hexec as <- <-.
      simpl. by rewrite length_insert.
    + rewrite (updateShoot_miss _ _ _ _ E) in Hexec. by injection Hexec as <- <-.
  - by_findIndex_shoots w i.
    + rewrite (deleteShoot_hit _ _ _ _ E) in Hexec. injection Hexec as <- <-.
      destruct (findIndex_hasId_Some _ _ _ _ E) as [Hl _]. simpl.
      split; [by eapply Hdel|done].
    + rewrite (deleteShoot_miss _ _ E) in Hexec. by injection Hexec as <- <-.
  - by_findIndex_shoots w i.
    + rewrite (moveShootToEdited_hit _ _ _ _ _ _ E) in Hexec.
      injection Hexec as <- <-.
      destruct (findIndex_hasId_Some _ _ _ _ E) as [Hl _]. simpl.
      rewrite length_app. split; [by eapply Hdel|done].
    + rewrite (moveShootToEdited_miss _ _ _ _ E) in Hexec.
      by injection Hexec as <- <-.
  - by injection Hexec as <- <-.
  - by injection Hexec as <- <-.
  - by_findIndex_edited w i.
    + rewrite (updateEditedShoot_hit _ _ _ _ _ _ E) in Hexec.
      injection Hexec as <- <-. simpl. by rewrite length_insert.
    + rewrite (updateEditedShoot_miss _ _ _ _ E) in Hexec.
      by injection Hexec as <- <-.
  - by_findIndex_edited w i.
    + rewrite (moveEditedShootBack_hit _ _ _ _ _ _ E) in Hexec.
      injection Hexec as <- <-.
      destruct (findIndex_editedHasId_Some _ _ _ _ E) as [Hl _]. simpl.
      rewrite length_app. split; [done|by eapply Hdel].
    + rewrite (moveEditedShootBack_miss _ _ _ _ E) in Hexec.
      by injection Hexec as <- <-.
  - by_findIndex_edited w i.
    + rewrite (deleteEditedShoot_hit _ _ _ _ E) in Hexec. injection Hexec as <- <-.
      destruct (findIndex_editedHasId_Some _ _ _ _ E) as [Hl _]. simpl.
      split; [done|by eapply Hdel].
    + rewrite (deleteEditedShoot_miss _ _ E) in Hexec. by injection Hexec as <- <-.
Qed.

(** ** What a call leaves alone *)

(** X7. A call that works on the Pending bucket only ([createShoot],
    [updateShoot], [deleteShoot]) leaves the Edited list exactly as it
    was, a call that works on the Edited bucket only ([updateEditedShoot],
    [deleteEditedShoot]) leaves the Pending list exactly as it was, and a
    move that reports not-found leaves both. *)
Theorem other_bucket_untouched uuidAt nowAt
    (w w' : World) (op : Op) (out : Outcome) :
  exec uuidAt nowAt op w = (out, w') ->
  match op with
  | CreateShoot _ | UpdateShoot _ _ | DeleteShoot _ =>
      editedShoots (docOf w') = editedShoots (docOf w)
  | UpdateEditedShoot _ _ | DeleteEditedShoot _ =>
      shoots (docOf w') = shoots (docOf w)
  | MoveShootToEdited _ | MoveEditedShootBack _ =>
      notFound out = true -> docOf w' = docOf w
  | _ => docOf w' = docOf w
  end.
Proof.
  intros Hexec. destruct op; exec_cases Hexec w.
  - by injection Hexec as <- <-.
  - by injection Hexec as <- <-.
  - by injection Hexec as <- <-.
  - by_findIndex_shoots w i.
    + rewrite (updateShoot_hit _ _ _ _ _ _ E) in Hexec. by injection Hexec as <- <-.
    + rewrite (updateShoot_miss _ _ _ _ E) in Hexec. by injection Hexec as <- <-.
  - by_findIndex_shoots w i.
    + rewrite (deleteShoot_hit _ _ _ _ E) in Hexec. by injection Hexec as <- <-.
    + rewrite (deleteShoot_miss _ _ E) in Hexec. by injection Hexec as <- <-.
  - by_findIndex_shoots w i.
    + rewrite (moveShootToEdited_hit _ _ _ _ _ _ E) in Hexec.
      by injection Hexec as <- <-.
    + rewrite (moveShootToEdited_miss _ _ _ _ E) in Hexec.
      by injection Hexec as <- <-.
  - by injection Hexec as <- <-.
  - by injection Hexec as <- <-.
  - by_findIndex_edited w i.
    + rewrite (updateEditedShoot_hit _ _ _ _ _ _ E) in Hexec.
      by injection Hexec as <- <-.
    + rewrite (updateEditedShoot_miss _ _ _ _ E) in Hexec.
      by injection Hexec as <- <-.
  - by_findIndex_edited w i.
    + rewrite (moveEditedShootBack_hit _ _ _ _ _ _ E) in Hexec.
      by injection Hexec as <- <-.
    + rewrite (moveEditedShootBack_miss _ _ _ _ E) in Hexec.
      by injection Hexec as <- <-.
  - by_findIndex_edited w i.
    + rewrite (deleteEditedShoot_hit _ _ _ _ E) in Hexec. by injection Hexec as <- <-.
    + rewrite (deleteEditedShoot_miss _ _ E) in Hexec. by injection Hexec as <- <-.
Qed.

Lemma other_bucket_untouched_witness :
  let w := mkWorld
    (Stored (mkData [Shoot.mk "b" "Bea" "Chic" "2024-03-02" 90 "t1" "t1"]
       [EditedShoot.mk "c" "a" "Ava" "Luxe" "2024-03-01" 150 "t0" "t2"]))
    [] 3 3 in
  let r := exec (fun _ => "d") (fun _ => "t3")
             (UpdateEditedShoot "c" (ShootFormData.mk "Ava" "Luxe" "2024-03-04" 160))
             w in
  shoots (docOf (snd r)) = shoots (docOf w).
Proof.
  intros w r.
  apply (other_bucket_untouched (fun _ => "d") (fun _ => "t3") w (snd r)
           (UpdateEditedShoot "c" (ShootFormData.mk "Ava" "Luxe" "2024-03-04" 160))
           (fst r)).
  reflexivity.
Defined.

Lemma createdAts_insert_pending (l : list Shoot.t) idx old upd :
  l !! idx = Some old -> Shoot.createdAt upd = Shoot.createdAt old ->
  map Shoot.createdAt (<[idx := upd]> l) = map Shoot.createdAt l.
Proof.
  intros Hl Hc.
  change (Shoot.createdAt <$> <[idx:=upd]> l = Shoot.createdAt <$> l).
  rewrite list_fmap_insert. apply list_insert_id.
  by rewrite list_lookup_fmap, Hl, Hc.
Qed.

Lemma createdAts_insert_edited (l : list EditedShoot.t) idx old upd :
  l !! idx = Some old -> EditedShoot.createdAt upd = EditedShoot.createdAt old ->
  map EditedShoot.createdAt (<[idx := upd]> l) = map EditedShoot.createdAt l.
Proof.
  intros Hl Hc.
  change (EditedShoot.createdAt <$> <[idx:=upd]> l = EditedShoot.createdAt <$> l).
  rewrite list_fmap_insert. apply list_insert_id.
  by rewrite list_lookup_fmap, Hl, Hc.
Qed.

Lemma delete_then_cons_perm {A} (l : list A) idx x :
  l !! idx = Some x -> x :: delete idx l ≡ₚ l.
Proof.
  intros Hl. rewrite delete_take_drop.
  rewrite <- (take_drop_middle l idx x Hl) at 3.
  apply Permutation_middle.
Qed.

(** X8. No call rewrites a createdAt.  Over both buckets together, the
    createdAt stamps after an update or a move are the stamps before,
    rearranged; [createShoot] adds the time it read; a delete only takes
    stamps away. *)
Theorem createdAt_is_never_rewritten uuidAt nowAt
    (w w' : World) (op : Op) (out : Outcome) :
  exec uuidAt nowAt op w = (out, w') ->
  match op with
  | CreateShoot _ =>
      createdAts (docOf w') ≡ₚ nowAt (clockReads w) :: createdAts (docOf w)
  | DeleteShoot _ | DeleteEditedShoot _ =>
      createdAts (docOf w') ⊆+ createdAts (docOf w)
  | _ => createdAts (docOf w') ≡ₚ createdAts (docOf w)
  end.
Proof.
  intros Hexec. destruct op; exec_cases Hexec w.
  - by injection Hexec as <- <-.
  - by injection Hexec as <- <-.
  - injection Hexec as <- <-. unfold createdAts. simpl.
    rewrite map_app. simpl. rewrite <- app_assoc. simpl.
    symmetry. apply Permutation_middle.
  - by_findIndex_shoots w i.
    + rewrite (updateShoot_hit _ _ _ _ _ _ E) in Hexec. injection Hexec as <- <-.
      destruct (findIndex_hasId_Some _ _ _ _ E) as [Hl _].
      unfold createdAts. simpl.
      by rewrite (createdAts_insert_pending _ _ _ _ Hl).
    + rewrite (updateShoot_miss _ _ _ _ E) in Hexec. by injection Hexec as <- <-.
  - by_findIndex_shoots w i.
    + rewrite (deleteShoot_hit _ _ _ _ E) in Hexec. injection Hexec as <- <-.
      unfold createdAts. simpl. rewrite map_delete.
      apply submseteq_skips_r, submseteq_delete.
    + rewrite (deleteShoot_miss _ _ E) in Hexec. by injection Hexec as <- <-.
  - by_findIndex_shoots w i.
    + rewrite (moveShootToEdited_hit _ _ _ _ _ _ E) in Hexec.
      injection Hexec as <- <-.
      destruct (findIndex_hasId_Some _ _ _ _ E) as [Hl _].
      unfold createdAts. simpl. rewrite map_delete, map_app. simpl.
      rewrite app_assoc, <- Permutation_cons_append.
      rewrite app_comm_cons. apply Permutation_app_tail.
      apply delete_then_cons_perm.
      change (map Shoot.createdAt (shoots (docOf w)))
        with (Shoot.createdAt <$> shoots (docOf w)).
      by rewrite list_lookup_fmap, Hl.
    + rewrite (moveShootToEdited_miss _ _ _ _ E) in Hexec.
      by injection Hexec as <- <-.
  - by injection Hexec as <- <-.
  - by injection Hexec as <- <-.
  - by_findIndex_edited w i.
    + rewrite (updateEditedShoot_hit _ _ _ _ _ _ E) in Hexec.
      injection Hexec as <- <-.
      destruct (findIndex_editedHasId_Some _ _ _ _ E) as [Hl _].
      unfold createdAts. simpl.
      by rewrite (createdAts_insert_edited _ _ _ _ Hl).
    + rewrite (updateEditedShoot_miss _ _ _ _ E) in Hexec.
      by injection Hexec as <- <-.
  - by_findIndex_edited w i.
    + rewrite (moveEditedShootBack_hit _ _ _ _ _ _ E) in Hexec.
      injection Hexec as <- <-.
      destruct (findIndex_editedHasId_Some _ _ _ _ E) as [Hl _].
      unfold createdAts. simpl. rewrite map_delete, map_app. simpl.
      rewrite <- app_assoc. simpl. apply Permutation_app_head.
      apply delete_then_cons_perm.
      change (map EditedShoot.createdAt (editedShoots (docOf w)))
        with (EditedShoot.createdAt <$> editedShoots (docOf w)).
      by rewrite list_lookup_fmap, Hl.
    + rewrite (moveEditedShootBack_miss _ _ _ _ E) in Hexec.
      by injection Hexec as <- <-.
  - by_findIndex_edited w i.
    + rewrite (deleteEditedShoot_hit _ _ _ _ E) in Hexec. injection Hexec as <- <-.
      unfold createdAts. simpl. rewrite map_delete.
      apply submseteq_skips_l, submseteq_delete.
    + rewrite (deleteEditedShoot_miss _ _ E) in Hexec. by injection Hexec as <- <-.
Qed.

Lemma createdAt_is_never_rewritten_witness :
  let w := mkWorld
    (Stored (mkData [Shoot.mk "a" "Ava" "Luxe" "2024-03-01" 150 "t0" "t0";
                     Shoot.mk "b" "Bea" "Chic" "2024-03-02" 90 "t1" "t1"] []))
    [] 2 2 in
  let r := exec (fun _ => "c") (fun _ => "t2") (MoveShootToEdited "a") w in
  createdAts (docOf (snd r)) ≡ₚ createdAts (docOf w).
Proof.
  intros w r.
  apply (createdAt_is_never_rewritten (fun _ => "c") (fun _ => "t2") w (snd r)
           (MoveShootToEdited "a") (fst r)).
  reflexivity.
Defined.

(** ** Identifiers over a run from any store *)

(** X9. Start from any store, not only an empty one, whose identifiers
    are pairwise different across both buckets and were all handed out by
    earlier calls of [randomUUID()].  With [randomUUID()] never repeating
    itself, after any sequence of calls the identifiers are still pairwise
    different across both buckets, and the one [randomUUID()] hands out
    next is in neither bucket. *)
Theorem unique_ids_are_kept uuidAt nowAt (w : World) (ops : list Op) :
  (forall j k, uuidAt j = uuidAt k -> j = k) ->
  WellFormed uuidAt w ->
  let w' := run uuidAt nowAt ops w in
  NoDup (idsOf (docOf w'))
  /\ (forall i, i ∈ idsOf (docOf w') -> issuedBefore uuidAt (uuidCalls w') i)
  /\ (uuidAt (uuidCalls w') ∉ idsOf (docOf w')).
Proof.
  intros Hinj Hwf w'.
  pose proof (run_wellFormed uuidAt nowAt Hinj ops w Hwf) as Hwf'.
  fold w' in Hwf'. destruct Hwf' as [Hnd Hissued].
  split; [done|]. split; [done|].
  by apply next_uuid_fresh.
Qed.

Lemma unique_ids_are_kept_witness :
  let uuidAt := fun k : nat => pretty k in
  let nowAt := fun k : nat => "2024-03-0" +:+ pretty k in
  let w := mkWorld
    (Stored (mkData [Shoot.mk "0" "Ava" "Luxe" "2024-03-01" 150 "t0" "t0"]
       [EditedShoot.mk "2" "1" "Bea" "Chic" "2024-03-02" 90 "t1" "t2"]))
    [] 3 3 in
  let w' := run uuidAt nowAt
              [MoveShootToEdited "0"; MoveEditedShootBack "2";
               CreateShoot (ShootFormData.mk "Cat" "Luxe" "2024-03-05" 70)] w in
  NoDup (idsOf (docOf w'))
  /\ (forall i, i ∈ idsOf (docOf w') -> issuedBefore uuidAt (uuidCalls w') i)
  /\ (uuidAt (uuidCalls w') ∉ idsOf (docOf w')).
Proof.
  intros uuidAt nowAt w w'.
  apply (unique_ids_are_kept uuidAt nowAt w
           [MoveShootToEdited "0"; MoveEditedShootBack "2";
            CreateShoot (ShootFormData.mk "Cat" "Luxe" "2024-03-05" 70)]).
  - exact pretty_nat_never_repeats.
  - split.
    + refine (bool_decide_unpack _ _). vm_compute. exact I.
    + intros i Hi. simpl in Hi.
      apply elem_of_cons in Hi as [->|Hi];
        [exists 0; split; [simpl; lia|reflexivity]|].
      apply elem_of_cons in Hi as [->|Hi];
        [exists 2; split; [simpl; lia|reflexivity]|].
      by apply elem_of_nil in Hi.
Defined.

(** ** The back-reference of an EditedShoot *)

Lemma originalIds_insert_same (l : list EditedShoot.t) idx old upd :
  l !! idx = Some old ->
  EditedShoot.originalShootId upd = EditedShoot.originalShootId old ->
  map EditedShoot.originalShootId (<[idx := upd]> l)
  = map EditedShoot.originalShootId l.
Proof.
  intros Hl Hc.
  change (EditedShoot.originalShootId <$> <[idx:=upd]> l
          = EditedShoot.originalShootId <$> l).
  rewrite list_fmap_insert. apply list_insert_id.
  by rewrite list_lookup_fmap, Hl, Hc.
Qed.

Lemma elem_of_delete {A} (l : list A) idx x : x ∈ delete idx l -> x ∈ l.
Proof. intros Hx. eapply elem_of_submseteq; [done|apply submseteq_delete]. Qed.

Section BackReference.

Variable uuidAt : nat -> string.
Variable nowAt : nat -> string.
Hypothesis uuid_inj : forall j k, uuidAt j = uuidAt k -> j = k.

Lemma issuedBefore_next (n : nat) (i : string) :
  issuedBefore uuidAt n i -> issuedBefore uuidAt (S n) i /\ i <> uuidAt n.
Proof.
  intros (k & Hk & <-). split; [exists k; split; [lia|done]|].
  intros Heq. apply uuid_inj in Heq. lia.
Qed.

Lemma exec_abandoned (op : Op) (w : World) :
  WellFormed uuidAt w -> Abandoned uuidAt w ->
  Abandoned uuidAt (snd (exec uuidAt nowAt op w)).
Proof.
  intros [Hnd Hissued] Hab.
  destruct (exec uuidAt nowAt op w) as [out w'] eqn:Hexec. simpl.
  unfold Abandoned, originalIds, idsOf, pendingIds, editedIds in *.
  destruct op; exec_cases Hexec w.
  - by injection Hexec as <- <-.
  - by injection Hexec as <- <-.
  - injection Hexec as <- <-. simpl. intros o Ho.
    destruct (Hab o Ho) as [Hiss Hno].
    destruct (issuedBefore_next _ _ Hiss) as [Hiss' Hne]. split; [done|].
    rewrite map_app. simpl. rewrite !elem_of_app, list_elem_of_singleton.
    rewrite elem_of_app in Hno. tauto.
  - by_findIndex_shoots w i.
    + rewrite (updateShoot_hit _ _ _ _ _ _ E) in Hexec. injection Hexec as <- <-.
      destruct (findIndex_hasId_Some _ _ _ _ E) as [Hl _]. simpl.
      by rewrite (pendingIds_insert_same _ _ _ _ Hl).
    + rewrite (updateShoot_miss _ _ _ _ E) in Hexec. by injection Hexec as <- <-.
  - by_findIndex_shoots w i.
    + rewrite (deleteShoot_hit _ _ _ _ E) in Hexec. injection Hexec as <- <-.
      simpl. intros o Ho. destruct (Hab o Ho) as [Hiss Hno]. split; [done|].
      rewrite map_delete, elem_of_app. rewrite elem_of_app in Hno.
      intros [Hd|He]; [|tauto]. apply elem_of_delete in Hd. tauto.
    + rewrite (deleteShoot_miss _ _ E) in Hexec. by injection Hexec as <- <-.
  - by_findIndex_shoots w i.
    + rewrite (moveShootToEdited_hit _ _ _ _ _ _ E) in Hexec.
      injection Hexec as <- <-.
      destruct (findIndex_hasId_Some _ _ _ _ E) as [Hl _]. simpl.
      intros o Ho. rewrite map_app in Ho. simpl in Ho.
      rewrite map_delete, map_app. simpl.
      rewrite !elem_of_app, list_elem_of_singleton.
      apply elem_of_app in Ho as [Ho|Ho].
      * destruct (Hab o Ho) as [Hiss Hno].
        destruct (issuedBefore_next _ _ Hiss) as [Hiss' Hne]. split; [done|].
        rewrite elem_of_app in Hno.
        intros [Hd|[He|Hu]]; [apply elem_of_delete in Hd|..]; tauto.
      * apply list_elem_of_singleton in Ho as ->.
        assert (Shoot.id t ∈ map Shoot.id (shoots (docOf w))) as Hin.
        { apply list_elem_of_fmap. exists t. split; [done|].
          by eapply list_elem_of_lookup_2. }
        destruct (issuedBefore_next (uuidCalls w) (Shoot.id t)) as [Hiss' Hne].
        { apply Hissued. apply elem_of_app. by left. }
        split; [done|].
        apply NoDup_app in Hnd as (Hndp & Hdisj & _).
        intros [Hd|[He|Hu]]; [|by apply (Hdisj _ Hin)|done].
        rewrite <- map_delete in Hd.
        by apply (key_gone_after_delete Shoot.id _ _ _ Hndp Hl).
    + rewrite (moveShootToEdited_miss _ _ _ _ E) in Hexec.
      by injection Hexec as <- <-.
  - by injection Hexec as <- <-.
  - by injection Hexec as <- <-.
  - by_findIndex_edited w i.
    + rewrite (updateEditedShoot_hit _ _ _ _ _ _ E) in Hexec.
      injection Hexec as <- <-.
      destruct (findIndex_editedHasId_Some _ _ _ _ E) as [Hl _]. simpl.
      rewrite (editedIds_insert_same _ _ _ _ Hl) by done.
      by rewrite (originalIds_insert_same _ _ _ _ Hl).
    + rewrite (updateEditedShoot_miss _ _ _ _ E) in Hexec.
      by injection Hexec as <- <-.
  - by_findIndex_edited w i.
    + rewrite (moveEditedShootBack_hit _ _ _ _ _ _ E) in Hexec.
      injection Hexec as <- <-. simpl.
      intros o Ho. rewrite map_delete in Ho. apply elem_of_delete in Ho.
      destruct (Hab o Ho) as [Hiss Hno].
      destruct (issuedBefore_next _ _ Hiss) as [Hiss' Hne]. split; [done|].
      rewrite map_delete, map_app. simpl.
      rewrite !elem_of_app, list_elem_of_singleton. rewrite elem_of_app in Hno.
      intros [[Hp|Hu]|Hd]; [..|apply elem_of_delete in Hd]; tauto.
    + rewrite (moveEditedShootBack_miss _ _ _ _ E) in Hexec.
      by injection Hexec as <- <-.
  - by_findIndex_edited w i.
    + rewrite (deleteEditedShoot_hit _ _ _ _ E) in Hexec. injection Hexec as <- <-.
      simpl. intros o Ho. rewrite map_delete in Ho. apply elem_of_delete in Ho.
      destruct (Hab o Ho) as [Hiss Hno]. split; [done|].
      rewrite map_delete, elem_of_app. rewrite elem_of_app in Hno.
      intros [Hp|Hd]; [|apply elem_of_delete in Hd]; tauto.
    + rewrite (deleteEditedShoot_miss _ _ E) in Hexec. by injection Hexec as <- <-.
Qed.

Lemma run_abandoned (ops : list Op) (w : World) :
  WellFormed uuidAt w -> Abandoned uuidAt w ->
  Abandoned uuidAt (run uuidAt nowAt ops w).
Proof.
  revert w. induction ops as [|op ops IH]; intros w Hwf Hab; simpl; [done|].
  apply IH; [by apply exec_wellFormed|by apply exec_abandoned].
Qed.

End BackReference.

(** X10. In every state reached from an empty document by any sequence
    of calls, with [randomUUID()] never repeating itself, the
    originalShootId of an EditedShoot is the identifier of no record, in
    Pending or in Edited: the Shoot it names was taken out by the move and
    its identifier is never given to another record. *)
Theorem originalShootId_names_no_record uuidAt nowAt
    (w0 : World) (ops : list Op) (e : EditedShoot.t) :
  (forall j k, uuidAt j = uuidAt k -> j = k) ->
  docOf w0 = emptyData ->
  e ∈ editedShoots (docOf (run uuidAt nowAt ops w0)) ->
  (EditedShoot.originalShootId e ∉ pendingIds (docOf (run uuidAt nowAt ops w0)))
  /\ (EditedShoot.originalShootId e ∉ editedIds (docOf (run uuidAt nowAt ops w0))).
Proof.
  intros Hinj Hempty He.
  assert (Abandoned uuidAt (run uuidAt nowAt ops w0)) as Hab.
  { apply run_abandoned; [done|by apply empty_wellFormed|].
    intros o Ho. unfold originalIds in Ho. rewrite Hempty in Ho.
    by apply elem_of_nil in Ho. }
  destruct (Hab (EditedShoot.originalShootId e)) as [_ Hno].
  { unfold originalIds. apply list_elem_of_fmap. by exists e. }
  unfold idsOf in Hno. rewrite elem_of_app in Hno. tauto.
Qed.

Lemma originalShootId_names_no_record_witness :
  let uuidAt := fun k : nat => pretty k in
  let nowAt := fun k : nat => "2024-03-0" +:+ pretty k in
  let ops := [ CreateShoot (ShootFormData.mk "Ava" "Luxe" "2024-03-01" 150);
               MoveShootToEdited "0";
               CreateShoot (ShootFormData.mk "Bea" "Chic" "2024-03-02" 90) ] in
  let e := EditedShoot.mk "1" "0" "Ava" "Luxe" "2024-03-01" 150
             "2024-03-00" "2024-03-01" in
  (EditedShoot.originalShootId e
     ∉ pendingIds (docOf (run uuidAt nowAt ops initialWorld)))
  /\ (EditedShoot.originalShootId e
        ∉ editedIds (docOf (run uuidAt nowAt ops initialWorld))).
Proof.
  intros uuidAt nowAt ops e.
  apply (originalShootId_names_no_record uuidAt nowAt initialWorld ops e).
  - exact pretty_nat_never_repeats.
  - reflexivity.
  - vm_compute. left.
Defined.

(** * Further properties of the routes *)

(** X11. For the five routes that take an id and no body, the status
    tells whether the id is in the bucket the route looks in: GET
    /api/shoots/:id and the two DELETE routes answer 200 when it is, the
    two move routes answer 201, and all five answer 404 when it is not.
    GET /api/shoots/:id answers with the first record under that id. *)
Theorem id_routes_status uuidAt nowAt StringToNumber (w : World) (i : string) :
  let answer r := fst (registerRoutes uuidAt nowAt StringToNumber r w) in
  let inPending := bool_decide (i ∈ pendingIds (docOf w)) in
  let inEdited := bool_decide (i ∈ editedIds (docOf w)) in
  status (answer (GET_shoot i)) = (if inPending then 200 else 404)
  /\ (forall s, find (hasId i) (shoots (docOf w)) = Some s ->
        answer (GET_shoot i) = mkResponse 200 (PShoot s))
  /\ status (answer (DELETE_shoot i)) = (if inPending then 200 else 404)
  /\ status (answer (POST_shoot_move_to_edited i))
     = (if inPending then 201 else 404)
  /\ status (answer (POST_edited_shoot_move_back i))
     = (if inEdited then 201 else 404)
  /\ status (answer (DELETE_edited_shoot i)) = (if inEdited then 200 else 404).
Proof.
  intros answer inPending inEdited. unfold answer, inPending, inEdited. simpl.
  unfold getShootRoute, deleteShootRoute, moveToEditedRoute, moveBackRoute,
    deleteEditedRoute, bind.
  rewrite getShootById_spec.
  case_bool_decide as Hp; case_bool_decide as He.
  - destruct (findIndex_hasId_is_Some _ _ Hp) as (idx & s & Hf).
    destruct (findIndex_editedHasId_is_Some _ _ He) as (idx' & e & Hf').
    rewrite (deleteShoot_hit _ _ _ _ Hf), (moveShootToEdited_hit _ _ _ _ _ _ Hf),
      (moveEditedShootBack_hit _ _ _ _ _ _ Hf'), (deleteEditedShoot_hit _ _ _ _ Hf').
    unfold find. rewrite Hf. simpl. repeat split; try done.
    intros s0 [= <-]. done.
  - destruct (findIndex_hasId_is_Some _ _ Hp) as (idx & s & Hf).
    apply findIndex_editedHasId_None in He.
    rewrite (deleteShoot_hit _ _ _ _ Hf), (moveShootToEdited_hit _ _ _ _ _ _ Hf),
      (moveEditedShootBack_miss _ _ _ _ He), (deleteEditedShoot_miss _ _ He).
    unfold find. rewrite Hf. simpl. repeat split; try done.
    intros s0 [= <-]. done.
  - apply findIndex_hasId_None in Hp.
    destruct (findIndex_editedHasId_is_Some _ _ He) as (idx' & e & Hf').
    rewrite (deleteShoot_miss _ _ Hp), (moveShootToEdited_miss _ _ _ _ Hp),
      (moveEditedShootBack_hit _ _ _ _ _ _ Hf'), (deleteEditedShoot_hit _ _ _ _ Hf').
    unfold find. rewrite Hp. simpl. repeat split; done.
  - apply findIndex_hasId_None in Hp. apply findIndex_editedHasId_None in He.
    rewrite (deleteShoot_miss _ _ Hp), (moveShootToEdited_miss _ _ _ _ Hp),
      (moveEditedShootBack_miss _ _ _ _ He), (deleteEditedShoot_miss _ _ He).
    unfold find. rewrite Hp. simpl. repeat split; done.
Qed.

(** ** Requests and the file *)

Ltac rt_findIndex_shoots w i :=
  let E := fresh "E" in
  destruct (findIndex (Runtime.hasId i) (Runtime.shoots (Runtime.docOf w)))
    as [[? ?]|] eqn:E.

Ltac rt_findIndex_edited w i :=
  let E := fresh "E" in
  destruct (findIndex (Runtime.editedHasId i)
              (Runtime.editedShoots (Runtime.docOf w))) as [[? ?]|] eqn:E.

(** A route whose operation went as far as the write: by what the write
    did. *)
Ltac rt_written_cases w Hreq :=
  unfold Runtime.whenWritten in Hreq;
  let Hw := fresh "Hw" in
  destruct (Runtime.writes w) eqn:Hw; simpl in Hreq;
  injection Hreq as <- <-; simpl;
  [ split; [by intuition|]; split; [done|]; split; [by intros [[=]|[=]]|];
    intros _ _ _; split; [done|];
    eexists; split;
      [ try match goal with E : findIndex _ _ = _ |- _ => rewrite E end;
        reflexivity
      | split; [reflexivity|];
        unfold Runtime.contentAfterWrite; by rewrite Hw ]
  | split; [done|]; split; [done|]; eexists; split; reflexivity
  | split; [done|]; split; [done|]; eexists; split; reflexivity ].

Ltac rt_not_primitive b :=
  match goal with
  | Hn : Runtime.Number _ _ _ = Runtime.Throws ?e |- _ =>
      assert (e = Runtime.NotPrimitive) as ->
        by (unfold Runtime.Number in Hn;
            repeat match type of Hn with
                   | context [match ?x with _ => _ end] => destruct x
                   end; congruence);
      split; [done|]; exists b; by repeat split
  end.

(** X12. A registered route answers 200, 201, 400 or 404, or its handler
    throws.  An answer 400 touches nothing: not the file, not
    [randomUUID()], not the clock.  An answer 404, and every GET, only
    reads the file.  Any other answer comes after one read and one write
    of the whole next document, which returned, and the file holds what
    JSON keeps of that document.  A handler throws in two cases only:
    [Number(price)] threw on an object in a body that passed the check,
    before anything was touched; or the one write threw, after the
    read. *)
Theorem requests_and_the_file uuidAt nowAt StringToNumber ObjectToNumber
    (r : Runtime.Request) (w w' : Runtime.World)
    (res : Runtime.Result Runtime.Response) :
  Runtime.registerRoutes uuidAt nowAt StringToNumber ObjectToNumber r w = (res, w') ->
  match res with
  | Runtime.Returns resp =>
      (Runtime.status resp = 200 \/ Runtime.status resp = 201
       \/ Runtime.status resp = 400 \/ Runtime.status resp = 404)
      /\ (Runtime.status resp = 400 -> w' = w)
      /\ (Runtime.status resp = 404 \/ Runtime.isGet r = true ->
          w' = Runtime.logged Runtime.EvRead w)
      /\ (Runtime.status resp <> 400 -> Runtime.status resp <> 404 ->
          Runtime.isGet r = false ->
          Runtime.writes w = Runtime.WriteOk
          /\ exists d,
               Runtime.nextDocument r resp (Runtime.docOf w) = Some d
               /\ Runtime.fsLog w'
                  = Runtime.fsLog w ++ [Runtime.EvRead; Runtime.EvWrite d]
               /\ Runtime.content w' = Runtime.Holds (Runtime.dataThroughJson d))
  | Runtime.Throws Runtime.NotPrimitive =>
      w' = w
      /\ exists b, Runtime.bodyOf r = Some b /\ Runtime.fieldsMissing b = false
           /\ Runtime.Number StringToNumber ObjectToNumber (Runtime.body_price b)
              = Runtime.Throws Runtime.NotPrimitive
  | Runtime.Throws Runtime.WriteFailed =>
      Runtime.writes w <> Runtime.WriteOk
      /\ Runtime.isGet r = false
      /\ exists d,
           Runtime.fsLog w' = Runtime.fsLog w ++ [Runtime.EvRead; Runtime.EvWrite d]
           /\ Runtime.content w' = Runtime.contentAfterWrite d w
  end.
Proof.
  intros Hreq.
  destruct r; simpl in Hreq.
  - unfold Runtime.listShootsRoute, Runtime.getShoots, Runtime.bind in Hreq.
    rewrite rt_readData_docOf in Hreq.
    injection Hreq as <- <-. simpl. by intuition.
  - unfold Runtime.getShootRoute, Runtime.getShootById, Runtime.bind in Hreq.
    rewrite rt_readData_docOf in Hreq. simpl in Hreq.
    destruct (find _ _); injection Hreq as <- <-; simpl; by intuition.
  - (* POST /api/shoots *)
    unfold Runtime.postShootRoute in Hreq.
    destruct (Runtime.fieldsMissing b) eqn:Hb;
      [injection Hreq as <- <-; simpl; by intuition|].
    unfold Runtime.formOf, Runtime.bind, Runtime.lift in Hreq.
    destruct (Runtime.Number _ _ _) as [n|e] eqn:Hn.
    + simpl in Hreq. rewrite rt_createShoot_spec in Hreq.
      rt_written_cases w Hreq.
    + injection Hreq as <- <-. rt_not_primitive b.
  - (* PUT /api/shoots/:id *)
    unfold Runtime.putShootRoute in Hreq.
    destruct (Runtime.fieldsMissing b) eqn:Hb;
      [injection Hreq as <- <-; simpl; by intuition|].
    unfold Runtime.formOf, Runtime.bind, Runtime.lift in Hreq.
    destruct (Runtime.Number _ _ _) as [n|e] eqn:Hn.
    + simpl in Hreq. rt_findIndex_shoots w i.
      * rewrite (rt_updateShoot_hit _ _ _ _ _ _ E) in Hreq.
        rt_written_cases w Hreq.
      * rewrite (rt_updateShoot_miss _ _ _ _ E) in Hreq.
        injection Hreq as <- <-. simpl. by intuition.
    + injection Hreq as <- <-. rt_not_primitive b.
  - (* DELETE /api/shoots/:id *)
    unfold Runtime.deleteShootRoute, Runtime.bind in Hreq.
    rt_findIndex_shoots w i.
    + rewrite (rt_deleteShoot_hit _ _ _ _ E) in Hreq. rt_written_cases w Hreq.
    + rewrite (rt_deleteShoot_miss _ _ E) in Hreq.
      injection Hreq as <- <-. simpl. by intuition.
  - (* POST /api/shoots/:id/move-to-edited *)
    unfold Runtime.moveToEditedRoute, Runtime.bind in Hreq.
    rt_findIndex_shoots w i.
    + rewrite (rt_moveShootToEdited_hit _ _ _ _ _ _ E) in Hreq.
      rt_written_cases w Hreq.
    + rewrite (rt_moveShootToEdited_miss _ _ _ _ E) in Hreq.
      injection Hreq as <- <-. simpl. by intuition.
  - unfold Runtime.listEditedRoute, Runtime.getEditedShoots, Runtime.bind in Hreq.
    rewrite rt_readData_docOf in Hreq.
    injection Hreq as <- <-. simpl. by intuition.
  - (* PUT /api/edited-shoots/:id *)
    unfold Runtime.putEditedRoute in Hreq.
    destruct (Runtime.fieldsMissing b) eqn:Hb;
      [injection Hreq as <- <-; simpl; by intuition|].
    unfold Runtime.formOf, Runtime.bind, Runtime.lift in Hreq.
    destruct (Runtime.Number _ _ _) as [n|e] eqn:Hn.
    + simpl in Hreq. rt_findIndex_edited w i.
      * rewrite (rt_updateEditedShoot_hit _ _ _ _ _ _ E) in Hreq.
        rt_written_cases w Hreq.
      * rewrite (rt_updateEditedShoot_miss _ _ _ _ E) in Hreq.
        injection Hreq as <- <-. simpl. by intuition.
    + injection Hreq as <- <-. rt_not_primitive b.
  - (* POST /api/edited-shoots/:id/move-back *)
    unfold Runtime.moveBackRoute, Runtime.bind in Hreq.
    rt_findIndex_edited w i.
    + rewrite (rt_moveEditedShootBack_hit _ _ _ _ _ _ E) in Hreq.
      rt_written_cases w Hreq.
    + rewrite (rt_moveEditedShootBack_miss _ _ _ _ E) in Hreq.
      injection Hreq as <- <-. simpl. by intuition.
  - (* DELETE /api/edited-shoots/:id *)
    unfold Runtime.deleteEditedRoute, Runtime.bind in Hreq.
    rt_findIndex_edited w i.
    + rewrite (rt_deleteEditedShoot_hit _ _ _ _ E) in Hreq.
      rt_written_cases w Hreq.
    + rewrite (rt_deleteEditedShoot_miss _ _ E) in Hreq.
      injection Hreq as <- <-. simpl. by intuition.
Qed.

Lemma requests_and_the_file_witness :
  let uuidAt := fun k : nat => pretty k in
  let nowAt := fun _ : nat => "2024-03-01T09:00:00.000Z" in
  let StringToNumber := fun _ : string => nan in
  let ObjectToNumber := fun _ : Runtime.Json => Some nan in
  let b := Runtime.mkBody (Some (Runtime.VStr "Ava")) (Some (Runtime.VStr "Luxe"))
             (Some (Runtime.VStr "2024-03-01")) (Some (Runtime.VNum 150)) in
  let r := Runtime.POST_shoots b in
  let w := Runtime.initialWorld in
  let s := Runtime.Shoot.mk "0" (Runtime.VStr "Ava") (Runtime.VStr "Luxe")
             (Runtime.VStr "2024-03-01") (Runtime.VNum 150)
             "2024-03-01T09:00:00.000Z" "2024-03-01T09:00:00.000Z" in
  let resp := Runtime.mkResponse 201 (Runtime.PShoot s) in
  let w' := Runtime.mkWorld (Runtime.Holds (Runtime.mkData [s] [])) true
              Runtime.WriteOk
              [Runtime.EvRead; Runtime.EvWrite (Runtime.mkData [s] [])] 1 1 in
  (Runtime.status resp = 200 \/ Runtime.status resp = 201
   \/ Runtime.status resp = 400 \/ Runtime.status resp = 404)
  /\ (Runtime.status resp = 400 -> w' = w)
  /\ (Runtime.status resp = 404 \/ Runtime.isGet r = true ->
      w' = Runtime.logged Runtime.EvRead w)
  /\ (Runtime.status resp <> 400 -> Runtime.status resp <> 404 ->
      Runtime.isGet r = false ->
      Runtime.writes w = Runtime.WriteOk
      /\ exists d,
           Runtime.nextDocument r resp (Runtime.docOf w) = Some d
           /\ Runtime.fsLog w'
              = Runtime.fsLog w ++ [Runtime.EvRead; Runtime.EvWrite d]
           /\ Runtime.content w' = Runtime.Holds (Runtime.dataThroughJson d)).
Proof.
  intros uuidAt nowAt StringToNumber ObjectToNumber b r w s resp w'.
  apply (requests_and_the_file uuidAt nowAt StringToNumber ObjectToNumber
           r w w' (Runtime.Returns resp)).
  reflexivity.
Defined.

(** * Further properties of the statistics *)

(** ** The monthly counts add up *)

Lemma counts_mapUpdate (k : string) (f : MonthlyStats -> MonthlyStats)
    (m : JsMap MonthlyStats) :
  k ∈ map fst m ->
  (forall st, shootCount (f st) = shootCount st + 1) ->
  sum_list_with shootCount (mapValues (mapUpdate k f m))
  = sum_list_with shootCount (mapValues m) + 1.
Proof.
  intros Hk Hf. induction m as [|[k0 x0] m IH]; simpl in *.
  - by apply elem_of_nil in Hk.
  - case_bool_decide as Hk0; simpl.
    + rewrite Hf. lia.
    + apply elem_of_cons in Hk as [Hk|Hk]; [congruence|].
      rewrite (IH Hk). lia.
Qed.

Lemma counts_addShoot localYearMonth (m : JsMap MonthlyStats) (s : Shoot.t) :
  sum_list_with shootCount (mapValues (addShoot localYearMonth m s))
  = sum_list_with shootCount (mapValues m) + 1.
Proof.
  unfold addShoot. destruct (mapHas _ m) eqn:Hhas.
  - apply mapHas_true in Hhas. by rewrite counts_mapUpdate.
  - apply mapHas_false in Hhas. rewrite (mapSet_absent _ _ _ Hhas).
    rewrite counts_mapUpdate; [|rewrite map_app, elem_of_app; right; left|done].
    unfold mapValues. rewrite map_app, sum_list_with_app. simpl. lia.
Qed.

Lemma counts_loop localYearMonth (l : list Shoot.t) (m : JsMap MonthlyStats) :
  sum_list_with shootCount (mapValues (fold_left (addShoot localYearMonth) l m))
  = sum_list_with shootCount (mapValues m) + length l.
Proof.
  revert m. induction l as [|s l IH]; intros m; simpl; [lia|].
  rewrite IH, counts_addShoot. lia.
Qed.

Lemma count_at_least_length (l : list MonthlyStats) :
  (forall st, st ∈ l -> 1 <= shootCount st) ->
  length l <= sum_list_with shootCount l.
Proof.
  induction l as [|a l IH]; intros H; simpl; [lia|].
  pose proof (H a ltac:(left)).
  assert (length l <= sum_list_with shootCount l).
  { apply IH. intros st Hst. apply H. by right. }
  lia.
Qed.

(** X13. The monthly breakdown accounts for every shoot once: the
    shootCounts of the buckets of [computeMonthlyStats] add up to the
    number of shoots (the Total Shoots of the screen), every bucket counts
    at least one shoot, and there are at most as many buckets as
    shoots. *)
Theorem monthly_counts_add_up
    (localYearMonth : string -> option (Z * nat)) (l : list Shoot.t) :
  let R := computeMonthlyStats localYearMonth l in
  sum_list_with shootCount R = StatsScreen.totalShoots l
  /\ (forall st, st ∈ R -> 1 <= shootCount st)
  /\ length R <= StatsScreen.totalShoots l.
Proof.
  intros R. unfold StatsScreen.totalShoots.
  assert (sum_list_with shootCount R = length l) as Hsum.
  { unfold R, computeMonthlyStats. rewrite sortBy_perm, counts_loop. done. }
  assert (forall st, st ∈ R -> 1 <= shootCount st) as Hpos.
  { intros st. unfold R, computeMonthlyStats. rewrite sortBy_perm.
    intros Hst. unfold mapValues in Hst.
    apply list_elem_of_fmap in Hst as ([k st'] & -> & Hin). simpl.
    destruct (bucket_of_entry localYearMonth l _ k st'
                (loop_aggregated localYearMonth l) Hin)
      as (s0 & Hs0 & Hym & _ & Hcount & _).
    rewrite Hcount. unfold group.
    assert (s0 ∈ filter (fun s => shootYM localYearMonth s = statYM st') l) as Hg.
    { apply list_elem_of_filter. by split. }
    destruct (filter _ l); [by apply elem_of_nil in Hg|simpl; lia]. }
  split; [done|]. split; [done|].
  rewrite <- Hsum. by apply count_at_least_length.
Qed.

(** ** Buckets and the shoots behind them *)

Lemma stat_in_result localYearMonth (l : list Shoot.t) (st : MonthlyStats) :
  st ∈ computeMonthlyStats localYearMonth l
  <-> exists k, (k, st) ∈ fold_left (addShoot localYearMonth) l [].
Proof.
  unfold computeMonthlyStats. rewrite sortBy_perm. unfold mapValues. split.
  - intros Hin. apply list_elem_of_fmap in Hin as ([k st'] & -> & Hin). by exists k.
  - intros [k Hin]. apply list_elem_of_fmap. by exists (k, st).
Qed.

Lemma bucket_for_shoot localYearMonth (l : list Shoot.t) (s : Shoot.t) :
  s ∈ l ->
  exists st, st ∈ computeMonthlyStats localYearMonth l
             /\ statYM st = shootYM localYearMonth s.
Proof.
  intros Hs. destruct (loop_aggregated localYearMonth l) as (_ & Hcover & Hsum).
  pose proof (Hcover s Hs) as Hkey.
  apply list_elem_of_fmap in Hkey as ([k st] & Hk & Hin). simpl in Hk. subst k.
  exists st. split; [apply stat_in_result; by eexists|].
  destruct (Hsum _ _ Hin) as (s0 & _ & Hkey0 & Hym & _).
  unfold statYM. rewrite Hym. by apply keyOf_iff.
Qed.

Lemma shoot_for_bucket localYearMonth (l : list Shoot.t) (st : MonthlyStats) :
  st ∈ computeMonthlyStats localYearMonth l ->
  exists s0, s0 ∈ l
    /\ statYM st = shootYM localYearMonth s0
    /\ month st = monthName (monthNumber st)
    /\ shootCount st = length (group localYearMonth l (statYM st))
    /\ totalEarnings st = sumPrices (group localYearMonth l (statYM st)).
Proof.
  intros Hst. apply stat_in_result in Hst as [k Hin].
  by eapply bucket_of_entry; [apply loop_aggregated|].
Qed.

Lemma result_buckets_distinct localYearMonth (l : list Shoot.t) :
  NoDup (map statYM (computeMonthlyStats localYearMonth l)).
Proof.
  unfold computeMonthlyStats. rewrite sortBy_perm.
  eapply buckets_distinct, loop_aggregated.
Qed.

Lemma at_most_one_with_same_image {A B} (f : A -> B) (c : B) (l : list A) :
  NoDup (map f l) -> (forall x, x ∈ l -> f x = c) -> length l <= 1.
Proof.
  destruct l as [|a [|b l]]; simpl; [lia..|].
  intros Hnd Hall. exfalso.
  apply NoDup_cons in Hnd as [Hnotin _]. apply Hnotin.
  rewrite (Hall a), <- (Hall b); [left|right; left|left].
Qed.

(** X14. When all shoots of a non-empty list fall in the same year and
    month, [computeMonthlyStats] gives exactly one bucket; its shootCount
    is the number of shoots and its totalEarnings is the Total Earned of
    the screen, the same floating-point sum. *)
Theorem one_month_one_bucket
    (localYearMonth : string -> option (Z * nat)) (l : list Shoot.t) :
  l <> [] ->
  (forall s s', s ∈ l -> s' ∈ l ->
     shootYM localYearMonth s = shootYM localYearMonth s') ->
  exists st,
    computeMonthlyStats localYearMonth l = [st]
    /\ shootCount st = StatsScreen.totalShoots l
    /\ totalEarnings st = StatsScreen.totalEarnings l.
Proof.
  intros Hne Hsame. destruct l as [|s0 l0] eqn:El; [done|]. rewrite <- El in *.
  assert (s0 ∈ l) as Hs0 by (rewrite El; left).
  set (R := computeMonthlyStats localYearMonth l).
  assert (forall st, st ∈ R -> statYM st = shootYM localYearMonth s0) as Hall.
  { intros st Hst. destruct (shoot_for_bucket _ _ _ Hst) as (s & Hs & -> & _).
    by apply Hsame. }
  pose proof (at_most_one_with_same_image statYM _ R
                (result_buckets_distinct localYearMonth l) Hall) as Hlen.
  destruct (bucket_for_shoot localYearMonth l s0 Hs0) as (st & Hst & Hym).
  fold R in Hst. destruct R as [|st' [|st'' R']] eqn:ER; simpl in Hlen;
    [by apply elem_of_nil in Hst| |lia].
  apply list_elem_of_singleton in Hst as ->.
  exists st'. split; [done|].
  destruct (shoot_for_bucket localYearMonth l st') as (s & Hs & _ & _ & Hcount & Htotal).
  { fold R. rewrite ER. left. }
  assert (group localYearMonth l (statYM st') = l) as Hgroup.
  { unfold group. rewrite Hym. clear -Hsame Hs0.
    assert (forall s, s ∈ l -> shootYM localYearMonth s = shootYM localYearMonth s0)
      as H by (intros; by apply Hsame).
    clear Hsame Hs0. induction l as [|a l IH]; [done|].
    rewrite filter_cons_True by (apply H; left).
    f_equal. apply IH. intros s Hs. apply H. by right. }
  rewrite Hgroup in Hcount, Htotal. done.
Qed.

Lemma one_month_one_bucket_witness :
  let l := [ Shoot.mk "0" "Ava" "Luxe" "2024-01-10T09:00:00.000Z" 100 "t0" "t0";
             Shoot.mk "1" "Bea" "Chic" "2024-01-20T09:00:00.000Z" 50 "t1" "t1";
             Shoot.mk "2" "Cat" "Luxe" "2024-01-31T09:00:00.000Z" 25 "t2" "t2" ] in
  exists st,
    computeMonthlyStats isoYearMonth l = [st]
    /\ shootCount st = StatsScreen.totalShoots l
    /\ totalEarnings st = StatsScreen.totalEarnings l.
Proof.
  intros l. apply (one_month_one_bucket isoYearMonth l).
  - discriminate.
  - intros s s' Hs Hs'.
    repeat (apply elem_of_cons in Hs as [->|Hs]);
      repeat (apply elem_of_cons in Hs' as [->|Hs']);
      try reflexivity; by apply elem_of_nil in Hs || by apply elem_of_nil in Hs'.
Defined.

(** ** Month names and dates that do not parse *)

Lemma monthName_in_range (m : nat) :
  m < 12 -> exists name, monthName (Some (Z.of_nat m)) = Some name /\ name ∈ MONTHS.
Proof.
  intros Hm. unfold monthName.
  rewrite (proj2 (Z.leb_le 0 (Z.of_nat m))) by lia. rewrite Nat2Z.id.
  destruct (lookup_lt_is_Some_2 MONTHS m) as [name Hname]; [simpl; lia|].
  exists name. split; [done|]. by eapply list_elem_of_lookup_2.
Qed.

(** X15. When every date parses and gives a month from 0 to 11, every
    bucket of [computeMonthlyStats] carries a month name out of MONTHS and
    the row label of MonthRow is defined.  A shoot whose date does not
    parse puts a bucket into the result whose year and month number are
    NaN and whose month name is undefined, so that MonthRow's
    [stat.month.substring] throws on it; that bucket counts all the shoots
    whose date does not parse. *)
Theorem month_names_and_unparsable_dates
    (localYearMonth : string -> option (Z * nat)) (l : list Shoot.t) :
  let R := computeMonthlyStats localYearMonth l in
  ((forall s, s ∈ l ->
      exists y m, localYearMonth (Shoot.date s) = Some (y, m) /\ m < 12) ->
   forall st, st ∈ R ->
     exists name, month st = Some name /\ name ∈ MONTHS
                  /\ is_Some (MonthRow.label st))
  /\ (forall s, s ∈ l -> localYearMonth (Shoot.date s) = None ->
      exists st, st ∈ R
        /\ year st = None /\ monthNumber st = None /\ month st = None
        /\ MonthRow.label st = None
        /\ shootCount st
           = length (filter (fun s' => localYearMonth (Shoot.date s') = None) l)).
Proof.
  intros R. split.
  - intros Hvalid st Hst.
    destruct (shoot_for_bucket _ _ _ Hst) as (s0 & Hs0 & Hym & Hmonth & _).
    destruct (Hvalid s0 Hs0) as (y & m & Hparse & Hm).
    unfold statYM, shootYM, getFullYear, getMonth in Hym. rewrite Hparse in Hym.
    simpl in Hym. injection Hym as Hy Hmn.
    destruct (monthName_in_range m Hm) as (name & Hname & Hin).
    exists name. rewrite Hmonth, Hmn. split; [done|]. split; [done|].
    unfold MonthRow.label. rewrite Hmonth, Hmn, Hname. by eexists.
  - intros s Hs Hparse.
    destruct (bucket_for_shoot localYearMonth l s Hs) as (st & Hst & Hym).
    exists st. split; [done|].
    destruct (shoot_for_bucket _ _ _ Hst) as (s0 & _ & _ & Hmonth & Hcount & _).
    rewrite Hym in Hcount.
    unfold statYM, shootYM, getFullYear, getMonth in Hym. rewrite Hparse in Hym.
    simpl in Hym. injection Hym as Hy Hmn.
    assert (month st = None) as Hm by (by rewrite Hmonth, Hmn).
    split; [done|]. split; [done|]. split; [done|].
    split; [unfold MonthRow.label; by rewrite Hm|].
    rewrite Hcount. unfold group. f_equal. apply list_filter_iff. intros s'.
    unfold shootYM, getFullYear, getMonth. rewrite Hparse. simpl.
    destruct (localYearMonth (Shoot.date s')) as [[y m]|]; simpl; split; done.
Qed.

Lemma month_names_and_unparsable_dates_witness :
  let l := [ Shoot.mk "0" "Ava" "Luxe" "2024-01-10T09:00:00.000Z" 100 "t0" "t0";
             Shoot.mk "1" "Bea" "Chic" "someday" 50 "t1" "t1";
             Shoot.mk "2" "Cat" "Luxe" "tomorrow" 25 "t2" "t2" ] in
  exists st, st ∈ computeMonthlyStats isoYearMonth l
    /\ year st = None /\ monthNumber st = None /\ month st = None
    /\ MonthRow.label st = None
    /\ shootCount st
       = length (filter (fun s' => isoYearMonth (Shoot.date s') = None) l).
Proof.
  intros l.
  apply (proj2 (month_names_and_unparsable_dates isoYearMonth l)
           (Shoot.mk "1" "Bea" "Chic" "someday" 50 "t1" "t1")).
  - right. left.
  - reflexivity.
Defined.

(** * Properties of the list screens *)

Section NewestFirst.

Variable getTime : string -> JsInt.
Context {A : Type}.
Variable stamp : A -> string.

Local Abbreviation cmp := (byNewest getTime stamp).
Local Abbreviation older := (notOlder getTime stamp).

Local Abbreviation dated := (hasDate getTime stamp).

Lemma comesAfter_byNewest (y x : A) :
  dated x -> dated y ->
  comesAfter cmp y x = true
  <-> exists ty tx, getTime (stamp y) = Some ty /\ getTime (stamp x) = Some tx
                    /\ (ty < tx)%Z.
Proof.
  unfold hasDate, comesAfter, byNewest. intros Hx Hy.
  destruct (getTime (stamp x)) as [tx|]; [|done].
  destruct (getTime (stamp y)) as [ty|]; [|done]. simpl.
  rewrite Z.ltb_lt. split.
  - intros Hlt. exists ty, tx. repeat split; lia.
  - intros (ty' & tx' & [= <-] & [= <-] & Hlt). lia.
Qed.

Lemma notOlder_trans (a b c : A) : older a b -> older b c -> older a c.
Proof.
  unfold notOlder.
  destruct (getTime (stamp a)), (getTime (stamp b)), (getTime (stamp c));
    try done. lia.
Qed.

Lemma insertSorted_newest_first (x : A) (l : list A) :
  dated x -> Forall dated l ->
  StronglySorted older l -> StronglySorted older (insertSorted cmp x l).
Proof.
  intros Hx. induction l as [|y l IH]; intros Hl Hsorted; simpl.
  - repeat constructor.
  - apply Forall_cons in Hl as [Hy Hl].
    apply StronglySorted_inv in Hsorted as [Hsorted Hall].
    destruct (comesAfter cmp y x) eqn:Hcmp.
    + apply comesAfter_byNewest in Hcmp as (ty & tx & Hty & Htx & Hlt); [|done..].
      assert (older x y) as Hxy.
      { unfold notOlder. rewrite Hty, Htx. lia. }
      constructor; [by constructor|]. constructor; [done|].
      eapply Forall_impl; [exact Hall|]. intros z Hz. simpl in Hz.
      by eapply notOlder_trans.
    + assert (older y x) as Hyx.
      { unfold notOlder. unfold hasDate in Hx, Hy.
        destruct (getTime (stamp y)) as [ty|] eqn:Hty; [|done].
        destruct (getTime (stamp x)) as [tx|] eqn:Htx; [|done].
        destruct (decide (ty < tx)%Z) as [Hlt|]; [|lia].
        assert (comesAfter cmp y x = true) as Hbad; [|congruence].
        apply comesAfter_byNewest; [unfold hasDate; congruence..|].
        by exists ty, tx. }
      constructor; [by apply IH|].
      rewrite insertSorted_perm. by constructor.
Qed.

(** Elements with one and the same stamp keep the order they had. *)
Lemma insertSorted_stable (t : JsInt) (x : A) (l : list A) :
  dated x -> Forall dated l -> StronglySorted older l ->
  filter (fun a => getTime (stamp a) = t) (insertSorted cmp x l)
  = filter (fun a => getTime (stamp a) = t) l
    ++ filter (fun a => getTime (stamp a) = t) [x].
Proof.
  intros Hx. induction l as [|y l IH]; intros Hl Hsorted; simpl.
  - done.
  - apply Forall_cons in Hl as [Hy Hl].
    apply StronglySorted_inv in Hsorted as [Hsorted Hall].
    destruct (comesAfter cmp y x) eqn:Hcmp.
    + apply comesAfter_byNewest in Hcmp as (ty & tx & Hty & Htx & Hlt); [|done..].
      destruct (decide (getTime (stamp x) = t)) as [Ht|Ht].
      * rewrite (filter_cons_True _ x) by done.
        rewrite (filter_cons_True _ x []) by done.
        assert (filter (fun a => getTime (stamp a) = t) (y :: l) = []) as ->; [|done].
        rewrite filter_cons_False
          by (rewrite <- Ht, Hty, Htx; intros [=]; lia).
        clear IH Hl Hsorted. induction l as [|z l IHl]; [done|].
        apply Forall_cons in Hall as [Hz Hall].
        rewrite filter_cons_False; [by apply IHl|].
        unfold notOlder in Hz. rewrite Hty in Hz.
        destruct (getTime (stamp z)) as [tz|] eqn:Htz; [|done].
        rewrite <- Ht, Htx. intros [=]. lia.
      * rewrite (filter_cons_False _ x) by done.
        rewrite (filter_cons_False _ x []) by done. by rewrite app_nil_r.
    + rewrite !(filter_cons _ y). rewrite (IH Hl Hsorted).
      by destruct (decide (getTime (stamp y) = t)).
Qed.

Lemma sortBy_from_newest_first (l acc : list A) :
  Forall dated (acc ++ l) -> StronglySorted older acc ->
  StronglySorted older (fold_left (fun acc x => insertSorted cmp x acc) l acc)
  /\ forall t, filter (fun a => getTime (stamp a) = t)
                 (fold_left (fun acc x => insertSorted cmp x acc) l acc)
               = filter (fun a => getTime (stamp a) = t) (acc ++ l).
Proof.
  revert acc. induction l as [|x l IH]; intros acc Hdated Hsorted; simpl.
  - rewrite app_nil_r. done.
  - apply Forall_app in Hdated as [Hacc Hxl].
    apply Forall_cons in Hxl as [Hx Hl].
    destruct (IH (insertSorted cmp x acc)) as [Hs Hstable].
    + apply Forall_app. split; [|done]. rewrite insertSorted_perm. by constructor.
    + by apply insertSorted_newest_first.
    + split; [done|]. intros t. rewrite Hstable, !filter_app.
      rewrite (insertSorted_stable t x acc) by done.
      rewrite <- app_assoc. f_equal. by rewrite <- filter_app.
Qed.

Lemma sortBy_newest_first (l : list A) :
  Forall dated l ->
  StronglySorted older (sortBy cmp l)
  /\ forall t, filter (fun a => getTime (stamp a) = t) (sortBy cmp l)
               = filter (fun a => getTime (stamp a) = t) l.
Proof.
  intros Hdated. apply (sortBy_from_newest_first l []); [done|constructor].
Qed.

End NewestFirst.

(** X16. The Shoots screen and the Edited screen list what the server
    returned, every record once, none lost and none repeated.  When every
    date (on the Edited screen, every editedAt) is a valid date, the list
    is newest first, and records with one and the same date stay in the
    order in which the server returned them. *)
Theorem list_screens_newest_first (getTime : string -> JsInt)
    (shoots : list Shoot.t) (edits : list EditedShoot.t) :
  sortedShoots getTime shoots ≡ₚ shoots
  /\ sortedEdits getTime edits ≡ₚ edits
  /\ ((forall s, s ∈ shoots -> getTime (Shoot.date s) <> None) ->
      StronglySorted (notOlder getTime Shoot.date) (sortedShoots getTime shoots)
      /\ forall t, filter (fun s => getTime (Shoot.date s) = t)
                     (sortedShoots getTime shoots)
                   = filter (fun s => getTime (Shoot.date s) = t) shoots)
  /\ ((forall e, e ∈ edits -> getTime (EditedShoot.editedAt e) <> None) ->
      StronglySorted (notOlder getTime EditedShoot.editedAt)
        (sortedEdits getTime edits)
      /\ forall t, filter (fun e => getTime (EditedShoot.editedAt e) = t)
                     (sortedEdits getTime edits)
                   = filter (fun e => getTime (EditedShoot.editedAt e) = t) edits).
Proof.
  split; [apply sortBy_perm|]. split; [apply sortBy_perm|]. split.
  - intros Hdated. apply sortBy_newest_first. by apply Forall_forall.
  - intros Hdated. apply sortBy_newest_first. by apply Forall_forall.
Qed.

Lemma list_screens_newest_first_witness :
  let getTime := fun s : string =>
    (fun ym : Z * nat => (fst ym * 12 + Z.of_nat (snd ym))%Z) <$> isoYearMonth s in
  let shoots := [ Shoot.mk "0" "Ava" "Luxe" "2024-01-10T09:00:00.000Z" 100 "t0" "t0";
                  Shoot.mk "1" "Bea" "Chic" "2024-03-20T09:00:00.000Z" 50 "t1" "t1";
                  Shoot.mk "2" "Cat" "Luxe" "2024-01-31T09:00:00.000Z" 25 "t2" "t2" ] in
  StronglySorted (notOlder getTime Shoot.date) (sortedShoots getTime shoots)
  /\ forall t, filter (fun s => getTime (Shoot.date s) = t)
                 (sortedShoots getTime shoots)
               = filter (fun s => getTime (Shoot.date s) = t) shoots.
Proof.
  intros getTime shoots.
  apply (list_screens_newest_first getTime shoots []).
  intros s Hs.
  repeat (apply elem_of_cons in Hs as [->|Hs]); try discriminate.
  by apply elem_of_nil in Hs.
Defined.

(** ** The order of the shoots does not matter to the months shown *)

Lemma laterMonth_by_ym (a b a' b' : MonthlyStats) :
  statYM a = statYM a' -> statYM b = statYM b' ->
  laterMonth a b -> laterMonth a' b'.
Proof.
  unfold statYM, laterMonth. intros [= -> ->] [= -> ->]. done.
Qed.

Lemma laterMonth_asym (a b : MonthlyStats) :
  laterMonth a b -> laterMonth b a -> False.
Proof.
  unfold laterMonth.
  destruct (year a), (monthNumber a), (year b), (monthNumber b); try done. lia.
Qed.

Lemma laterMonth_differs (a b : MonthlyStats) :
  laterMonth a b -> statYM a <> statYM b.
Proof.
  intros Hab Heq. apply (laterMonth_asym a b Hab).
  by apply (laterMonth_by_ym a b b a).
Qed.

Lemma sorted_buckets_unique (R R' : list MonthlyStats) :
  StronglySorted laterMonth R -> StronglySorted laterMonth R' ->
  (forall ym, ym ∈ map statYM R <-> ym ∈ map statYM R') ->
  map statYM R = map statYM R'.
Proof.
  revert R'. induction R as [|a R IH]; intros [|a' R'] Hs Hs' Hsame.
  - done.
  - exfalso. destruct (Hsame (statYM a')) as [_ H].
    apply elem_of_nil in H; [done|]. simpl. left.
  - exfalso. destruct (Hsame (statYM a)) as [H _].
    apply elem_of_nil in H; [done|]. simpl. left.
  - apply StronglySorted_inv in Hs as [Hs Hall].
    apply StronglySorted_inv in Hs' as [Hs' Hall'].
    rewrite Forall_forall in Hall, Hall'.
    assert (forall x, x ∈ R -> statYM x <> statYM a) as Hfresh.
    { intros x Hx Heq. by apply (laterMonth_differs a x (Hall x Hx)). }
    assert (forall x, x ∈ R' -> statYM x <> statYM a') as Hfresh'.
    { intros x Hx Heq. by apply (laterMonth_differs a' x (Hall' x Hx)). }
    assert (statYM a = statYM a') as Hhead.
    { destruct (Hsame (statYM a)) as [H _]. simpl in H.
      apply elem_of_cons in H as [H|H]; [done| |left].
      apply list_elem_of_fmap in H as (b' & Hb' & Hin').
      destruct (Hsame (statYM a')) as [_ H']. simpl in H'.
      apply elem_of_cons in H' as [H'|H']; [done| |left].
      apply list_elem_of_fmap in H' as (b & Hb & Hin).
      exfalso. apply (laterMonth_asym a b (Hall b Hin)).
      apply (laterMonth_by_ym a' b' b a); [done|done|]. by apply Hall'. }
    simpl. f_equal; [done|]. apply IH; [done..|].
    intros ym. split; intros Hin.
    + destruct (Hsame ym) as [H _]. simpl in H.
      apply elem_of_cons in H as [H|H]; [|done|by right].
      apply list_elem_of_fmap in Hin as (x & -> & Hx).
      exfalso. apply (Hfresh x Hx). congruence.
    + destruct (Hsame ym) as [_ H]. simpl in H.
      apply elem_of_cons in H as [H|H]; [|done|by right].
      apply list_elem_of_fmap in Hin as (x & -> & Hx).
      exfalso. apply (Hfresh' x Hx). congruence.
Qed.

Lemma map_pair_by_key {B C} (f : MonthlyStats -> B) (h : MonthlyStats -> C)
    (H : B -> C) (R R' : list MonthlyStats) :
  map f R = map f R' ->
  (forall st, st ∈ R -> h st = H (f st)) ->
  (forall st, st ∈ R' -> h st = H (f st)) ->
  map (fun st => (f st, h st)) R = map (fun st => (f st, h st)) R'.
Proof.
  revert R'. induction R as [|a R IH]; intros [|a' R'] Hmap HR HR';
    simpl in *; try done.
  injection Hmap as Hhead Htail. f_equal.
  - rewrite (HR a), (HR' a') by left. by rewrite Hhead.
  - apply IH; [done|..]; intros st Hst; [apply HR|apply HR']; by right.
Qed.

Lemma result_sorted localYearMonth (l : list Shoot.t) :
  (forall s, s ∈ l -> localYearMonth (Shoot.date s) <> None) ->
  StronglySorted laterMonth (computeMonthlyStats localYearMonth l).
Proof.
  intros Hvalid. apply sortBy_sorted.
  - eapply buckets_valid; [done|apply loop_aggregated].
  - eapply buckets_distinct, loop_aggregated.
Qed.

(** X17. Listing the same shoots in another order does not change the
    monthly breakdown, when every date is a valid date: the same months,
    in the same order, with the same month names and the same
    shootCounts.  (The totalEarnings are floating-point sums taken in list
    order and are left out.) *)
Theorem months_and_counts_ignore_order
    (localYearMonth : string -> option (Z * nat)) (l l' : list Shoot.t) :
  l ≡ₚ l' ->
  (forall s, s ∈ l -> localYearMonth (Shoot.date s) <> None) ->
  map (fun st => (statYM st, (month st, shootCount st)))
    (computeMonthlyStats localYearMonth l)
  = map (fun st => (statYM st, (month st, shootCount st)))
      (computeMonthlyStats localYearMonth l').
Proof.
  intros Hperm Hvalid.
  assert (forall s, s ∈ l' -> localYearMonth (Shoot.date s) <> None) as Hvalid'.
  { intros s Hs. apply Hvalid. by rewrite Hperm. }
  apply (map_pair_by_key statYM (fun st => (month st, shootCount st))
           (fun ym => (monthName (snd ym),
                       length (group localYearMonth l ym)))).
  - apply sorted_buckets_unique; [by apply result_sorted..|].
    intros ym. split; intros Hin;
      apply list_elem_of_fmap in Hin as (st & -> & Hst);
      destruct (shoot_for_bucket _ _ _ Hst) as (s0 & Hs0 & Hym & _).
    + destruct (bucket_for_shoot localYearMonth l' s0) as (st' & Hst' & Hym').
      { by rewrite <- Hperm. }
      apply list_elem_of_fmap. exists st'. split; [congruence|done].
    + destruct (bucket_for_shoot localYearMonth l s0) as (st' & Hst' & Hym').
      { by rewrite Hperm. }
      apply list_elem_of_fmap. exists st'. split; [congruence|done].
  - intros st Hst.
    destruct (shoot_for_bucket _ _ _ Hst) as (s0 & _ & _ & Hmonth & Hcount & _).
    by rewrite Hmonth, Hcount.
  - intros st Hst.
    destruct (shoot_for_bucket _ _ _ Hst) as (s0 & _ & _ & Hmonth & Hcount & _).
    rewrite Hmonth, Hcount. f_equal. unfold group. by rewrite Hperm.
Qed.

Lemma months_and_counts_ignore_order_witness :
  let a := Shoot.mk "0" "Ava" "Luxe" "2024-01-10T09:00:00.000Z" 100 "t0" "t0" in
  let b := Shoot.mk "1" "Bea" "Chic" "2024-03-20T09:00:00.000Z" 50 "t1" "t1" in
  let c := Shoot.mk "2" "Cat" "Luxe" "2024-01-31T09:00:00.000Z" 25 "t2" "t2" in
  map (fun st => (statYM st, (month st, shootCount st)))
    (computeMonthlyStats isoYearMonth [a; b; c])
  = map (fun st => (statYM st, (month st, shootCount st)))
      (computeMonthlyStats isoYearMonth [c; a; b]).
Proof.
  intros a b c.
  apply (months_and_counts_ignore_order isoYearMonth [a; b; c] [c; a; b]).
  - by rewrite (Permutation_cons_append [a; b] c).
  - intros s Hs.
    repeat (apply elem_of_cons in Hs as [->|Hs]); try discriminate.
    by apply elem_of_nil in Hs.
Defined.

(** * Accounting over a run *)

Lemma tally_cons (e x : Effect) (l : list Effect) :
  tally e (x :: l) = (if decide (x = e) then 1 else 0) + tally e l.
Proof.
  unfold tally. rewrite filter_cons. by destruct (decide (x = e)).
Qed.

Lemma effects_cons uuidAt nowAt (op : Op) (ops : list Op) (w : World) :
  effects uuidAt nowAt (op :: ops) w
  = effectOf op (fst (exec uuidAt nowAt op w))
    :: effects uuidAt nowAt ops (snd (exec uuidAt nowAt op w)).
Proof. simpl. by destruct (exec uuidAt nowAt op w). Qed.

(** X6. Over any sequence of calls from any store, the sizes of the
    buckets follow the calls that succeeded: Pending grows by one for each
    create and each move back and shrinks by one for each delete from it
    and each move to Edited; Edited grows by one for each move to it and
    shrinks by one for each delete from it and each move back.  Updates,
    reads and calls that report not-found never change a size. *)
Theorem bucket_sizes_over_a_run uuidAt nowAt (w : World) (ops : list Op) :
  let w' := run uuidAt nowAt ops w in
  let t := effects uuidAt nowAt ops w in
  length (shoots (docOf w')) + tally DeletedPending t + tally MovedToEdited t
  = length (shoots (docOf w)) + tally Created t + tally MovedBack t
  /\ length (editedShoots (docOf w')) + tally DeletedEdited t + tally MovedBack t
     = length (editedShoots (docOf w)) + tally MovedToEdited t.
Proof.
  revert w. induction ops as [|op ops IH]; intros w; cbv zeta.
  { unfold tally. simpl. lia. }
  simpl run. rewrite effects_cons.
  destruct (exec uuidAt nowAt op w) as [out w1] eqn:Hexec.
  pose proof (exec_bucket_sizes uuidAt nowAt w w1 op out Hexec) as Hstep.
  specialize (IH w1). cbv zeta in IH, Hstep. simpl fst. simpl snd.
  rewrite !tally_cons.
  destruct op, out as [?|[?|]|?|[|]|?|[?|]]; simpl in Hstep |- *; lia.
Qed.

(** * Back to Pending and to Edited again *)

Lemma findIndex_shoot_pushed (i : string) (l : list Shoot.t) s :
  i ∉ map Shoot.id l -> Shoot.id s = i ->
  findIndex (hasId i) (l ++ [s]) = Some (length l, s).
Proof.
  intros Hfresh Hid. unfold findIndex.
  rewrite list_find_app_r by (by apply findIndex_hasId_None).
  simpl. rewrite decide_True; [reflexivity|].
  unfold hasId. by apply bool_decide_eq_true.
Qed.

(** X18. In a store whose identifiers are pairwise different and came
    from earlier calls of [randomUUID()], as did every originalShootId,
    with [randomUUID()] never repeating itself: [moveEditedShootBack] on
    an EditedShoot followed by [moveShootToEdited] on the Shoot it
    returned puts an EditedShoot with the same modelName, salonName, date,
    price and createdAt back into Edited and leaves Pending as it was.  The
    record has a new id, and its originalShootId is the id it had in
    Pending in between, not the originalShootId it had before. *)
Theorem move_back_and_to_edited_again uuidAt nowAt (w : World) (e : EditedShoot.t) :
  (forall j k, uuidAt j = uuidAt k -> j = k) ->
  WellFormed uuidAt w ->
  Abandoned uuidAt w ->
  e ∈ editedShoots (docOf w) ->
  exists s w1 e' w2,
    moveEditedShootBack uuidAt nowAt (EditedShoot.id e) w = (Some s, w1)
    /\ moveShootToEdited uuidAt nowAt (Shoot.id s) w1 = (Some e', w2)
    /\ e' ∈ editedShoots (docOf w2)
    /\ shoots (docOf w2) = shoots (docOf w)
    /\ EditedShoot.modelName e' = EditedShoot.modelName e
    /\ EditedShoot.salonName e' = EditedShoot.salonName e
    /\ EditedShoot.date e' = EditedShoot.date e
    /\ EditedShoot.price e' = EditedShoot.price e
    /\ EditedShoot.createdAt e' = EditedShoot.createdAt e
    /\ EditedShoot.originalShootId e' = Shoot.id s
    /\ EditedShoot.originalShootId e' <> EditedShoot.originalShootId e
    /\ EditedShoot.id e' <> EditedShoot.id e.
Proof.
  intros Hinj Hwf Hab He.
  pose proof Hwf as [Hnd Hissued].
  assert (NoDup (editedIds (docOf w))) as Hnde.
  { unfold idsOf in Hnd. by apply NoDup_app in Hnd as (_ & _ & ?). }
  assert (EditedShoot.id e ∈ editedIds (docOf w)) as Hin.
  { apply list_elem_of_fmap. by exists e. }
  destruct (findIndex_editedHasId_is_Some _ _ Hin) as (idx & e0 & Hfind).
  destruct (findIndex_editedHasId_Some _ _ _ _ Hfind) as [Hl Hid].
  assert (e0 = e) as ->.
  { apply (same_key_same_element EditedShoot.id (editedShoots (docOf w)));
      try done. by eapply list_elem_of_lookup_2. }
  pose proof (next_uuid_fresh uuidAt Hinj w Hwf) as Hfresh.
  set (s := Shoot.mk (uuidAt (uuidCalls w))
              (EditedShoot.modelName e) (EditedShoot.salonName e)
              (EditedShoot.date e) (EditedShoot.price e)
              (EditedShoot.createdAt e) (nowAt (clockReads w))).
  assert (findIndex (hasId (Shoot.id s)) (shoots (docOf w) ++ [s])
          = Some (length (shoots (docOf w)), s)) as Hfind2.
  { apply findIndex_shoot_pushed; [|done]. simpl.
    intros Hbad. apply Hfresh. unfold idsOf. apply elem_of_app. by left. }
  eexists s, _, _, _.
  split; [by apply moveEditedShootBack_hit|].
  split; [by apply moveShootToEdited_hit|].
  simpl. rewrite delete_last_pushed.
  split; [apply elem_of_app; right; apply list_elem_of_singleton; done|].
  repeat split.
  - destruct (Hab (EditedShoot.originalShootId e)) as [(k & Hk & Hk') _].
    { unfold originalIds. apply list_elem_of_fmap. by exists e. }
    intros Heq. rewrite <- Hk' in Heq. apply Hinj in Heq. lia.
  - destruct (Hissued (EditedShoot.id e)) as (k & Hk & Hk').
    { unfold idsOf. apply elem_of_app. by right. }
    intros Heq. rewrite <- Hk' in Heq. apply Hinj in Heq. lia.
Qed.

Lemma move_back_and_to_edited_again_witness :
  let uuidAt := fun k : nat => pretty k in
  let nowAt := fun k : nat => "2024-03-0" +:+ pretty k in
  let w := run uuidAt nowAt
             [ CreateShoot (ShootFormData.mk "Ava" "Luxe" "2024-03-01" 150);
               MoveShootToEdited "0" ] initialWorld in
  let e := EditedShoot.mk "1" "0" "Ava" "Luxe" "2024-03-01" 150
             "2024-03-00" "2024-03-01" in
  exists s w1 e' w2,
    moveEditedShootBack uuidAt nowAt (EditedShoot.id e) w = (Some s, w1)
    /\ moveShootToEdited uuidAt nowAt (Shoot.id s) w1 = (Some e', w2)
    /\ e' ∈ editedShoots (docOf w2)
    /\ shoots (docOf w2) = shoots (docOf w)
    /\ EditedShoot.modelName e' = EditedShoot.modelName e
    /\ EditedShoot.salonName e' = EditedShoot.salonName e
    /\ EditedShoot.date e' = EditedShoot.date e
    /\ EditedShoot.price e' = EditedShoot.price e
    /\ EditedShoot.createdAt e' = EditedShoot.createdAt e
    /\ EditedShoot.originalShootId e' = Shoot.id s
    /\ EditedShoot.originalShootId e' <> EditedShoot.originalShootId e
    /\ EditedShoot.id e' <> EditedShoot.id e.
Proof.
  intros uuidAt nowAt w e.
  apply (move_back_and_to_edited_again uuidAt nowAt w e).
  - exact pretty_nat_never_repeats.
  - apply run_wellFormed; [exact pretty_nat_never_repeats|].
    apply empty_wellFormed. reflexivity.
  - apply run_abandoned; [exact pretty_nat_never_repeats| |].
    + apply empty_wellFormed. reflexivity.
    + intros o Ho. by apply elem_of_nil in Ho.
  - vm_compute. left.
Defined.

(** * The two embeddings agree *)

Lemma docOf_atRuntime (w : World) :
  Runtime.docOf (worldAtRuntime w) = dataAtRuntime (docOf w).
Proof. unfold Runtime.docOf, docOf. simpl. by destruct (file w). Qed.

Lemma findIndex_shootAtRuntime (i : string) (l : list Shoot.t) :
  findIndex (Runtime.hasId i) (map shootAtRuntime l)
  = prod_map id shootAtRuntime <$> findIndex (hasId i) l.
Proof. unfold findIndex. by rewrite list_find_fmap. Qed.

Lemma findIndex_editedAtRuntime (i : string) (l : list EditedShoot.t) :
  findIndex (Runtime.editedHasId i) (map editedAtRuntime l)
  = prod_map id editedAtRuntime <$> findIndex (editedHasId i) l.
Proof. unfold findIndex. by rewrite list_find_fmap. Qed.

Lemma exactPrices_spec (d : DataStore) :
  exactPrices d = true
  <-> Forall (fun s => jsonExact (Shoot.price s) = true) (shoots d)
      /\ Forall (fun e => jsonExact (EditedShoot.price e) = true) (editedShoots d).
Proof.
  unfold exactPrices. rewrite andb_true_iff, !forallb_forall, !Forall_forall.
  split; intros [H1 H2]; split; intros x Hx.
  - apply H1. by apply list_elem_of_In.
  - apply H2. by apply list_elem_of_In.
  - apply H1. by apply list_elem_of_In.
  - apply H2. by apply list_elem_of_In.
Qed.

Lemma keptNumber_exact (p : float) :
  jsonExact p = true -> Runtime.keptNumber p = Runtime.VNum p.
Proof.
  unfold jsonExact, Runtime.keptNumber. intros H.
  apply andb_true_iff in H as [-> H]. apply negb_true_iff in H. by rewrite H.
Qed.

Lemma dataThroughJson_exact (d : DataStore) :
  exactPrices d = true ->
  Runtime.dataThroughJson (dataAtRuntime d) = dataAtRuntime d.
Proof.
  intros H. apply exactPrices_spec in H as [Hs He].
  unfold Runtime.dataThroughJson, dataAtRuntime. simpl. f_equal.
  - induction Hs as [|s l Hp _ IH]; [done|]. simpl. f_equal; [|done].
    unfold Runtime.shootThroughJson. simpl. by rewrite keptNumber_exact.
  - induction He as [|e l Hp _ IH]; [done|]. simpl. f_equal; [|done].
    unfold Runtime.editedThroughJson. simpl. by rewrite keptNumber_exact.
Qed.

Lemma logged_atRuntime (w : World) :
  Runtime.logged Runtime.EvRead (worldAtRuntime w) = worldAtRuntime (afterRead w).
Proof. unfold Runtime.logged, worldAtRuntime, afterRead. simpl. by rewrite map_app. Qed.

Lemma afterWrite_atRuntime (d' : DataStore) (a b : nat) (w : World) :
  file w <> ReadFails -> exactPrices d' = true ->
  Runtime.afterWrite (dataAtRuntime d') a b (worldAtRuntime w)
  = worldAtRuntime (afterWrite d' a b w).
Proof.
  intros Hfile Hexact.
  unfold Runtime.afterWrite, worldAtRuntime, afterWrite, Runtime.contentAfterWrite.
  simpl. rewrite map_app, (dataThroughJson_exact _ Hexact). simpl.
  by destruct (file w).
Qed.

Lemma map_insert {A B} (f : A -> B) (l : list A) idx x :
  map f (<[idx := x]> l) = <[idx := f x]> (map f l).
Proof. apply (list_fmap_insert f). Qed.

(** The document written at run time is the typed one, taken at run time. *)
Ltac written_atRuntime :=
  match goal with
  | |- Runtime.afterWrite ?drt _ _ _ = worldAtRuntime (afterWrite ?d' _ _ _) =>
      replace drt with (dataAtRuntime d')
        by (unfold dataAtRuntime; simpl;
            rewrite ?map_app, ?map_delete, ?map_insert; reflexivity);
      apply afterWrite_atRuntime; [assumption|]; apply exactPrices_spec
  end.

(** X19. On a file system that works and on documents whose prices JSON
    holds exactly, the first embedding is the run-time embedding: every
    operation of the store, run on a world of the first embedding taken
    as a run-time world, returns the record, list or flag that the
    operation of the first embedding returns, and leaves the world that
    one leaves.  The reads agree on every world.  The operations that
    write agree when the file is not one that cannot be read and the
    prices in the document, and in the form, are finite and not -0. *)
Theorem typed_store_is_the_runtime_store uuidAt nowAt
    (w : World) (i : string) (form : ShootFormData.t) :
  let W := worldAtRuntime w in
  agrees (map shootAtRuntime) (getShoots w) (Runtime.getShoots W)
  /\ agrees (fmap shootAtRuntime) (getShootById i w) (Runtime.getShootById i W)
  /\ agrees (map editedAtRuntime) (getEditedShoots w) (Runtime.getEditedShoots W)
  /\ agrees (fmap editedAtRuntime) (getEditedShootById i w)
       (Runtime.getEditedShootById i W)
  /\ (file w <> ReadFails -> exactPrices (docOf w) = true ->
      agrees id (deleteShoot i w) (Runtime.deleteShoot i W)
      /\ agrees (fmap editedAtRuntime) (moveShootToEdited uuidAt nowAt i w)
           (Runtime.moveShootToEdited uuidAt nowAt i W)
      /\ agrees (fmap shootAtRuntime) (moveEditedShootBack uuidAt nowAt i w)
           (Runtime.moveEditedShootBack uuidAt nowAt i W)
      /\ agrees id (deleteEditedShoot i w) (Runtime.deleteEditedShoot i W)
      /\ (jsonExact (ShootFormData.price form) = true ->
          agrees shootAtRuntime (createShoot uuidAt nowAt form w)
            (Runtime.createShoot uuidAt nowAt (formAtRuntime form) W)
          /\ agrees (fmap shootAtRuntime) (updateShoot nowAt i form w)
               (Runtime.updateShoot nowAt i (formAtRuntime form) W)
          /\ agrees (fmap editedAtRuntime) (updateEditedShoot nowAt i form w)
               (Runtime.updateEditedShoot nowAt i (formAtRuntime form) W))).
Proof.
  intros W. unfold agrees. subst W. set (W := worldAtRuntime w).
  assert (Runtime.docOf W = dataAtRuntime (docOf w)) as Hdoc by apply docOf_atRuntime.
  assert (Runtime.logged Runtime.EvRead W = worldAtRuntime (afterRead w))
    as Hread by apply logged_atRuntime.
  assert (findIndex (Runtime.hasId i) (Runtime.shoots (Runtime.docOf W))
          = prod_map id shootAtRuntime <$> findIndex (hasId i) (shoots (docOf w)))
    as Hp by (rewrite Hdoc; apply findIndex_shootAtRuntime).
  assert (findIndex (Runtime.editedHasId i) (Runtime.editedShoots (Runtime.docOf W))
          = prod_map id editedAtRuntime
            <$> findIndex (editedHasId i) (editedShoots (docOf w)))
    as He by (rewrite Hdoc; apply findIndex_editedAtRuntime).
  split; [|split; [|split; [|split]]].
  - rewrite getShoots_spec.
    unfold Runtime.getShoots, Runtime.bind, Runtime.ret.
    rewrite rt_readData_docOf.
    by rewrite Hdoc, Hread.
  - rewrite getShootById_spec.
    unfold Runtime.getShootById, Runtime.bind, Runtime.ret.
    rewrite rt_readData_docOf.
    unfold find. rewrite Hp, Hread. simpl.
    by destruct (findIndex (hasId i) _) as [[? ?]|].
  - rewrite getEditedShoots_spec.
    unfold Runtime.getEditedShoots, Runtime.bind, Runtime.ret.
    rewrite rt_readData_docOf.
    by rewrite Hdoc, Hread.
  - rewrite getEditedShootById_spec.
    unfold Runtime.getEditedShootById, Runtime.bind, Runtime.ret.
    rewrite rt_readData_docOf.
    unfold find. rewrite He, Hread. simpl.
    by destruct (findIndex (editedHasId i) _) as [[? ?]|].
  - intros Hfile Hexact.
    pose proof (proj1 (exactPrices_spec _) Hexact) as [Hs Hed].
    split; [|split; [|split; [|split]]].
    + (* deleteShoot *)
      destruct (findIndex (hasId i) (shoots (docOf w))) as [[idx s]|] eqn:E;
        simpl in Hp.
      * rewrite (deleteShoot_hit _ _ _ _ E), (rt_deleteShoot_hit _ _ _ _ Hp).
        rewrite Hdoc. simpl. f_equal. written_atRuntime.
        split; [by apply Forall_delete|done].
      * rewrite (deleteShoot_miss _ _ E), (rt_deleteShoot_miss _ _ Hp).
        by rewrite Hread.
    + (* moveShootToEdited *)
      destruct (findIndex (hasId i) (shoots (docOf w))) as [[idx s]|] eqn:E;
        simpl in Hp.
      * rewrite (moveShootToEdited_hit _ _ _ _ _ _ E),
          (rt_moveShootToEdited_hit _ _ _ _ _ _ Hp).
        rewrite Hdoc. simpl. f_equal. written_atRuntime.
        apply findIndex_hasId_Some in E as [Hl _].
        split; [by apply Forall_delete|].
        apply Forall_app. split; [done|]. apply Forall_singleton. simpl.
        by eapply Forall_lookup_1 in Hs.
      * rewrite (moveShootToEdited_miss _ _ _ _ E),
          (rt_moveShootToEdited_miss _ _ _ _ Hp).
        by rewrite Hread.
    + (* moveEditedShootBack *)
      destruct (findIndex (editedHasId i) (editedShoots (docOf w)))
        as [[idx e]|] eqn:E; simpl in He.
      * rewrite (moveEditedShootBack_hit _ _ _ _ _ _ E),
          (rt_moveEditedShootBack_hit _ _ _ _ _ _ He).
        rewrite Hdoc. simpl. f_equal. written_atRuntime.
        apply findIndex_editedHasId_Some in E as [Hl _].
        split; [|by apply Forall_delete].
        apply Forall_app. split; [done|]. apply Forall_singleton. simpl.
        by eapply Forall_lookup_1 in Hed.
      * rewrite (moveEditedShootBack_miss _ _ _ _ E),
          (rt_moveEditedShootBack_miss _ _ _ _ He).
        by rewrite Hread.
    + (* deleteEditedShoot *)
      destruct (findIndex (editedHasId i) (editedShoots (docOf w)))
        as [[idx e]|] eqn:E; simpl in He.
      * rewrite (deleteEditedShoot_hit _ _ _ _ E), (rt_deleteEditedShoot_hit _ _ _ _ He).
        rewrite Hdoc. simpl. f_equal. written_atRuntime.
        split; [done|by apply Forall_delete].
      * rewrite (deleteEditedShoot_miss _ _ E), (rt_deleteEditedShoot_miss _ _ He).
        by rewrite Hread.
    + intros Hform. split; [|split].
      * (* createShoot *)
        rewrite createShoot_spec, rt_createShoot_spec.
        rewrite Hdoc. simpl. f_equal. written_atRuntime.
        split; [|done].
        apply Forall_app. split; [done|]. by apply Forall_singleton.
      * (* updateShoot *)
        destruct (findIndex (hasId i) (shoots (docOf w))) as [[idx old]|] eqn:E;
          simpl in Hp.
        -- rewrite (updateShoot_hit _ _ _ _ _ _ E),
             (rt_updateShoot_hit _ _ _ _ _ _ Hp).
           rewrite Hdoc. simpl. f_equal. written_atRuntime.
           split; [|done]. by apply Forall_insert.
        -- rewrite (updateShoot_miss _ _ _ _ E), (rt_updateShoot_miss _ _ _ _ Hp).
           by rewrite Hread.
      * (* updateEditedShoot *)
        destruct (findIndex (editedHasId i) (editedShoots (docOf w)))
          as [[idx old]|] eqn:E; simpl in He.
        -- rewrite (updateEditedShoot_hit _ _ _ _ _ _ E),
             (rt_updateEditedShoot_hit _ _ _ _ _ _ He).
           rewrite Hdoc. simpl. f_equal. written_atRuntime.
           split; [done|]. by apply Forall_insert.
        -- rewrite (updateEditedShoot_miss _ _ _ _ E),
             (rt_updateEditedShoot_miss _ _ _ _ He).
           by rewrite Hread.
Qed.

(** * What the file keeps of a record *)




